(** * SSR scoring engine: a shallow embedding of [src/ssr]

    The development follows the three source files of the scoring core:

    - [scorer.ts]         [cosineSimilarity], [similarityToPmf],
                          [DEFAULT_ANCHOR_SETS] and the class [SsrScorer];
    - [score-answers.ts]  [scoreAllAnswers];
    - [voyage-provider.ts] the class [VoyageProvider]: constructor, [embed],
                          [fetchEmbeddings], [clearCache], [getCacheSize];

    and, of the callers in [cli.ts], [createDistributionBar], which draws a
    score's distribution in the report.

    Conventions of the embedding.

    - In the scorer a JavaScript [number] is an exact real ([R]): what is
      proved there is which formula the code evaluates and what it does
      with the provider, the caches and the errors, not the value a
      double takes after rounding.  The one non-real value the code can
      produce from real inputs, [NaN] (reading an absent array slot and
      doing arithmetic on it), is kept as the constructor [NaN] of [num].
      [cosineSimilarity] is embedded a second time on IEEE doubles, in the
      module [Double], where rounding, overflow and [NaN] are those of
      binary64.
    - A plain object used as a dictionary is a [gmap] over its own keys
      together with what it inherits from [Object.prototype]: a read
      [obj[key]] finds an own property or else an inherited one
      ([get_property]), and an assignment [obj[key] = v] adds an own
      property unless the key is [__proto__] ([assign_property]).  An
      object given by [Object.entries] is the list of its entries, whose
      keys are pairwise distinct; an array is a [list];
      [undefined]/[null] in a slot that should hold a value is [None].
    - A thrown exception is a value of [error], tagged by the place that
      throws it; an [async] method that mutates [this] is a function from
      the object's state to an outcome and the new state (the monad [M]). *)

From Stdlib Require Import Floats.
From Stdlib Require Import Reals Lra Lia Ascii.
From stdpp Require Import base option list strings pretty gmap sorting.

#[local] Open Scope R_scope.

(** ** Errors *)

(** The payload of a failure raised by the embedding backend (status and
    message); opaque to the scorer. *)
Definition ProviderFailure := string.

Inductive error : Type :=
  (** [throw new Error("Vectors must have the same length")] *)
  | DimensionMismatch
  (** [throw new Error(`No anchor sets defined for question type: ${questionType}`)] *)
  | UnknownQuestionType (questionType : string)
  (** [throw new Error(`No anchor set found for ${questionType} at index ${anchorSetIndex}`)] *)
  | NoAnchorSetFound (questionType : string) (anchorSetIndex : nat)
  (** the engine's [TypeError] on reading [.length] of [undefined] *)
  | TypeError
  (** whatever [provider.embed] rejected with *)
  | ProviderError (failure : ProviderFailure).

(** ** Numbers that may be [NaN] *)

Inductive num : Type :=
  | Num (r : R)
  | NaN.

Definition num_add (a b : num) : num :=
  match a, b with
  | Num x, Num y => Num (x + y)
  | _, _ => NaN
  end.

Definition num_sub (a b : num) : num :=
  match a, b with
  | Num x, Num y => Num (x - y)
  | _, _ => NaN
  end.

Definition num_mul (a b : num) : num :=
  match a, b with
  | Num x, Num y => Num (x * y)
  | _, _ => NaN
  end.

(** [a / n] for an array length [n] that is not zero. *)
Definition num_div_count (a : num) (n : nat) : num :=
  match a with
  | Num x => Num (x / INR n)
  | NaN => NaN
  end.

(** [Math.log2] on a positive argument. *)
Definition log2 (x : R) : R := ln x / ln 2.

(** [arr[i]] used as an operand: an absent slot is [undefined], which
    arithmetic turns into [NaN]. *)
Definition num_at (arr : list R) (i : nat) : num :=
  match arr !! i with
  | Some x => Num x
  | None => NaN
  end.

(** ** VectorMath ([scorer.ts], lines 3-41) *)

(** One iteration of the [for] loop of [cosineSimilarity]; the state is
    [(dotProduct, normA, normB)]. *)
Definition cosineStep (vecA vecB : list R) (acc : R * R * R) (i : nat)
  : R * R * R :=
  let '(dotProduct, normA, normB) := acc in
  (dotProduct + nth i vecA 0 * nth i vecB 0,
   normA + nth i vecA 0 * nth i vecA 0,
   normB + nth i vecB 0 * nth i vecB 0).

Definition cosineSimilarity (vecA vecB : list R) : error + R :=
  if decide (length vecA ≠ length vecB) then inl DimensionMismatch
  else
    let '(dotProduct, normA, normB) :=
      foldl (cosineStep vecA vecB) (0, 0, 0) (seq 0 (length vecA)) in
    let denominator := sqrt normA * sqrt normB in
    if Req_dec_T denominator 0 then inr 0
    else inr (dotProduct / denominator).

(** *** [cosineSimilarity] on IEEE doubles

    The same function with its numbers read as binary64 values: [float]
    is the type of doubles, its operations round to nearest even, and
    [=?] is the comparison [===] of two numbers (true on [0] and [-0],
    false on [NaN]). *)

Module Double.

(** One iteration of the [for] loop; the state is
    [(dotProduct, normA, normB)]. *)
Definition cosineStep (vecA vecB : list float) (acc : float * float * float) (i : nat)
  : float * float * float :=
  let '(dotProduct, normA, normB) := acc in
  (dotProduct + nth i vecA nan * nth i vecB nan,
   normA + nth i vecA nan * nth i vecA nan,
   normB + nth i vecB nan * nth i vecB nan)%float.

Definition cosineSimilarity (vecA vecB : list float) : error + float :=
  if decide (length vecA ≠ length vecB) then inl DimensionMismatch
  else
    let '(dotProduct, normA, normB) :=
      foldl (cosineStep vecA vecB) (0, 0, 0)%float (seq 0 (length vecA)) in
    let denominator := (PrimFloat.sqrt normA * PrimFloat.sqrt normB)%float in
    if (denominator =? 0)%float then inr 0%float
    else inr (dotProduct / denominator)%float.

(** The sum of the products [a[i] * b[i]], added to [acc] from left to
    right, each product and each sum rounded. *)
Fixpoint sumProducts (acc : float) (a b : list float) : float :=
  match a, b with
  | x :: a', y :: b' => sumProducts (acc + x * y)%float a' b'
  | _, _ => acc
  end.

(** [Math.sqrt(normA) * Math.sqrt(normB)] *)
Definition denominator (a b : list float) : float :=
  (PrimFloat.sqrt (sumProducts 0 a a) * PrimFloat.sqrt (sumProducts 0 b b))%float.

End Double.

(** [Math.max(...xs)]: the fold starts from minus infinity, so on a
    non-empty array it is the fold of [Rmax] from the first element.  On the
    empty array the code gets [-Infinity]; [similarityToPmf] then maps over
    an empty array and never reads it, so the value given here is
    irrelevant. *)
Definition Math_max (xs : list R) : R :=
  match xs with
  | [] => 0
  | x :: rest => foldl Rmax x rest
  end.

(** [xs.reduce((a, b) => a + b, 0)] *)
Definition reduce_sum (xs : list R) : R := foldl Rplus 0 xs.

Record PmfOptions : Type := {
  opt_epsilon : option R;
  opt_temperature : option R;
}.

Definition similarityToPmf (similarities : list R) (options : option PmfOptions)
  : list R :=
  let epsilon := default 1e-8 (options ≫= opt_epsilon) in
  let temperature := default 1 (options ≫= opt_temperature) in
  let scaledSims := map (λ s, s / temperature) similarities in
  let maxSim := Math_max scaledSims in
  let expSims := map (λ s, exp (s - maxSim)) scaledSims in
  let sum := reduce_sum expSims + epsilon * INR (length similarities) in
  let pmf := map (λ e, (e + epsilon) / sum) expSims in
  let pmfSum := reduce_sum pmf in
  map (λ p, p / pmfSum) pmf.

(** ** Plain objects used as dictionaries

    The catalog, [questionTypeMapping] and [scores] are plain objects (what
    an object literal and [JSON.parse] produce): besides its own
    properties, such an object inherits those of [Object.prototype]. *)

(** The value of a property of [Object.prototype]: a method, given with
    the name and the [length] of the function, or, for [__proto__], the
    object [Object.prototype] itself. *)
Inductive inherited : Type :=
  | Method (name : string) (arity : nat)
  | PrototypeObject.

(** The properties of [Object.prototype] (ECMA-262, 20.1.3 and B.2.2). *)
Definition Object_prototype : list (string * inherited) :=
  [ ("constructor", Method "Object" 1);
    ("__defineGetter__", Method "__defineGetter__" 2);
    ("__defineSetter__", Method "__defineSetter__" 2);
    ("hasOwnProperty", Method "hasOwnProperty" 1);
    ("__lookupGetter__", Method "__lookupGetter__" 1);
    ("__lookupSetter__", Method "__lookupSetter__" 1);
    ("isPrototypeOf", Method "isPrototypeOf" 1);
    ("propertyIsEnumerable", Method "propertyIsEnumerable" 1);
    ("toString", Method "toString" 0);
    ("valueOf", Method "valueOf" 0);
    ("__proto__", PrototypeObject);
    ("toLocaleString", Method "toLocaleString" 0) ]%string.

Definition inherited_property (key : string) : option inherited :=
  snd <$> List.find (λ p : string * inherited, String.eqb p.1 key) Object_prototype.

(** What [o[key]] evaluates to, for a plain object whose own properties are
    [own]: the own property, else the inherited one, else [undefined]
    ([None]). *)
Inductive property (A : Type) : Type :=
  | Own (a : A)
  | Inherited (v : inherited).
Arguments Own {A} _.
Arguments Inherited {A} _.

Definition get_property {A : Type} (own : gmap string A) (key : string)
  : option (property A) :=
  match own !! key with
  | Some a => Some (Own a)
  | None => Inherited <$> inherited_property key
  end.

(** [o[key] = a] on such an object.  The name [__proto__] is an accessor of
    [Object.prototype]: assigning an object to it replaces the prototype of
    [o] and gives [o] no own property.  Every other name, inherited or not,
    becomes an own property. *)
Definition assign_property {A : Type} (key : string) (a : A) (own : gmap string A)
  : gmap string A :=
  if decide (key = "__proto__"%string) then own else <[key := a]> own.

(** [String(v)] for an inherited value, as V8 prints a built-in function. *)
Definition inherited_to_string (v : inherited) : string :=
  match v with
  | Method name _ => "function " +:+ name +:+ "() { [native code] }"
  | PrototypeObject => "[object Object]"
  end.

(** [x.length]: a number, or [undefined] for an object without the
    property. *)
Inductive count : Type :=
  | Count (n : nat)
  | Undefined.
Coercion Count : nat >-> count.

(** ** AnchorCatalog ([scorer.ts], lines 43-136) *)

(** [type AnchorSet = { [level: number]: string }] *)
Abbreviation AnchorSet := (gmap nat string).

(** [{ [questionType: string]: AnchorSet[] }] *)
Abbreviation AnchorCatalog := (gmap string (list AnchorSet)).

Definition DEFAULT_ANCHOR_SETS : AnchorCatalog :=
  {[ "ease" := [
       {[ 1%nat := "This was extremely difficult. I could not complete the task at all.";
          2%nat := "This was quite difficult. I struggled significantly to make progress.";
          3%nat := "This was moderately easy. I encountered some friction but got through.";
          4%nat := "This was fairly easy. I had only minor issues.";
          5%nat := "This was very easy. I completed the task effortlessly." ]};
       {[ 1%nat := "Impossible to use. The interface was completely confusing.";
          2%nat := "Very hard to figure out. I got stuck multiple times.";
          3%nat := "Somewhat straightforward. A few confusing moments.";
          4%nat := "Pretty intuitive. Found my way without much trouble.";
          5%nat := "Extremely intuitive. Everything was exactly where I expected." ]};
       {[ 1%nat := "I gave up. This was too frustrating to continue.";
          2%nat := "I almost gave up. Required significant effort to persist.";
          3%nat := "I managed, but it took some effort to figure things out.";
          4%nat := "Mostly smooth experience with minor hiccups.";
          5%nat := "Completely smooth. No obstacles whatsoever." ]};
       {[ 1%nat := "The worst user experience I've ever had.";
          2%nat := "A poor user experience with many problems.";
          3%nat := "An average user experience, neither great nor terrible.";
          4%nat := "A good user experience with room for improvement.";
          5%nat := "An excellent user experience, very well designed." ]};
       {[ 1%nat := "I would never recommend this to anyone.";
          2%nat := "I would warn others about the difficulty.";
          3%nat := "I might mention it's a bit tricky to use.";
          4%nat := "I would say it's pretty easy to use.";
          5%nat := "I would highly recommend it for its ease of use." ]};
       {[ 1%nat := "Completely failed to accomplish what I wanted.";
          2%nat := "Barely accomplished my goal after much struggle.";
          3%nat := "Accomplished my goal with moderate effort.";
          4%nat := "Accomplished my goal fairly efficiently.";
          5%nat := "Accomplished my goal quickly and easily." ]} ];
     "trust" := [
       {[ 1%nat := "I don't trust this site at all. It feels suspicious and unsafe.";
          2%nat := "I have significant concerns about this site's trustworthiness.";
          3%nat := "I'm neutral. The site seems neither trustworthy nor untrustworthy.";
          4%nat := "I mostly trust this site. It appears legitimate.";
          5%nat := "I completely trust this site. I would share sensitive information." ]};
       {[ 1%nat := "This site looks like a scam. I would never enter my information.";
          2%nat := "This site feels unprofessional and raises red flags.";
          3%nat := "This site seems okay but I'm not fully confident.";
          4%nat := "This site looks professional and reliable.";
          5%nat := "This site is clearly trustworthy and secure." ]};
       {[ 1%nat := "I feel very unsafe using this website.";
          2%nat := "I feel somewhat uneasy about security on this site.";
          3%nat := "I don't have strong feelings about security either way.";
          4%nat := "I feel reasonably secure using this site.";
          5%nat := "I feel completely safe and secure on this website." ]};
       {[ 1%nat := "I would never give my credit card to this site.";
          2%nat := "I would be very hesitant to make a purchase here.";
          3%nat := "I might consider a purchase but with caution.";
          4%nat := "I would be comfortable making a purchase.";
          5%nat := "I would have no hesitation buying from this site." ]};
       {[ 1%nat := "This site seems designed to deceive users.";
          2%nat := "This site has some deceptive or dark patterns.";
          3%nat := "This site is fairly straightforward in its presentation.";
          4%nat := "This site is transparent and honest in its design.";
          5%nat := "This site is exemplary in its honesty and transparency." ]};
       {[ 1%nat := "I feel this site is actively trying to harm users.";
          2%nat := "I feel this site doesn't have users' best interests at heart.";
          3%nat := "I feel this site is indifferent to user wellbeing.";
          4%nat := "I feel this site cares about its users.";
          5%nat := "I feel this site genuinely prioritizes user wellbeing." ]} ] ]}.

(** ** The monad of methods: state passing with exceptions *)

Definition M (S A : Type) : Type := S → (error + A) * S.

Definition ret {S A : Type} (a : A) : M S A := λ s, (inr a, s).

Definition bind {S A B : Type} (m : M S A) (k : A → M S B) : M S B :=
  λ s, match m s with
       | (inl e, s') => (inl e, s')
       | (inr a, s') => k a s'
       end.

Definition throw {S A : Type} (e : error) : M S A := λ s, (inl e, s).

(** [try { body } catch (error) { handler }] *)
Definition try_catch {S A : Type} (body : M S A) (handler : error → M S A)
  : M S A :=
  λ s, match body s with
       | (inl e, s') => handler e s'
       | (inr a, s') => (inr a, s')
       end.

(** Lifting of a pure computation that may throw. *)
Definition lift {S A : Type} (r : error + A) : M S A := λ s, (r, s).

Notation "'do' x <- m ; k" := (bind m (λ x, k))
  (at level 10, x name, m at level 100, k at level 200,
   format "'[v' 'do'  x  <-  m ; '/' k ']'").

(** [xs.map(f)] for a callback that may throw: left to right, the first
    exception aborts the traversal. *)
Fixpoint map_throwing {A B : Type} (f : A → error + B) (xs : list A)
  : error + list B :=
  match xs with
  | [] => inr []
  | x :: rest =>
      match f x with
      | inl e => inl e
      | inr y =>
          match map_throwing f rest with
          | inl e => inl e
          | inr ys => inr (y :: ys)
          end
      end
  end.

(** ** EmbeddingProvider (the interface of [embedding-provider.ts]) *)

(** A string argument; [None] is the [undefined] an [AnchorSet] gives for a
    level it does not define. *)
Abbreviation text := (option string).

(** An element of the returned array: a vector, or [None] when the slot
    holds [undefined]/[null]. *)
Abbreviation embedding := (option (list R)).

(** [embed(texts: string[]): Promise<number[][]>].  The promise either
    rejects with a failure or resolves to an array; the provider object may
    change state either way. *)
Class EmbeddingProvider (P : Type) : Type := {
  embed : list text → P → (ProviderFailure + list embedding) * P
}.

(** ** Scorer ([scorer.ts], lines 138-247) *)

Record SsrScorerOptions (P : Type) : Type := {
  o_provider : P;
  o_anchorSets : option AnchorCatalog;
  o_epsilon : option R;
  o_temperature : option R;
}.
Arguments o_provider {P} _.
Arguments o_anchorSets {P} _.
Arguments o_epsilon {P} _.
Arguments o_temperature {P} _.

Record ScoreResult : Type := {
  distribution : list num;
  expectedScore : num;
  entropy : num;
  anchorSetCount : count;
}.

Record SsrScorer (P : Type) : Type := {
  provider : P;
  anchorSets : AnchorCatalog;
  epsilon : R;
  temperature : R;
  anchorEmbeddingsCache : gmap string (list embedding);
}.
Arguments provider {P} _.
Arguments anchorSets {P} _.
Arguments epsilon {P} _.
Arguments temperature {P} _.
Arguments anchorEmbeddingsCache {P} _.

(** [constructor(options)] *)
Definition new_SsrScorer {P : Type} (options : SsrScorerOptions P) : SsrScorer P :=
  {| provider := o_provider options;
     anchorSets := default DEFAULT_ANCHOR_SETS (o_anchorSets options);
     epsilon := default 1e-8 (o_epsilon options);
     temperature := default 1 (o_temperature options);
     anchorEmbeddingsCache := ∅ |}.

Definition with_provider {P : Type} (p : P) (this : SsrScorer P) : SsrScorer P :=
  {| provider := p;
     anchorSets := anchorSets this;
     epsilon := epsilon this;
     temperature := temperature this;
     anchorEmbeddingsCache := anchorEmbeddingsCache this |}.

Definition with_cache {P : Type} (c : gmap string (list embedding))
    (this : SsrScorer P) : SsrScorer P :=
  {| provider := provider this;
     anchorSets := anchorSets this;
     epsilon := epsilon this;
     temperature := temperature this;
     anchorEmbeddingsCache := c |}.

(** [`${questionType}:${anchorSetIndex}`] *)
Definition cacheKey (questionType : string) (anchorSetIndex : nat) : string :=
  questionType +:+ ":" +:+ pretty anchorSetIndex.

(** [await this.provider.embed(texts)] *)
Definition provider_embed {P : Type} `{EmbeddingProvider P} (texts : list text)
  : M (SsrScorer P) (list embedding) :=
  λ this,
    match embed texts (provider this) with
    | (inl failure, p') => (inl (ProviderError failure), with_provider p' this)
    | (inr embeddings, p') => (inr embeddings, with_provider p' this)
    end.

(** [[1, 2, 3, 4, 5].map((level) => anchorSet[level])] *)
Definition anchorsOf (anchorSet : AnchorSet) : list text :=
  map (λ level : nat, anchorSet !! level) [1%nat; 2%nat; 3%nat; 4%nat; 5%nat].

Definition getAnchorEmbeddings {P : Type} `{EmbeddingProvider P}
    (questionType : string) (anchorSetIndex : nat)
  : M (SsrScorer P) (list embedding) :=
  λ this,
    match anchorEmbeddingsCache this !! cacheKey questionType anchorSetIndex with
    | Some cached => ret cached this
    | None =>
        match anchorSets this !! questionType ≫= (λ sets, sets !! anchorSetIndex) with
        | None => throw (NoAnchorSetFound questionType anchorSetIndex) this
        | Some anchorSet =>
            (do embeddings <- provider_embed (anchorsOf anchorSet);
             λ this',
               (inr embeddings,
                with_cache (<[cacheKey questionType anchorSetIndex := embeddings]>
                              (anchorEmbeddingsCache this')) this')) this
        end
    end.

(** [cosineSimilarity(answerEmbedding, anchor)] as the scorer calls it: an
    [undefined] argument makes the read of [.length] throw. *)
Definition cosineSimilarity_call (answerEmbedding anchor : embedding)
  : error + R :=
  match answerEmbedding, anchor with
  | Some vecA, Some vecB => cosineSimilarity vecA vecB
  | _, _ => inl TypeError
  end.

(** The [for (let i = 0; i < sets.length; i++)] loop of [scoreAnswer];
    [indices] are the values of [i] still to run and [distributions] the
    array built so far. *)
Fixpoint scoreLoop {P : Type} `{EmbeddingProvider P}
    (questionType : string) (answerEmbedding : embedding)
    (indices : list nat) (distributions : list (list R))
  : M (SsrScorer P) (list (list R)) :=
  match indices with
  | [] => ret distributions
  | i :: rest =>
      do anchorEmbeddings <- getAnchorEmbeddings questionType i;
      do similarities <-
        lift (map_throwing (cosineSimilarity_call answerEmbedding) anchorEmbeddings);
      λ this,
        let pmf := similarityToPmf similarities
                     (Some {| opt_epsilon := Some (epsilon this);
                              opt_temperature := Some (temperature this) |}) in
        scoreLoop questionType answerEmbedding rest (distributions ++ [pmf]) this
  end.

(** The inner [for (let i = 0; i < 5; i++)] of the averaging loop, for one
    [dist]: [avgDistribution[i] += dist[i] / distributions.length]. *)
Definition accumulate (count : nat) (avgDistribution : list num) (dist : list R)
  : list num :=
  foldl (λ (avg : list num) (i : nat),
           <[i := num_add (default NaN (avg !! i))
                          (num_div_count (num_at dist i) count)]> avg)
        avgDistribution (seq 0 5).

Definition averageDistributions (distributions : list (list R)) : list num :=
  foldl (accumulate (length distributions))
        [Num 0; Num 0; Num 0; Num 0; Num 0] distributions.

(** [arr.reduce((sum, prob, i) => f(sum, prob, i), init)] *)
Definition reduce_indexed {A B : Type} (f : B → A → nat → B) (init : B)
    (arr : list A) : B :=
  foldl (λ acc '(i, x), f acc x i) init (zip (seq 0 (length arr)) arr).

Definition expectedScoreOf (avgDistribution : list num) : num :=
  reduce_indexed (λ sum prob i, num_add sum (num_mul prob (Num (INR (i + 1)))))
                 (Num 0) avgDistribution.

Definition entropyOf (avgDistribution : list num) : num :=
  foldl (λ sum prob,
           match prob with
           | Num p => if Rlt_dec 0 p then num_sub sum (Num (p * log2 p)) else sum
           | NaN => sum
           end)
        (Num 0) avgDistribution.

(** [sets.length] for the value [sets] of [this.anchorSets[questionType]]. *)
Definition length_of (sets : property (list AnchorSet)) : count :=
  match sets with
  | Own sets => Count (length sets)
  | Inherited (Method _ arity) => Count arity
  | Inherited PrototypeObject => Undefined
  end.

(** The values of [i] for which [i < length] holds, from [0] on; none when
    [length] is [undefined]. *)
Definition indices_below (length : count) : list nat :=
  match length with
  | Count n => seq 0 n
  | Undefined => []
  end.

(** The guard [!sets || sets.length === 0] lets pass every value that is
    not [undefined] and whose [length] is not [0]: an own array that is
    not empty, but also an inherited method that takes arguments and
    [Object.prototype]. *)
Definition scoreAnswer {P : Type} `{EmbeddingProvider P}
    (questionType freeTextAnswer : string) : M (SsrScorer P) ScoreResult :=
  λ this,
    match get_property (anchorSets this) questionType with
    | None => throw (UnknownQuestionType questionType) this
    | Some sets =>
        match length_of sets with
        | Count 0 => throw (UnknownQuestionType questionType) this
        | sets_length =>
            (do answer <- provider_embed [Some freeTextAnswer];
             let answerEmbedding := mjoin (head answer) in
             do distributions <-
               scoreLoop questionType answerEmbedding (indices_below sets_length) [];
             let avgDistribution := averageDistributions distributions in
             ret {| distribution := avgDistribution;
                    expectedScore := expectedScoreOf avgDistribution;
                    entropy := entropyOf avgDistribution;
                    anchorSetCount := sets_length |}) this
        end
    end.

(** [clearCache()] *)
Definition clearCache {P : Type} : M (SsrScorer P) unit :=
  λ this, (inr tt, with_cache ∅ this).

(** ** BatchScorer ([score-answers.ts], lines 6-60) *)

(** [ScoreResult & { answer: string }] *)
Record ScoredAnswer : Type := {
  result : ScoreResult;
  answer : string;
}.

Record Summary : Type := {
  averageExpectedScore : num;
  averageEntropy : num;
  questionCount : nat;
}.

Record SsrScoresResult : Type := {
  scores : gmap string ScoredAnswer;
  summary : Summary;
}.

(** The local variables the [for ... of entries] loop updates. *)
Record BatchLocals : Type := {
  l_scores : gmap string ScoredAnswer;
  totalExpectedScore : num;
  totalEntropy : num;
}.

(** [questionTypeMapping?.[questionId] ?? questionId].  An inherited
    property is an object, so [??] keeps it; [scoreAnswer] uses its argument
    as a property key and in template strings only, that is, through
    [String(questionType)]. *)
Definition resolveQuestionType (questionTypeMapping : option (gmap string string))
    (questionId : string) : string :=
  match questionTypeMapping with
  | None => questionId
  | Some mapping =>
      match get_property mapping questionId with
      | None => questionId
      | Some (Own questionType) => questionType
      | Some (Inherited v) => inherited_to_string v
      end
  end.

(** The loop over [Object.entries(freeTextAnswers)].  The [catch] branch
    only writes to the console, so it leaves the locals as they are. *)
Fixpoint batchLoop {P : Type} `{EmbeddingProvider P}
    (questionTypeMapping : option (gmap string string))
    (entries : list (string * string)) (locals : BatchLocals)
  : M (SsrScorer P) BatchLocals :=
  match entries with
  | [] => ret locals
  | (questionId, answer) :: rest =>
      let questionType := resolveQuestionType questionTypeMapping questionId in
      do locals' <-
        try_catch
          (do result <- scoreAnswer questionType answer;
           ret {| l_scores := assign_property questionId
                                {| result := result; answer := answer |}
                                (l_scores locals);
                  totalExpectedScore :=
                    num_add (totalExpectedScore locals) (expectedScore result);
                  totalEntropy := num_add (totalEntropy locals) (entropy result) |})
          (λ error, ret locals);
      batchLoop questionTypeMapping rest locals'
  end.

(** [scoredCount > 0 ? total / scoredCount : 0] *)
Definition averageOver (total : num) (scoredCount : nat) : num :=
  if decide (0 < scoredCount)%nat then num_div_count total scoredCount else Num 0.

(** [freeTextAnswers] is given by its entries, in the order of
    [Object.entries]; the keys of an object are pairwise distinct.  The
    second component of the outcome is the scorer the call created, which
    holds the provider it was handed. *)
Definition scoreAllAnswers {P : Type} `{EmbeddingProvider P}
    (freeTextAnswers : list (string * string)) (provider : P)
    (questionTypeMapping : option (gmap string string))
  : (error + SsrScoresResult) * SsrScorer P :=
  let scorer := new_SsrScorer {| o_provider := provider;
                                 o_anchorSets := None;
                                 o_epsilon := None;
                                 o_temperature := None |} in
  let entries := freeTextAnswers in
  (do locals <-
     batchLoop questionTypeMapping entries
       {| l_scores := ∅; totalExpectedScore := Num 0; totalEntropy := Num 0 |};
   let scoredCount := size (l_scores locals) in
   ret {| scores := l_scores locals;
          summary :=
            {| averageExpectedScore := averageOver (totalExpectedScore locals) scoredCount;
               averageEntropy := averageOver (totalEntropy locals) scoredCount;
               questionCount := scoredCount |} |}) scorer.

(** ** VoyageProvider ([voyage-provider.ts]) *)

(** [fetchEmbeddings] posts the texts to the Voyage API and returns the
    embeddings of the response sorted by index.  The network is an abstract
    state [B] on which a request is a transition. *)
Class EmbeddingBackend (B : Type) : Type := {
  fetchEmbeddings : list text → B → (ProviderFailure + list (list R)) * B
}.

Record VoyageProvider (B : Type) : Type := {
  cache : gmap text embedding;
  network : B;
}.
Arguments cache {B} _.
Arguments network {B} _.

(** [this.cache.get(t)] followed by the test [if (cached)]: a stored
    [undefined] counts as a miss. *)
Definition cache_get (c : gmap text embedding) (t : text) : embedding :=
  mjoin (c !! t).

(** First loop of [embed]; the state is
    [(results, uncachedTexts, uncachedIndices)]. *)
Definition scanStep (c : gmap text embedding) (texts : list text)
    (st : list embedding * list text * list nat) (i : nat)
  : list embedding * list text * list nat :=
  let '(results, uncachedTexts, uncachedIndices) := st in
  match cache_get c (mjoin (texts !! i)) with
  | Some cached => (<[i := Some cached]> results, uncachedTexts, uncachedIndices)
  | None => (results, uncachedTexts ++ [mjoin (texts !! i)], uncachedIndices ++ [i])
  end.

(** Second loop of [embed]; the state is [(this.cache, results)].  The
    index written in [results] comes from the first loop, so it is always
    within the array. *)
Definition storeStep (uncachedTexts : list text) (uncachedIndices : list nat)
    (embeddings : list (list R))
    (st : gmap text embedding * list embedding) (i : nat)
  : gmap text embedding * list embedding :=
  let '(c, results) := st in
  let text := mjoin (uncachedTexts !! i) in
  let embedding := embeddings !! i in
  (<[text := embedding]> c, <[nth i uncachedIndices 0%nat := embedding]> results).

Definition VoyageProvider_embed {B : Type} `{EmbeddingBackend B}
    (texts : list text) (this : VoyageProvider B)
  : (ProviderFailure + list embedding) * VoyageProvider B :=
  let '(results, uncachedTexts, uncachedIndices) :=
    foldl (scanStep (cache this) texts)
          (replicate (length texts) None, [], []) (seq 0 (length texts)) in
  if decide (0 < length uncachedTexts)%nat then
    match fetchEmbeddings uncachedTexts (network this) with
    | (inl failure, b') => (inl failure, {| cache := cache this; network := b' |})
    | (inr embeddings, b') =>
        let '(c', results') :=
          foldl (storeStep uncachedTexts uncachedIndices embeddings)
                (cache this, results) (seq 0 (length uncachedTexts)) in
        (inr results', {| cache := c'; network := b' |})
    end
  else (inr results, this).

#[export] Instance VoyageProvider_provider {B : Type} `{EmbeddingBackend B}
  : EmbeddingProvider (VoyageProvider B) :=
  {| embed := VoyageProvider_embed |}.

(** ** VoyageProvider: constructor and [fetchEmbeddings]
    ([voyage-provider.ts], lines 22-33 and 64-89) *)

Record VoyageOptions : Type := {
  opt_apiKey : option string;
  opt_model : option string;
}.

(** The fields the constructor sets besides the cache. *)
Record VoyageSettings : Type := {
  apiKey : string;
  model : string;
  baseUrl : string;
}.

(** [new VoyageProvider(options)]; [VOYAGE_API_KEY] is the value of
    [process.env.VOYAGE_API_KEY] and [net] the state of the network.  The
    test [!apiKey] rejects [undefined] and the empty string; [??] replaces
    only [undefined].  The settings travel with the network, which is what
    [fetchEmbeddings] reads them for. *)
Definition VoyageProvider_new {T : Type} (options : option VoyageOptions)
    (VOYAGE_API_KEY : option string) (net : T)
  : string + VoyageProvider (VoyageSettings * T) :=
  let apiKey :=
    match options ≫= opt_apiKey with
    | Some key => Some key
    | None => VOYAGE_API_KEY
    end in
  match apiKey with
  | None | Some EmptyString =>
      inl "Voyage API key required. Set VOYAGE_API_KEY environment variable or pass apiKey option."%string
  | Some key =>
      inr {| cache := ∅;
             network := ({| apiKey := key;
                            model := default "voyage-3-lite"%string (options ≫= opt_model);
                            baseUrl := "https://api.voyageai.com/v1" |}, net) |}
  end.

(** One element of [data] in the response of the API. *)
Record EmbeddingDatum : Type := {
  datum_embedding : list R;
  datum_index : R;
}.

(** What [fetchEmbeddings] reads of the response: [response.ok],
    [response.status], [await response.text()] and
    [(await response.json()).data].  The body of an [ok] reply is taken to
    be JSON of the declared shape [VoyageEmbeddingResponse]: a reply whose
    body does not parse, or parses to an object without [data], makes the
    call fail in the code and has no counterpart here, so nothing is stated
    about such replies. *)
Record HttpResponse : Type := {
  resp_ok : bool;
  resp_status : nat;
  resp_text : string;
  resp_data : list EmbeddingDatum;
}.

(** The request [fetchEmbeddings] sends. *)
Record HttpRequest : Type := {
  req_url : string;
  req_authorization : string;
  req_model : string;
  req_input : list text;
  req_input_type : string;
}.

(** [fetch]: the promise rejects with a failure or resolves to a response;
    the network is an abstract state. *)
Class HttpTransport (T : Type) : Type := {
  http_post : HttpRequest → T → (ProviderFailure + HttpResponse) * T
}.

(** [xs.sort((a, b) => a.index - b.index)]: the sort of an array is stable,
    so it is the insertion sort that puts an element before the first
    element whose index is not smaller. *)
Fixpoint insert_by_index (x : EmbeddingDatum) (sorted : list EmbeddingDatum)
  : list EmbeddingDatum :=
  match sorted with
  | [] => [x]
  | y :: rest =>
      if Rle_dec (datum_index x) (datum_index y) then x :: y :: rest
      else y :: insert_by_index x rest
  end.

Definition sort_by_index (data : list EmbeddingDatum) : list EmbeddingDatum :=
  foldr insert_by_index [] data.

Definition fetchEmbeddings_http {T : Type} `{HttpTransport T}
    (settings : VoyageSettings) (texts : list text) (net : T)
  : (ProviderFailure + list (list R)) * T :=
  match http_post {| req_url := baseUrl settings +:+ "/embeddings";
                     req_authorization := "Bearer " +:+ apiKey settings;
                     req_model := model settings;
                     req_input := texts;
                     req_input_type := "document" |} net with
  | (inl failure, net') => (inl failure, net')
  | (inr response, net') =>
      if resp_ok response then
        (inr (map datum_embedding (sort_by_index (resp_data response))), net')
      else
        (inl ("Voyage API error (" +:+ pretty (resp_status response) +:+ "): "
              +:+ resp_text response), net')
  end.

(** The backend of a provider built by the constructor: its settings and
    the network. *)
#[export] Instance Http_backend {T : Type} `{HttpTransport T}
  : EmbeddingBackend (VoyageSettings * T) :=
  {| fetchEmbeddings := λ texts '(settings, net),
       let '(outcome, net') := fetchEmbeddings_http settings texts net in
       (outcome, (settings, net')) |}.

(** A transport for the examples: it answers every request with two
    embeddings listed in reverse order of their index. *)
Inductive ReversingTransport : Type := Reversing.

#[export] Instance ReversingTransport_transport : HttpTransport ReversingTransport :=
  {| http_post := λ request net,
       (inr {| resp_ok := true; resp_status := 200; resp_text := "";
               resp_data := [ {| datum_embedding := [0; 1]; datum_index := 1 |};
                              {| datum_embedding := [1; 0]; datum_index := 0 |} ] |},
        net) |}.

(** A transport for the examples: the API refuses every request. *)
Inductive RefusingTransport : Type := Refusing.

#[export] Instance RefusingTransport_transport : HttpTransport RefusingTransport :=
  {| http_post := λ _ net,
       (inr {| resp_ok := false; resp_status := 401; resp_text := "Unauthorized";
               resp_data := [] |}, net) |}.

(** ** The distribution bar of the report ([cli.ts], lines 520-536) *)









(** ** A call-recording provider

    The probe used to observe which embedding requests a scorer issues: it
    forwards every call to the provider it wraps and appends the argument
    to [calls]. *)
Record Recording (P : Type) : Type := {
  inner : P;
  calls : list (list text);
}.
Arguments inner {P} _.
Arguments calls {P} _.

#[export] Instance Recording_provider {P : Type} `{EmbeddingProvider P}
  : EmbeddingProvider (Recording P) :=
  {| embed := λ texts this,
       let '(outcome, p') := embed texts (inner this) in
       (outcome, {| inner := p'; calls := calls this ++ [texts] |}) |}.

(** ** Reference notions used in the statements

    These follow the wording of the specification (sums, dot product,
    Euclidean norm, mean, expectation, Shannon entropy); the theorems below
    relate the loops of the code to them. *)

(** The sum of a sequence of reals. *)
Definition sumR (xs : list R) : R := foldr Rplus 0 xs.

(** [dot(a, b)] *)
Fixpoint dot (a b : list R) : R :=
  match a, b with
  | x :: a', y :: b' => x * y + dot a' b'
  | _, _ => 0
  end.

(** [||a||] *)
Definition norm (a : list R) : R := sqrt (dot a a).

(** The mean, at position [i], of the distributions [ds] with uniform
    weight [1 / N], [N = length ds]. *)
Definition meanAt (ds : list (list R)) (i : nat) : R :=
  sumR (map (λ d, nth i d 0) ds) / INR (length ds).

(** [Σ level × probability[level]], the first entry being level [lvl]. *)
Fixpoint expectationFrom (lvl : nat) (ps : list R) : R :=
  match ps with
  | [] => 0
  | p :: rest => INR lvl * p + expectationFrom (S lvl) rest
  end.

Definition expectation (ps : list R) : R := expectationFrom 1 ps.

(** [p × log2(p)] with the convention [0 × log2(0) = 0]. *)
Definition plog2p (p : R) : R :=
  if Req_dec_T p 0 then 0 else p * log2 p.

(** [-Σ p × log2(p)] *)
Definition shannon (ps : list R) : R := - sumR (map plog2p ps).

(** [options?.epsilon ?? 1e-8] and [options?.temperature ?? 1.0], the values
    [similarityToPmf] works with. *)
Definition resolved_epsilon (options : option PmfOptions) : R :=
  default 1e-8 (options ≫= opt_epsilon).

Definition resolved_temperature (options : option PmfOptions) : R :=
  default 1 (options ≫= opt_temperature).

(** The exponentiated, shifted similarity of the code: [exp(s / T - maxSim)]. *)
Definition expTerm (temperature maxSim s : R) : R := exp (s / temperature - maxSim).

Definition maxScaled (temperature : R) (similarities : list R) : R :=
  Math_max (map (λ s, s / temperature) similarities).

(** The denominator [sum] of the code. *)
Definition pmfDenominator (epsilon temperature : R) (similarities : list R) : R :=
  sumR (map (expTerm temperature (maxScaled temperature similarities)) similarities)
  + epsilon * INR (length similarities).

(** The outcome of a method call is the error thrown at line 195 of
    [scorer.ts]. *)
Definition raises_UnknownQuestionType {A S : Type} (outcome : (error + A) * S) : Prop :=
  ∃ questionType : string, outcome.1 = inl (UnknownQuestionType questionType).

(** The contract of §4.4 for the answer of [embed(texts)]: as many vectors as
    texts, none of them missing, all of dimension [d]. *)
Definition well_formed (d : nat) (texts : list text) (vs : list embedding) : Prop :=
  length vs = length texts
  ∧ Forall (λ v : embedding, ∃ vec : list R, v = Some vec ∧ length vec = d) vs.

(** Every entry of the scorer's cache came from such an answer to five
    anchors. *)
Definition cache_ok (d : nat) (c : gmap string (list embedding)) : Prop :=
  ∀ (key : string) (vs : list embedding),
    c !! key = Some vs →
    length vs = 5%nat
    ∧ Forall (λ v : embedding, ∃ vec : list R, v = Some vec ∧ length vec = d) vs.

(** A provider that answers every request: the stub behind the examples. *)
Inductive StubProvider : Type := Stub.

#[export] Instance StubProvider_provider : EmbeddingProvider StubProvider :=
  {| embed := λ texts this, (inr (map (λ _, Some [1; 0]) texts), this) |}.

(** A provider whose backend is down. *)
Inductive DownProvider : Type := Down.

#[export] Instance DownProvider_provider : EmbeddingProvider DownProvider :=
  {| embed := λ texts this, (inl "503"%string, this) |}.


(** The element-wise mean of the per-anchor-set distributions, levels 1..5. *)
Definition meanDistribution (ds : list (list R)) : list R :=
  map (meanAt ds) (seq 0 5).

(** A probability distribution: entries at least zero that add up to one. *)
Definition is_distribution (ps : list R) : Prop :=
  Forall (λ p, 0 <= p) ps ∧ sumR ps = 1.

(** A provider honours the contract of §4.4 on the states satisfying [Inv]:
    every request is answered, with well-formed vectors of dimension [d],
    and [Inv] holds again afterwards. *)
Definition conforming {P : Type} `{EmbeddingProvider P} (Inv : P → Prop) (d : nat)
  : Prop :=
  ∀ (texts : list text) (p : P),
    Inv p →
    ∃ (vs : list embedding) (p' : P),
      embed texts p = (inr vs, p') ∧ well_formed d texts vs ∧ Inv p'.

(** The options [scoreAnswer] passes to [similarityToPmf]. *)
Definition pmfOptionsOf {P : Type} (this : SsrScorer P) : option PmfOptions :=
  Some {| opt_epsilon := Some (epsilon this);
          opt_temperature := Some (temperature this) |}.




(** The state of a scorer that only ever talked to a conforming provider. *)
Definition scorer_ok {P : Type} (Inv : P → Prop) (d : nat) (this : SsrScorer P) : Prop :=
  Inv (provider this) ∧ cache_ok d (anchorEmbeddingsCache this).

(** The fields a method never assigns after construction. *)
Definition same_config {P : Type} (this this' : SsrScorer P) : Prop :=
  anchorSets this' = anchorSets this
  ∧ epsilon this' = epsilon this
  ∧ temperature this' = temperature this.

(** What [scoreAnswer] pushes on [distributions] for one anchor set: the
    output of [similarityToPmf] on five similarities. *)
Definition per_set_distribution (options : option PmfOptions) (dist : list R) : Prop :=
  ∃ similarities : list R,
    length similarities = 5%nat ∧ dist = similarityToPmf similarities options.


(** The anchor sets the default catalog has for ["ease"]. *)
Definition easeSets : list AnchorSet := default [] (DEFAULT_ANCHOR_SETS !! "ease").

(** A scorer built on the stub with every option left to its default. *)
Definition stubScorer : SsrScorer StubProvider :=
  new_SsrScorer {| o_provider := Stub; o_anchorSets := None;
                   o_epsilon := None; o_temperature := None |}.


(** A string without the separator of the cache key. *)
Fixpoint colon_free (s : string) : Prop :=
  match s with
  | EmptyString => True
  | String c rest => c ≠ ":"%char ∧ colon_free rest
  end.

(** [texts[i]], [undefined] out of range. *)
Definition text_at (texts : list text) (i : nat) : text := mjoin (texts !! i).


(** [texts[i]] is not served from the cache [c]. *)
Definition is_miss (c : gmap text embedding) (texts : list text) (i : nat) : bool :=
  match cache_get c (text_at texts i) with
  | Some _ => false
  | None => true
  end.


(** The requests for anchor embeddings that a pass over [indices] has to
    issue when it starts with the cache [c]: one batch, the five anchors of
    the set, for each index whose key is not in [c]. *)
Definition uncachedAnchorBatches (questionType : string) (sets : list AnchorSet)
    (c : gmap string (list embedding)) (indices : list nat) : list (list text) :=
  flat_map (λ i, match c !! cacheKey questionType i, sets !! i with
                 | None, Some anchorSet => [anchorsOf anchorSet]
                 | _, _ => []
                 end) indices.

(** The scorer of the examples, talking to the stub through the recorder. *)
Definition recordingScorer : SsrScorer (Recording StubProvider) :=
  new_SsrScorer {| o_provider := {| inner := Stub; calls := [] |};
                   o_anchorSets := None; o_epsilon := None; o_temperature := None |}.


(** The questions of a batch for which [scoreAnswer] succeeded, each with
    its result and its answer text, in the order of the entries; the scorer
    is threaded through the calls as the batch does. *)
Fixpoint scoredAnswers {P : Type} `{EmbeddingProvider P}
    (questionTypeMapping : option (gmap string string))
    (entries : list (string * string)) (this : SsrScorer P)
  : list (string * ScoredAnswer) :=
  match entries with
  | [] => []
  | (questionId, answer) :: rest =>
      match scoreAnswer (resolveQuestionType questionTypeMapping questionId) answer this with
      | (inr result, this') =>
          (questionId, {| result := result; answer := answer |})
            :: scoredAnswers questionTypeMapping rest this'
      | (inl _, this') => scoredAnswers questionTypeMapping rest this'
      end
  end.

(** The effect of one successfully scored question on the locals of the
    batch loop. *)
Definition absorb (locals : BatchLocals) (scored : string * ScoredAnswer) : BatchLocals :=
  {| l_scores := assign_property scored.1 scored.2 (l_scores locals);
     totalExpectedScore :=
       num_add (totalExpectedScore locals) (expectedScore (result scored.2));
     totalEntropy := num_add (totalEntropy locals) (entropy (result scored.2)) |}.

(** The arithmetic mean of a sequence of numbers, [0] for the empty one. *)
Definition mean_num (xs : list num) : num :=
  match xs with
  | [] => Num 0
  | _ => num_div_count (foldl num_add (Num 0) xs) (length xs)
  end.

(** The scorer [scoreAllAnswers] constructs. *)
Definition batchScorer {P : Type} (provider : P) : SsrScorer P :=
  new_SsrScorer {| o_provider := provider; o_anchorSets := None;
                   o_epsilon := None; o_temperature := None |}.


(** A provider with deterministic embeddings: whatever its state, it
    answers the request [texts] with [f texts]. *)
Definition deterministic {P : Type} `{EmbeddingProvider P}
    (f : list text → list embedding) : Prop :=
  ∀ (texts : list text) (p : P), ∃ p' : P, embed texts p = (inr (f texts), p').

(** Every entry of the scorer's cache is the answer of the provider [f] for
    the anchors of the anchor set the key stands for. *)
Definition cache_consistent {P : Type} (f : list text → list embedding)
    (this : SsrScorer P) : Prop :=
  ∀ (questionType : string) (i : nat) (vs : list embedding),
    anchorEmbeddingsCache this !! cacheKey questionType i = Some vs →
    ∃ (sets : list AnchorSet) (anchorSet : AnchorSet),
      anchorSets this !! questionType = Some sets
      ∧ sets !! i = Some anchorSet
      ∧ vs = f (anchorsOf anchorSet).

(** The answer of the stub provider. *)
Definition stubAnswer (texts : list text) : list embedding :=
  map (λ _, Some [1; 0]) texts.


(** The question id resolves to one of the two question types of the
    default catalog. *)
Definition catalogued (questionTypeMapping : option (gmap string string))
    (questionId : string) : Prop :=
  resolveQuestionType questionTypeMapping questionId = "ease"%string
  ∨ resolveQuestionType questionTypeMapping questionId = "trust"%string.

(** A provider that rejects every request. *)
Definition always_failing {P : Type} `{EmbeddingProvider P} : Prop :=
  ∀ (texts : list text) (p : P), ∃ failure p', embed texts p = (inl failure, p').

(** The result of a batch in which nothing was scored. *)
Definition emptyScores : SsrScoresResult :=
  {| scores := ∅;
     summary := {| averageExpectedScore := Num 0;
                   averageEntropy := Num 0;
                   questionCount := 0 |} |}.


(** [VoyageProvider.clearCache()] *)
Definition VoyageProvider_clearCache {B : Type} (this : VoyageProvider B)
  : VoyageProvider B :=
  {| cache := ∅; network := network this |}.

(** [VoyageProvider.getCacheSize()] *)
Definition VoyageProvider_getCacheSize {B : Type} (this : VoyageProvider B) : nat :=
  size (cache this).

(** The texts of a request that the cache [c] does not serve, in the order
    of the request. *)
Definition missingTexts (c : gmap text embedding) (texts : list text) : list text :=
  List.filter (λ t, match cache_get c t with Some _ => false | None => true end) texts.

(** A backend that answers every text [t] with the vector [g t]. *)
Definition backend_answers {B : Type} `{EmbeddingBackend B} (g : text → list R) : Prop :=
  ∀ (requested : list text) (b : B),
    ∃ b' : B, fetchEmbeddings requested b = (inr (map g requested), b').

(** Every vector in the cache [c] is the backend's vector for its text. *)
Definition voyage_cache_consistent (g : text → list R) (c : gmap text embedding) : Prop :=
  ∀ (t : text) (v : list R), cache_get c t = Some v → v = g t.

(** A backend for the examples: the vector of a text is [[1; 0]]. *)
Inductive EchoBackend : Type := Echo.

#[export] Instance EchoBackend_backend : EmbeddingBackend EchoBackend :=
  {| fetchEmbeddings := λ requested b, (inr (map (λ _, [1; 0]) requested), b) |}.

(** A backend that is unreachable. *)
Inductive OfflineBackend : Type := Offline.

#[export] Instance OfflineBackend_backend : EmbeddingBackend OfflineBackend :=
  {| fetchEmbeddings := λ requested b, (inl "ECONNREFUSED"%string, b) |}.


(** The cache keys of the default catalog: six anchor sets for each of its
    two question types. *)
Definition defaultCacheKeys : list string :=
  map (cacheKey "ease") (seq 0 6) ++ map (cacheKey "trust") (seq 0 6).

(** The guard [!sets || sets.length === 0] of [scoreAnswer] read on the
    default catalog: [true] when the call goes on to embed the answer. *)
Definition pastGuard (questionType : string) : bool :=
  match get_property DEFAULT_ANCHOR_SETS questionType with
  | None => false
  | Some sets => match length_of sets with Count 0 => false | _ => true end
  end.

(** The entries of a batch whose answer is embedded. *)
Definition embeddedEntries (questionTypeMapping : option (gmap string string))
    (entries : list (string * string)) : list (string * string) :=
  List.filter (λ entry, pastGuard (resolveQuestionType questionTypeMapping entry.1))
              entries.


(** What a batch keeps of one entry when every question is scored on its
    own, on a scorer fresh from the constructor. *)
Definition scoredAlone {P : Type} `{EmbeddingProvider P}
    (questionTypeMapping : option (gmap string string)) (provider : P)
    (entry : string * string) : list (string * ScoredAnswer) :=
  match (scoreAnswer (resolveQuestionType questionTypeMapping entry.1) entry.2
           (batchScorer provider)).1 with
  | inr r => [(entry.1, {| result := r; answer := entry.2 |})]
  | inl _ => []
  end.


(** The part of [scoreAnswer] after the guard, for a value [sets_length] of
    [sets.length]. *)
Definition scoreAnswer_body {P : Type} `{EmbeddingProvider P}
    (questionType freeTextAnswer : string) (sets_length : count)
  : M (SsrScorer P) ScoreResult :=
  do answer <- provider_embed [Some freeTextAnswer];
  let answerEmbedding := mjoin (head answer) in
  do distributions <-
    scoreLoop questionType answerEmbedding (indices_below sets_length) [];
  let avgDistribution := averageDistributions distributions in
  ret {| distribution := avgDistribution;
         expectedScore := expectedScoreOf avgDistribution;
         entropy := entropyOf avgDistribution;
         anchorSetCount := sets_length |}.


(** Every key of the cache of anchor embeddings is the key of an own entry
    of the catalog. *)
Definition cache_of_catalog {P : Type} (this : SsrScorer P) : Prop :=
  ∀ (questionType : string) (i : nat),
    is_Some (anchorEmbeddingsCache this !! cacheKey questionType i) →
    is_Some (anchorSets this !! questionType).

(** ** VectorMath: cosine similarity *)

Section CosineSimilarity.

Lemma cosineStep_shift (x y : R) (vecA vecB : list R) (acc : R * R * R) (i : nat) :
  cosineStep (x :: vecA) (y :: vecB) acc (S i) = cosineStep vecA vecB acc i.
Proof. destruct acc as [[d na] nb]. reflexivity. Qed.

Lemma cosine_fold_shift (x y : R) (vecA vecB : list R) (n k : nat) (acc : R * R * R) :
  foldl (cosineStep (x :: vecA) (y :: vecB)) acc (seq (S k) n)
  = foldl (cosineStep vecA vecB) acc (seq k n).
Proof.
  revert k acc. induction n as [|n IH]; intros k acc; simpl; [reflexivity|].
  rewrite cosineStep_shift. apply IH.
Qed.

(** The loop computes the three sums of products. *)
Lemma cosine_fold (vecA : list R) :
  ∀ (vecB : list R) (d na nb : R),
    length vecA = length vecB →
    foldl (cosineStep vecA vecB) (d, na, nb) (seq 0 (length vecA))
    = (d + dot vecA vecB, na + dot vecA vecA, nb + dot vecB vecB).
Proof.
  induction vecA as [|x vecA IH]; intros [|y vecB] d na nb Hlen;
    simpl in Hlen; try discriminate.
  - simpl. f_equal; [f_equal|]; lra.
  - cbn [length seq foldl]. rewrite cosine_fold_shift.
    unfold cosineStep at 2. cbn [nth].
    rewrite IH by congruence. cbn [dot]. f_equal; [f_equal|]; lra.
Qed.

Lemma cosineSimilarity_eq (vecA vecB : list R) :
  length vecA = length vecB →
  cosineSimilarity vecA vecB
  = if Req_dec_T (norm vecA * norm vecB) 0 then inr 0
    else inr (dot vecA vecB / (norm vecA * norm vecB)).
Proof.
  intros Hlen. unfold cosineSimilarity.
  destruct (decide (length vecA ≠ length vecB)) as [Hne|_]; [contradiction|].
  rewrite cosine_fold by exact Hlen.
  rewrite !Rplus_0_l. reflexivity.
Qed.

Lemma cosineSimilarity_throws (vecA vecB : list R) (e : error) :
  cosineSimilarity vecA vecB = inl e → e = DimensionMismatch ∧ length vecA ≠ length vecB.
Proof.
  destruct (decide (length vecA = length vecB)) as [Heq | Hne].
  - rewrite cosineSimilarity_eq by exact Heq. destruct (Req_dec_T _ _); discriminate.
  - unfold cosineSimilarity.
    destruct (decide (length vecA ≠ length vecB)) as [_ | Hn]; [|contradiction].
    intros [= <-]. split; [reflexivity | exact Hne].
Qed.

End CosineSimilarity.

(** ** VectorMath: the softmax with an epsilon floor *)

Section Sums.

Lemma foldl_Rplus_shift (xs : list R) (a : R) : foldl Rplus a xs = a + sumR xs.
Proof.
  revert a. induction xs as [|x xs IH]; intros a; simpl.
  - lra.
  - rewrite IH. unfold sumR. simpl. lra.
Qed.

Lemma reduce_sum_sumR (xs : list R) : reduce_sum xs = sumR xs.
Proof. unfold reduce_sum. rewrite foldl_Rplus_shift. lra. Qed.

Lemma sumR_app (xs ys : list R) : sumR (xs ++ ys) = sumR xs + sumR ys.
Proof. induction xs as [|x xs IH]; simpl; [lra|]. unfold sumR in *. simpl. lra. Qed.

Lemma sumR_cons (x : R) (xs : list R) : sumR (x :: xs) = x + sumR xs.
Proof. reflexivity. Qed.

Lemma sumR_map_div {A : Type} (f : A → R) (c : R) (xs : list A) :
  sumR (map (λ x, f x / c) xs) = sumR (map f xs) / c.
Proof.
  induction xs as [|x xs IH]; cbn [map].
  - unfold sumR. simpl. lra.
  - rewrite !sumR_cons, IH. lra.
Qed.

Lemma sumR_map_plus_const {A : Type} (f : A → R) (c : R) (xs : list A) :
  sumR (map (λ x, f x + c) xs) = sumR (map f xs) + c * INR (length xs).
Proof.
  induction xs as [|x xs IH].
  - simpl. unfold sumR. simpl. lra.
  - cbn [map length]. rewrite !sumR_cons, IH, S_INR. lra.
Qed.

Lemma sumR_nonneg (xs : list R) : Forall (λ x, 0 <= x) xs → 0 <= sumR xs.
Proof.
  induction 1 as [|x xs Hx _ IH]; [unfold sumR; simpl; lra|].
  rewrite sumR_cons. lra.
Qed.

End Sums.

Section MathMax.

Lemma foldl_Rmax_ge_init (xs : list R) (a : R) : a <= foldl Rmax a xs.
Proof.
  revert a. induction xs as [|x xs IH]; intros a; simpl; [lra|].
  eapply Rle_trans; [apply Rmax_l | apply IH].
Qed.

Lemma foldl_Rmax_attained (xs : list R) (a : R) :
  foldl Rmax a xs = a ∨ In (foldl Rmax a xs) xs.
Proof.
  revert a. induction xs as [|y xs IH]; intros a; simpl; [left; reflexivity|].
  destruct (IH (Rmax a y)) as [Heq | Hin]; [|right; right; exact Hin].
  rewrite Heq. unfold Rmax. destruct (Rle_dec a y); [right; left | left]; reflexivity.
Qed.

(** ... that is one of the elements. *)
Lemma Math_max_attained (xs : list R) : xs ≠ [] → In (Math_max xs) xs.
Proof.
  destruct xs as [|y xs]; [congruence|]. intros _. simpl.
  destruct (foldl_Rmax_attained xs y) as [-> | Hin]; [left; reflexivity | right; exact Hin].
Qed.

End MathMax.

Section Softmax.

Lemma expTerm_pos (T m s : R) : 0 < expTerm T m s.
Proof. apply exp_pos. Qed.

Lemma sumR_expTerm_ge_1 (T : R) (similarities : list R) :
  similarities ≠ [] →
  1 <= sumR (map (expTerm T (maxScaled T similarities)) similarities).
Proof.
  intros Hne.
  assert (Hin : In (maxScaled T similarities) (map (λ s, s / T) similarities)).
  { apply Math_max_attained. destruct similarities; [congruence | discriminate]. }
  apply in_map_iff in Hin as (s & Hs & Hin).
  apply in_split in Hin as (l1 & l2 & Heq).
  set (m := maxScaled T similarities) in *. clearbody m.
  rewrite Heq, map_app, sumR_app. cbn [map]. rewrite sumR_cons.
  assert (expTerm T m s = 1) as -> by (unfold expTerm; rewrite Hs, Rminus_diag; apply exp_0).
  assert (0 <= sumR (map (expTerm T m) l1)).
  { apply sumR_nonneg, Forall_forall. intros x Hx.
    apply list_elem_of_In, in_map_iff in Hx as (? & <- & _). left. apply expTerm_pos. }
  assert (0 <= sumR (map (expTerm T m) l2)).
  { apply sumR_nonneg, Forall_forall. intros x Hx.
    apply list_elem_of_In, in_map_iff in Hx as (? & <- & _). left. apply expTerm_pos. }
  lra.
Qed.

Lemma pmfDenominator_pos (epsilon T : R) (similarities : list R) :
  similarities ≠ [] → 0 <= epsilon → 0 < pmfDenominator epsilon T similarities.
Proof.
  intros Hne Heps. unfold pmfDenominator.
  pose proof (sumR_expTerm_ge_1 T similarities Hne).
  pose proof (pos_INR (length similarities)).
  nra.
Qed.

(** Closed form of the output: the final renormalisation divides by a sum
    that is exactly [1]. *)
Lemma similarityToPmf_closed (similarities : list R) (options : option PmfOptions) :
  similarities ≠ [] →
  0 <= resolved_epsilon options →
  similarityToPmf similarities options
  = map (λ s, (expTerm (resolved_temperature options)
                       (maxScaled (resolved_temperature options) similarities) s
               + resolved_epsilon options)
              / pmfDenominator (resolved_epsilon options)
                               (resolved_temperature options) similarities)
        similarities.
Proof.
  intros Hne Heps. unfold similarityToPmf.
  fold (resolved_epsilon options) (resolved_temperature options).
  set (eps := resolved_epsilon options) in *.
  set (T := resolved_temperature options).
  fold (maxScaled T similarities). set (m := maxScaled T similarities).
  rewrite !reduce_sum_sumR, !map_map.
  assert (Hden : sumR (map (λ x, exp (x / T - m)) similarities)
                 + eps * INR (length similarities)
                 = pmfDenominator eps T similarities) by reflexivity.
  rewrite Hden.
  pose proof (pmfDenominator_pos eps T similarities Hne Heps) as Hpos.
  set (D := pmfDenominator eps T similarities) in *.
  assert (Hone : sumR (map (λ x, (exp (x / T - m) + eps) / D) similarities) = 1).
  { rewrite (sumR_map_div (λ x, exp (x / T - m) + eps)).
    rewrite (sumR_map_plus_const (λ x, exp (x / T - m))).
    fold (expTerm T m). change (sumR (map (λ x, expTerm T m x) similarities)
                                + eps * INR (length similarities)) with D.
    apply Rdiv_diag. lra. }
  rewrite Hone. apply map_ext. intros s. unfold expTerm. lra.
Qed.

Lemma similarityToPmf_length (similarities : list R) (options : option PmfOptions) :
  length (similarityToPmf similarities options) = length similarities.
Proof. unfold similarityToPmf. rewrite !length_map. reflexivity. Qed.

Lemma similarityToPmf_sum (similarities : list R) (options : option PmfOptions) :
  similarities ≠ [] →
  0 <= resolved_epsilon options →
  sumR (similarityToPmf similarities options) = 1.
Proof.
  intros Hne Heps. rewrite similarityToPmf_closed by assumption.
  pose proof (pmfDenominator_pos _ (resolved_temperature options) _ Hne Heps) as Hpos.
  rewrite (sumR_map_div (λ s, expTerm _ _ s + _)).
  rewrite (sumR_map_plus_const (expTerm _ _)).
  apply Rdiv_diag. fold (pmfDenominator (resolved_epsilon options)
                           (resolved_temperature options) similarities). lra.
Qed.

Lemma similarityToPmf_pos (similarities : list R) (options : option PmfOptions) :
  similarities ≠ [] →
  0 <= resolved_epsilon options →
  Forall (λ p, 0 < p) (similarityToPmf similarities options).
Proof.
  intros Hne Heps. rewrite similarityToPmf_closed by assumption.
  pose proof (pmfDenominator_pos _ (resolved_temperature options) _ Hne Heps) as Hpos.
  apply Forall_forall. intros p Hp.
  apply list_elem_of_In, in_map_iff in Hp as (s & <- & _).
  apply Rdiv_pos_pos; [|exact Hpos].
  pose proof (expTerm_pos (resolved_temperature options)
                (maxScaled (resolved_temperature options) similarities) s). lra.
Qed.

End Softmax.

(** ** Scorer: which errors [scoreAnswer] can raise *)

Section ScorerErrors.

Context {P : Type} `{EmbeddingProvider P}.

Lemma bind_inr {S A B : Type} (m : M S A) (k : A → M S B) (s s' : S) (a : A) :
  m s = (inr a, s') → bind m k s = k a s'.
Proof. intros Hm. unfold bind. rewrite Hm. reflexivity. Qed.

Lemma get_property_own {A : Type} (own : gmap string A) (key : string) (a : A) :
  own !! key = Some a → get_property own key = Some (Own a).
Proof. intros Hown. unfold get_property. rewrite Hown. reflexivity. Qed.

Lemma get_property_not_own {A : Type} (own : gmap string A) (key : string) :
  own !! key = None → get_property own key = Inherited <$> inherited_property key.
Proof. intros Hown. unfold get_property. rewrite Hown. reflexivity. Qed.

(** On a question type that is an own property of the catalog,
    [scoreAnswer] is the code read with [sets] an array. *)
Lemma scoreAnswer_own (questionType freeTextAnswer : string)
    (sets : list AnchorSet) (this : SsrScorer P) :
  anchorSets this !! questionType = Some sets →
  scoreAnswer questionType freeTextAnswer this
  = match sets with
    | [] => throw (UnknownQuestionType questionType) this
    | _ :: _ =>
        (do answer <- provider_embed [Some freeTextAnswer];
         let answerEmbedding := mjoin (head answer) in
         do distributions <-
           scoreLoop questionType answerEmbedding (seq 0 (length sets)) [];
         let avgDistribution := averageDistributions distributions in
         ret {| distribution := avgDistribution;
                expectedScore := expectedScoreOf avgDistribution;
                entropy := entropyOf avgDistribution;
                anchorSetCount := length sets |}) this
    end.
Proof.
  intros Hsets. unfold scoreAnswer. rewrite (get_property_own _ _ _ Hsets).
  destruct sets; reflexivity.
Qed.

(** On a question type that is not an own property of the catalog,
    [scoreAnswer] depends on what [Object.prototype] holds under that
    name. *)
Lemma scoreAnswer_not_own (questionType freeTextAnswer : string) (this : SsrScorer P) :
  anchorSets this !! questionType = None →
  scoreAnswer questionType freeTextAnswer this
  = match inherited_property questionType with
    | None | Some (Method _ 0) => throw (UnknownQuestionType questionType) this
    | Some (Method _ (S n)) =>
        (do answer <- provider_embed [Some freeTextAnswer];
         do distributions <-
           scoreLoop questionType (mjoin (head answer)) (seq 0 (S n)) [];
         ret {| distribution := averageDistributions distributions;
                expectedScore := expectedScoreOf (averageDistributions distributions);
                entropy := entropyOf (averageDistributions distributions);
                anchorSetCount := S n |}) this
    | Some PrototypeObject =>
        (do answer <- provider_embed [Some freeTextAnswer];
         ret {| distribution := averageDistributions [];
                expectedScore := expectedScoreOf (averageDistributions []);
                entropy := entropyOf (averageDistributions []);
                anchorSetCount := Undefined |}) this
    end.
Proof.
  intros Hsets. unfold scoreAnswer. rewrite (get_property_not_own _ _ Hsets).
  destruct (inherited_property questionType) as [[name [|n] | ]|]; reflexivity.
Qed.

(** An error raised by a sub-call propagates; it is not the unknown-type
    error when the sub-call cannot raise that one. *)
Ltac propagate_not_unknown Hsub :=
  let qt := fresh "qt" in
  let Hqt := fresh "Hqt" in
  intros [qt Hqt]; simpl in Hqt; injection Hqt as ->;
  apply Hsub; exists qt; reflexivity.

Lemma provider_embed_not_unknown (texts : list text) (this : SsrScorer P) :
  ¬ raises_UnknownQuestionType (provider_embed texts this).
Proof.
  unfold provider_embed, raises_UnknownQuestionType.
  destruct (embed texts (provider this)) as [[failure | vs] p']; intros [qt Hqt];
    discriminate.
Qed.

Lemma getAnchorEmbeddings_not_unknown (questionType : string) (i : nat)
    (this : SsrScorer P) :
  ¬ raises_UnknownQuestionType (getAnchorEmbeddings questionType i this).
Proof.
  unfold getAnchorEmbeddings, raises_UnknownQuestionType.
  destruct (anchorEmbeddingsCache this !! cacheKey questionType i);
    [intros [qt Hqt]; discriminate|].
  destruct (anchorSets this !! questionType ≫= _);
    [|intros [qt Hqt]; discriminate].
  unfold bind.
  pose proof (provider_embed_not_unknown (anchorsOf g) this) as Hp.
  destruct (provider_embed (anchorsOf g) this) as [[e | vs] this'];
    [propagate_not_unknown Hp | intros [qt Hqt]; discriminate].
Qed.

Lemma cosineSimilarity_call_error (a b : embedding) (e : error) :
  cosineSimilarity_call a b = inl e → e = DimensionMismatch ∨ e = TypeError.
Proof.
  destruct a as [vecA|], b as [vecB|]; simpl; try (intros [= <-]; right; reflexivity).
  intros He. left. apply cosineSimilarity_throws in He. tauto.
Qed.

Lemma map_throwing_error {A B : Type} (f : A → error + B) (xs : list A) (e : error) :
  map_throwing f xs = inl e → ∃ x, In x xs ∧ f x = inl e.
Proof.
  induction xs as [|x xs IH]; simpl; [discriminate|].
  destruct (f x) as [e' | y] eqn:Hfx.
  - intros [= <-]. eauto.
  - destruct (map_throwing f xs) as [e' | ys]; [|discriminate].
    intros [= <-]. destruct IH as (x' & Hin & Hx'); eauto.
Qed.

Lemma scoreLoop_not_unknown (questionType : string) (answerEmbedding : embedding)
    (indices : list nat) :
  ∀ (distributions : list (list R)) (this : SsrScorer P),
    ¬ raises_UnknownQuestionType
        (scoreLoop questionType answerEmbedding indices distributions this).
Proof.
  induction indices as [|i rest IH]; intros distributions this.
  - intros [qt Hqt]. discriminate.
  - cbn [scoreLoop]. unfold bind at 1.
    pose proof (getAnchorEmbeddings_not_unknown questionType i this) as Hg.
    destruct (getAnchorEmbeddings questionType i this) as [[e | anchorEmbeddings] this1].
    { propagate_not_unknown Hg. }
    unfold bind, lift.
    destruct (map_throwing _ anchorEmbeddings) as [e | similarities] eqn:Hmap.
    { intros [qt Hqt]. simpl in Hqt. injection Hqt as ->.
      apply map_throwing_error in Hmap as (x & _ & Hx).
      apply cosineSimilarity_call_error in Hx as [Hx | Hx]; discriminate. }
    apply IH.
Qed.

(** [scoreAnswer] either stops at the guard or runs its body for the
    length the guard saw. *)
Lemma scoreAnswer_cases (questionType freeTextAnswer : string) (this : SsrScorer P) :
  scoreAnswer questionType freeTextAnswer this
  = throw (UnknownQuestionType questionType) this
  ∨ ∃ sets_length : count,
      scoreAnswer questionType freeTextAnswer this
      = scoreAnswer_body questionType freeTextAnswer sets_length this.
Proof.
  unfold scoreAnswer.
  destruct (get_property (anchorSets this) questionType) as [sets|]; [|left; reflexivity].
  destruct (length_of sets) as [[|n]|]; [left; reflexivity | right | right];
    eexists; reflexivity.
Qed.

(** X27.  Which calls raise the unknown-question-type error: those for
    which [this.anchorSets[questionType]] is [undefined] or has length [0],
    that is, an own entry that is the empty list, or no own entry and
    either nothing inherited under that name or a method without
    parameters.  No later step of [scoreAnswer] raises that error. *)
Theorem scoreAnswer_UnknownQuestionType_cases
    (questionType freeTextAnswer : string) (this : SsrScorer P) :
  raises_UnknownQuestionType (scoreAnswer questionType freeTextAnswer this)
  ↔ anchorSets this !! questionType = Some []
    ∨ (anchorSets this !! questionType = None
       ∧ (inherited_property questionType = None
          ∨ ∃ name, inherited_property questionType = Some (Method name 0))).
Proof.
  assert (Hbody : ∀ indices,
            ¬ raises_UnknownQuestionType
                ((do answer <- provider_embed [Some freeTextAnswer];
                  do distributions <-
                    scoreLoop questionType (mjoin (head answer)) indices [];
                  ret {| distribution := averageDistributions distributions;
                         expectedScore := expectedScoreOf (averageDistributions distributions);
                         entropy := entropyOf (averageDistributions distributions);
                         anchorSetCount := length indices |}) this)).
  { intros indices. unfold bind at 1.
    pose proof (provider_embed_not_unknown [Some freeTextAnswer] this) as Hp.
    destruct (provider_embed [Some freeTextAnswer] this) as [[e | answer] this1].
    { propagate_not_unknown Hp. }
    unfold bind at 1.
    pose proof (scoreLoop_not_unknown questionType (mjoin (head answer))
                  indices [] this1) as Hl.
    destruct (scoreLoop _ _ _ _ this1) as [[e | dists] this2].
    { propagate_not_unknown Hl. }
    intros [qt Hqt]. discriminate. }
  destruct (anchorSets this !! questionType) as [[|set sets]|] eqn:Hsets.
  - rewrite (scoreAnswer_own _ _ _ _ Hsets).
    split; [intros _; left; reflexivity | intros _; eexists; reflexivity].
  - rewrite (scoreAnswer_own _ _ _ _ Hsets).
    split; [|intros [? | [? _]]; discriminate].
    intros Hraise. exfalso. revert Hraise.
    specialize (Hbody (seq 0 (length (set :: sets)))). rewrite length_seq in Hbody.
    exact Hbody.
  - rewrite (scoreAnswer_not_own _ _ _ Hsets).
    destruct (inherited_property questionType) as [[name [|n] | ]|].
    + split; [intros _; right; split; [reflexivity | right; eauto]
             | intros _; eexists; reflexivity].
    + split; [|intros [? | [_ [? | [? ?]]]]; discriminate].
      intros Hraise. exfalso. revert Hraise.
      specialize (Hbody (seq 0 (S n))). rewrite length_seq in Hbody. exact Hbody.
    + split; [|intros [? | [_ [? | [? ?]]]]; discriminate].
      intros Hraise. exfalso. revert Hraise. unfold bind at 1.
      pose proof (provider_embed_not_unknown [Some freeTextAnswer] this) as Hp.
      destruct (provider_embed [Some freeTextAnswer] this) as [[e | answer] this1].
      { propagate_not_unknown Hp. }
      intros [qt Hqt]. discriminate.
    + split; [intros _; right; split; [reflexivity | left; reflexivity]
             | intros _; eexists; reflexivity].
Qed.

End ScorerErrors.

(** ** Scorer: the aggregation of the per-anchor-set distributions *)

Section Aggregation.

Lemma accumulate_five (n : nat) (a0 a1 a2 a3 a4 d0 d1 d2 d3 d4 : R) (rest : list R) :
  accumulate n [Num a0; Num a1; Num a2; Num a3; Num a4]
             (d0 :: d1 :: d2 :: d3 :: d4 :: rest)
  = [Num (a0 + d0 / INR n); Num (a1 + d1 / INR n); Num (a2 + d2 / INR n);
     Num (a3 + d3 / INR n); Num (a4 + d4 / INR n)].
Proof. reflexivity. Qed.

(** The averaging loop adds, at each level, the sum of the shares
    [dist[i] / N]. *)
Lemma foldl_accumulate (n : nat) (ds : list (list R)) :
  Forall (λ dist, length dist = 5%nat) ds →
  ∀ a0 a1 a2 a3 a4 : R,
    foldl (accumulate n) [Num a0; Num a1; Num a2; Num a3; Num a4] ds
    = [Num (a0 + sumR (map (λ dist, nth 0 dist 0) ds) / INR n);
       Num (a1 + sumR (map (λ dist, nth 1 dist 0) ds) / INR n);
       Num (a2 + sumR (map (λ dist, nth 2 dist 0) ds) / INR n);
       Num (a3 + sumR (map (λ dist, nth 3 dist 0) ds) / INR n);
       Num (a4 + sumR (map (λ dist, nth 4 dist 0) ds) / INR n)].
Proof.
  induction 1 as [|dist ds Hlen _ IH]; intros a0 a1 a2 a3 a4.
  - cbn [foldl map]. unfold sumR; cbn [foldr].
    repeat (f_equal; try lra).
  - destruct dist as [|d0 [|d1 [|d2 [|d3 [|d4 [|]]]]]]; try discriminate.
    cbn [foldl]. rewrite accumulate_five, IH. cbn [map nth]. rewrite !sumR_cons.
    repeat (f_equal; try lra).
Qed.

Lemma averageDistributions_mean (ds : list (list R)) :
  Forall (λ dist, length dist = 5%nat) ds →
  averageDistributions ds = map Num (meanDistribution ds).
Proof.
  intros Hds. unfold averageDistributions. rewrite foldl_accumulate by exact Hds.
  unfold meanDistribution, meanAt. cbn [seq map].
  repeat (f_equal; try lra).
Qed.

Lemma expectedScoreOf_five (p0 p1 p2 p3 p4 : R) :
  expectedScoreOf [Num p0; Num p1; Num p2; Num p3; Num p4]
  = Num (expectation [p0; p1; p2; p3; p4]).
Proof.
  unfold expectedScoreOf, reduce_indexed, expectation.
  cbn [length seq zip zip_with foldl num_add num_mul expectationFrom Nat.add INR].
  f_equal. lra.
Qed.

Lemma entropyOf_fold (ps : list R) :
  Forall (λ p, 0 <= p) ps →
  ∀ acc : R,
    foldl (λ sum prob,
             match prob with
             | Num p => if Rlt_dec 0 p then num_sub sum (Num (p * log2 p)) else sum
             | NaN => sum
             end) (Num acc) (map Num ps)
    = Num (acc - sumR (map plog2p ps)).
Proof.
  induction 1 as [|p ps Hp _ IH]; intros acc; cbn [map foldl].
  - unfold sumR; cbn [foldr]. f_equal. lra.
  - rewrite sumR_cons. unfold plog2p at 1.
    destruct (Rlt_dec 0 p) as [Hpos | Hnpos], (Req_dec_T p 0) as [Hz | Hnz];
      try lra; cbn [num_sub]; rewrite IH; f_equal; ring.
Qed.

(** On probabilities the guarded loop of the code is Shannon entropy with
    the convention [0 × log2(0) = 0]. *)
Lemma entropyOf_shannon (ps : list R) :
  Forall (λ p, 0 <= p) ps → entropyOf (map Num ps) = Num (shannon ps).
Proof.
  intros Hps. unfold entropyOf, shannon. rewrite entropyOf_fold by exact Hps.
  f_equal. lra.
Qed.

End Aggregation.

(** ** Scorer: a run of [scoreAnswer] against a conforming provider *)

Section ScorerRuns.

Context {P : Type} `{EmbeddingProvider P}.
Variable Inv : P → Prop.
Variable d : nat.
Hypothesis Hconf : conforming Inv d.

Lemma same_config_refl (this : SsrScorer P) : same_config this this.
Proof. repeat split. Qed.

Lemma same_config_trans (s1 s2 s3 : SsrScorer P) :
  same_config s1 s2 → same_config s2 s3 → same_config s1 s3.
Proof. unfold same_config. intros (-> & -> & ->) (-> & -> & ->). repeat split. Qed.

Lemma provider_embed_ok (texts : list text) (this : SsrScorer P) :
  Inv (provider this) →
  ∃ (vs : list embedding) (this' : SsrScorer P),
    provider_embed texts this = (inr vs, this')
    ∧ well_formed d texts vs
    ∧ Inv (provider this')
    ∧ same_config this this'
    ∧ anchorEmbeddingsCache this' = anchorEmbeddingsCache this.
Proof.
  intros Hinv. destruct (Hconf texts (provider this) Hinv) as (vs & p' & He & Hwf & Hinv').
  exists vs, (with_provider p' this). unfold provider_embed. rewrite He.
  repeat split; assumption || apply Hwf.
Qed.

Lemma anchorsOf_length (anchorSet : AnchorSet) : length (anchorsOf anchorSet) = 5%nat.
Proof. reflexivity. Qed.

Lemma getAnchorEmbeddings_ok (questionType : string) (i : nat)
    (sets : list AnchorSet) (this : SsrScorer P) :
  scorer_ok Inv d this →
  anchorSets this !! questionType = Some sets →
  (i < length sets)%nat →
  ∃ (vs : list embedding) (this' : SsrScorer P),
    getAnchorEmbeddings questionType i this = (inr vs, this')
    ∧ length vs = 5%nat
    ∧ Forall (λ v : embedding, ∃ vec : list R, v = Some vec ∧ length vec = d) vs
    ∧ scorer_ok Inv d this'
    ∧ same_config this this'.
Proof.
  intros [Hinv Hcache] Hsets Hi. unfold getAnchorEmbeddings.
  destruct (anchorEmbeddingsCache this !! cacheKey questionType i) as [cached|] eqn:Hhit.
  - destruct (Hcache _ _ Hhit) as [Hlen Hdim].
    exists cached, this. split; [reflexivity|]. split; [exact Hlen|].
    split; [exact Hdim|]. split; [split; assumption | apply same_config_refl].
  - rewrite Hsets. cbn [mbind option_bind].
    destruct (lookup_lt_is_Some_2 sets i Hi) as [anchorSet Hset]. rewrite Hset.
    destruct (provider_embed_ok (anchorsOf anchorSet) this Hinv)
      as (vs & this1 & He & [Hlen Hdim] & Hinv1 & Hcfg & Hc1).
    rewrite (bind_inr _ _ _ _ _ He).
    eexists vs, _. split; [reflexivity|].
    rewrite anchorsOf_length in Hlen.
    split; [exact Hlen|]. split; [exact Hdim|]. split.
    + split; [exact Hinv1|]. cbn [anchorEmbeddingsCache with_cache].
      intros key vs' Hkey.
      destruct (decide (cacheKey questionType i = key)) as [<- | Hne].
      * rewrite lookup_insert_eq in Hkey. injection Hkey as <-. split; assumption.
      * rewrite lookup_insert_ne in Hkey by exact Hne.
        rewrite Hc1 in Hkey. apply (Hcache _ _ Hkey).
    + exact Hcfg.
Qed.

Lemma cosine_calls_ok (vecA : list R) (vs : list embedding) :
  length vecA = d →
  Forall (λ v : embedding, ∃ vec : list R, v = Some vec ∧ length vec = d) vs →
  ∃ similarities : list R,
    map_throwing (cosineSimilarity_call (Some vecA)) vs = inr similarities
    ∧ length similarities = length vs.
Proof.
  intros Ha. induction 1 as [|v vs (vec & -> & Hvec) _ (sims & IH & Hlen)].
  - exists []. split; reflexivity.
  - cbn [map_throwing cosineSimilarity_call].
    rewrite cosineSimilarity_eq by congruence.
    destruct (Req_dec_T _ _); rewrite IH; eexists; (split; [reflexivity|]);
      cbn [length]; congruence.
Qed.

Lemma scoreLoop_ok (questionType : string) (vecA : list R) (sets : list AnchorSet)
    (indices : list nat) :
  length vecA = d →
  Forall (λ i, (i < length sets)%nat) indices →
  ∀ (acc : list (list R)) (this : SsrScorer P),
    scorer_ok Inv d this →
    anchorSets this !! questionType = Some sets →
    ∃ (dists : list (list R)) (this' : SsrScorer P),
      scoreLoop questionType (Some vecA) indices acc this = (inr (acc ++ dists), this')
      ∧ length dists = length indices
      ∧ Forall (per_set_distribution (pmfOptionsOf this)) dists
      ∧ scorer_ok Inv d this'
      ∧ same_config this this'.
Proof.
  intros Ha. induction 1 as [|i rest Hi _ IH]; intros acc this Hok Hsets.
  - exists [], this. cbn [scoreLoop]. unfold ret. rewrite app_nil_r.
    split; [reflexivity|]. split; [reflexivity|]. split; [constructor|].
    split; [exact Hok | apply same_config_refl].
  - cbn [scoreLoop].
    destruct (getAnchorEmbeddings_ok questionType i sets this Hok Hsets Hi)
      as (vs & this1 & Hg & Hlen & Hdim & Hok1 & Hcfg1).
    rewrite (bind_inr _ _ _ _ _ Hg).
    destruct (cosine_calls_ok vecA vs Ha Hdim) as (sims & Hmap & Hslen).
    unfold bind, lift. rewrite Hmap.
    assert (Hsets1 : anchorSets this1 !! questionType = Some sets)
      by (destruct Hcfg1 as (-> & _); exact Hsets).
    destruct (IH (acc ++ [similarityToPmf sims (pmfOptionsOf this1)]) this1 Hok1 Hsets1)
      as (dists & this' & Hloop & Hdl & Hper & Hok' & Hcfg').
    assert (Hopt : pmfOptionsOf this1 = pmfOptionsOf this).
    { unfold pmfOptionsOf. destruct Hcfg1 as (_ & -> & ->). reflexivity. }
    exists (similarityToPmf sims (pmfOptionsOf this) :: dists), this'.
    split.
    { change (scoreLoop questionType (Some vecA) rest
                (acc ++ [similarityToPmf sims (pmfOptionsOf this1)]) this1
              = (inr (acc ++ similarityToPmf sims (pmfOptionsOf this) :: dists), this')).
      rewrite Hloop, <- app_assoc, Hopt. reflexivity. }
    split; [cbn [length]; congruence|].
    split.
    { constructor; [exists sims; split; [congruence | reflexivity]|].
      rewrite <- Hopt. exact Hper. }
    split; [exact Hok' | eapply same_config_trans; eassumption].
Qed.

Lemma per_set_distribution_pmf (options : option PmfOptions) (dist : list R) :
  0 <= resolved_epsilon options →
  per_set_distribution options dist →
  length dist = 5%nat ∧ sumR dist = 1 ∧ Forall (λ p, 0 < p) dist.
Proof.
  intros Heps (sims & Hlen & ->).
  assert (Hne : sims ≠ []) by (destruct sims; [discriminate | congruence]).
  split; [rewrite similarityToPmf_length; exact Hlen|].
  split; [apply similarityToPmf_sum | apply similarityToPmf_pos]; assumption.
Qed.

Lemma nth_nonneg (dist : list R) (i : nat) : Forall (λ p, 0 < p) dist → 0 <= nth i dist 0.
Proof.
  intros Hpos. destruct (nth_in_or_default i dist 0) as [Hin | ->]; [|lra].
  rewrite Forall_forall in Hpos. left. apply Hpos, list_elem_of_In, Hin.
Qed.

Lemma column_sums (ds : list (list R)) :
  Forall (λ dist, length dist = 5%nat ∧ sumR dist = 1 ∧ Forall (λ p, 0 < p) dist) ds →
  sumR (map (λ dist, nth 0 dist 0) ds) + sumR (map (λ dist, nth 1 dist 0) ds)
  + sumR (map (λ dist, nth 2 dist 0) ds) + sumR (map (λ dist, nth 3 dist 0) ds)
  + sumR (map (λ dist, nth 4 dist 0) ds) = INR (length ds).
Proof.
  induction 1 as [|dist ds (Hlen & Hsum & _) _ IH].
  - unfold sumR; simpl. lra.
  - destruct dist as [|d0 [|d1 [|d2 [|d3 [|d4 [|]]]]]]; try discriminate.
    cbn [map length nth]. rewrite !sumR_cons, S_INR.
    unfold sumR in Hsum. cbn [foldr] in Hsum. lra.
Qed.

Lemma meanDistribution_is_distribution (ds : list (list R)) :
  ds ≠ [] →
  Forall (λ dist, length dist = 5%nat ∧ sumR dist = 1 ∧ Forall (λ p, 0 < p) dist) ds →
  is_distribution (meanDistribution ds).
Proof.
  intros Hne Hds.
  assert (Hn : 0 < INR (length ds)).
  { apply lt_0_INR. destruct ds; [congruence | simpl; lia]. }
  assert (Hcol : ∀ i, 0 <= meanAt ds i).
  { intros i. unfold meanAt, Rdiv.
    apply Rmult_le_pos; [|left; apply Rinv_0_lt_compat, Hn].
    apply sumR_nonneg, Forall_forall. intros x Hx.
    apply list_elem_of_In, in_map_iff in Hx as (dist & <- & Hin).
    rewrite Forall_forall in Hds.
    apply nth_nonneg, (Hds dist). apply list_elem_of_In, Hin. }
  split.
  - unfold meanDistribution. cbn [seq map].
    repeat (constructor; [apply Hcol|]). constructor.
  - unfold meanDistribution, meanAt. cbn [seq map]. unfold sumR at 1. cbn [foldr].
    pose proof (column_sums ds Hds) as Hsum.
    apply Rmult_eq_reg_r with (INR (length ds)); [|lra].
    rewrite Rmult_1_l, <- Hsum. field. lra.
Qed.

(** A run of [scoreAnswer] on a catalogued question type, step by step. *)
Lemma scoreAnswer_run (questionType freeTextAnswer : string)
    (sets : list AnchorSet) (this : SsrScorer P) :
  scorer_ok Inv d this →
  anchorSets this !! questionType = Some sets →
  sets ≠ [] →
  0 <= epsilon this →
  ∃ (answer : list embedding) (this1 : SsrScorer P)
    (dists : list (list R)) (this' : SsrScorer P),
    provider_embed [Some freeTextAnswer] this = (inr answer, this1)
    ∧ scoreLoop questionType (mjoin (head answer)) (seq 0 (length sets)) [] this1
      = (inr dists, this')
    ∧ length dists = length sets
    ∧ Forall (per_set_distribution (pmfOptionsOf this)) dists
    ∧ scoreAnswer questionType freeTextAnswer this
      = (inr {| distribution := map Num (meanDistribution dists);
                expectedScore := Num (expectation (meanDistribution dists));
                entropy := Num (shannon (meanDistribution dists));
                anchorSetCount := length sets |}, this')
    ∧ is_distribution (meanDistribution dists)
    ∧ scorer_ok Inv d this'
    ∧ same_config this this'.
Proof.
  intros Hok Hsets Hne Heps.
  destruct (provider_embed_ok [Some freeTextAnswer] this (proj1 Hok))
    as (answer & this1 & He & [Hlen Hdim] & Hinv1 & Hcfg1 & Hc1).
  destruct answer as [|v [|? ?]]; try discriminate.
  apply Forall_cons in Hdim as [(vecA & -> & Ha) _].
  assert (Hok1 : scorer_ok Inv d this1).
  { split; [exact Hinv1 | rewrite Hc1; apply Hok]. }
  assert (Hsets1 : anchorSets this1 !! questionType = Some sets)
    by (destruct Hcfg1 as (-> & _); exact Hsets).
  assert (Hidx : Forall (λ i, (i < length sets)%nat) (seq 0 (length sets))).
  { apply Forall_forall. intros i Hi. apply list_elem_of_In, in_seq in Hi. lia. }
  destruct (scoreLoop_ok questionType vecA sets _ Ha Hidx [] this1 Hok1 Hsets1)
    as (dists & this' & Hloop & Hdl & Hper & Hok' & Hcfg').
  rewrite length_seq in Hdl. cbn [app] in Hloop.
  assert (Hopt : pmfOptionsOf this1 = pmfOptionsOf this).
  { unfold pmfOptionsOf. destruct Hcfg1 as (_ & -> & ->). reflexivity. }
  rewrite Hopt in Hper.
  assert (Hpmfs : Forall (λ dist, length dist = 5%nat ∧ sumR dist = 1
                                  ∧ Forall (λ p, 0 < p) dist) dists).
  { eapply Forall_impl; [exact Hper|]. intros dist Hdist.
    apply (per_set_distribution_pmf (pmfOptionsOf this)); [exact Heps | exact Hdist]. }
  assert (Hdne : dists ≠ []).
  { destruct dists; [|discriminate]. destruct sets; [congruence | discriminate]. }
  pose proof (meanDistribution_is_distribution dists Hdne Hpmfs) as Hmean.
  exists [Some vecA], this1, dists, this'.
  split; [exact He|]. split; [exact Hloop|]. split; [exact Hdl|].
  split; [exact Hper|]. split.
  - rewrite (scoreAnswer_own _ _ _ _ Hsets).
    destruct sets as [|set sets']; [congruence|].
    rewrite (bind_inr _ _ _ _ _ He). rewrite (bind_inr _ _ _ _ _ Hloop).
    unfold ret. f_equal. f_equal.
    rewrite averageDistributions_mean
      by (eapply Forall_impl; [exact Hpmfs | intros ? (? & _); assumption]).
    f_equal.
    + unfold meanDistribution. cbn [seq map]. apply expectedScoreOf_five.
    + apply entropyOf_shannon, Hmean.
  - split; [exact Hmean|]. split; [exact Hok' | eapply same_config_trans; eassumption].
Qed.

End ScorerRuns.

(** ** Scorer: the result of [scoreAnswer] *)

Section ScoreResults.

Lemma Stub_conforming : conforming (λ _ : StubProvider, True) 2.
Proof.
  intros texts [] _. exists (map (λ _, Some [1; 0]) texts), Stub.
  split; [reflexivity|]. split; [|exact I].
  split; [apply length_map|].
  apply Forall_forall. intros v Hv.
  apply list_elem_of_In, in_map_iff in Hv as (? & <- & _). eexists. split; reflexivity.
Qed.

Lemma stubScorer_ok : scorer_ok (λ _ : StubProvider, True) 2 stubScorer.
Proof. split; [exact I|]. intros key vs Hkey. discriminate. Qed.

Lemma stubScorer_ease : anchorSets stubScorer !! "ease" = Some easeSets.
Proof. reflexivity. Qed.

Lemma easeSets_nonempty : easeSets ≠ [].
Proof. discriminate. Qed.


Lemma stubScorer_epsilon : 0 <= epsilon stubScorer.
Proof. simpl. lra. Qed.



End ScoreResults.

(** ** The cache keys of the scorer *)

Section CacheKeys.

Lemma pretty_N_char_not_colon (x : N) : pretty_N_char x ≠ ":"%char.
Proof. unfold pretty_N_char. repeat case_match; discriminate. Qed.

Lemma pretty_N_go_colon_free (x : N) :
  ∀ s : string, colon_free s → colon_free (pretty_N_go x s).
Proof.
  induction (N.lt_wf_0 x) as [x _ IH]. intros s Hs.
  destruct (decide (x = 0%N)) as [-> | Hx].
  - rewrite pretty_N_go_0. exact Hs.
  - rewrite pretty_N_go_step by lia.
    apply IH; [apply N.div_lt; lia|].
    split; [apply pretty_N_char_not_colon | exact Hs].
Qed.

(** The decimal rendering of an index has no colon. *)
Lemma pretty_nat_colon_free (n : nat) : colon_free (pretty n).
Proof.
  unfold pretty, pretty_nat, pretty, pretty_N.
  destruct (decide (N.of_nat n = 0%N)).
  - split; [discriminate | exact I].
  - apply pretty_N_go_colon_free. exact I.
Qed.

Lemma append_nil_l (s : string) : "" +:+ s = s.
Proof. reflexivity. Qed.

Lemma append_cons (c : ascii) (s t : string) : String c s +:+ t = String c (s +:+ t).
Proof. reflexivity. Qed.

Lemma colon_free_app_colon (s d : string) : ¬ colon_free (s +:+ ":" +:+ d).
Proof.
  induction s as [|c s IH]; rewrite ?append_nil_l, ?append_cons.
  - intros [Hc _]. apply Hc. reflexivity.
  - intros [_ Hs]. apply IH, Hs.
Qed.

(** The last colon of a key separates the question type from the index. *)
Lemma key_split_unique (s1 s2 d1 d2 : string) :
  colon_free d1 → colon_free d2 →
  s1 +:+ ":" +:+ d1 = s2 +:+ ":" +:+ d2 → s1 = s2 ∧ d1 = d2.
Proof.
  intros Hd1 Hd2. revert s2.
  induction s1 as [|c1 s1 IH]; intros [|c2 s2];
    rewrite ?append_nil_l, ?(append_cons _ s1), ?(append_cons _ s2);
    change (":" +:+ d1) with (String ":" d1); change (":" +:+ d2) with (String ":" d2);
    intros Heq.
  - injection Heq as ->. split; reflexivity.
  - injection Heq as <- ->. exfalso. exact (colon_free_app_colon s2 d2 Hd1).
  - injection Heq as -> <-. exfalso. exact (colon_free_app_colon s1 d1 Hd2).
  - injection Heq as -> Heq. destruct (IH _ Heq) as [-> ->]. split; reflexivity.
Qed.

Lemma cacheKey_inj (questionType questionType' : string) (i i' : nat) :
  cacheKey questionType i = cacheKey questionType' i' →
  questionType = questionType' ∧ i = i'.
Proof.
  unfold cacheKey. intros Heq.
  apply key_split_unique in Heq as [-> Hi]; try apply pretty_nat_colon_free.
  split; [reflexivity | apply (inj pretty), Hi].
Qed.

End CacheKeys.

(** ** VoyageProvider: the two loops of [embed] *)

Section VoyageLoops.

Variable c : gmap text embedding.
Variable texts : list text.

(** The first loop, run over the indices [k .. k+m-1] when the first [k]
    slots of [results] are already decided. *)
Lemma scan_fold (m : nat) :
  ∀ (k : nat) (pre : list embedding) (uT : list text) (uI : list nat),
    length pre = k →
    foldl (scanStep c texts) (pre ++ replicate m None, uT, uI) (seq k m)
    = (pre ++ map (λ i, cache_get c (text_at texts i)) (seq k m),
       uT ++ map (text_at texts) (List.filter (is_miss c texts) (seq k m)),
       uI ++ List.filter (is_miss c texts) (seq k m)).
Proof.
  induction m as [|m IH]; intros k pre uT uI Hk.
  - cbn. rewrite !app_nil_r. reflexivity.
  - cbn [seq foldl replicate map List.filter].
    assert (Hstep : ∀ st,
              scanStep c texts st k
              = let '(results, uncachedTexts, uncachedIndices) := st in
                match cache_get c (text_at texts k) with
                | Some cached => (<[k := Some cached]> results, uncachedTexts, uncachedIndices)
                | None => (results, uncachedTexts ++ [text_at texts k], uncachedIndices ++ [k])
                end) by reflexivity.
    rewrite Hstep. cbv zeta beta iota.
    assert (Hmiss : is_miss c texts k
                    = match cache_get c (text_at texts k) with
                      | Some _ => false
                      | None => true
                      end) by reflexivity.
    rewrite !Hmiss. clear Hstep Hmiss.
    destruct (cache_get c (text_at texts k)) as [cached|] eqn:Hget.
    + replace (<[k := Some cached]> (pre ++ None :: replicate m None))
        with ((pre ++ [Some cached]) ++ replicate m None).
      2:{ rewrite <- Hk. replace (length pre) with (length pre + 0)%nat at 1 by lia.
          rewrite insert_app_r, <- app_assoc. reflexivity. }
      rewrite IH by (rewrite length_app; cbn; lia).
      rewrite <- app_assoc. reflexivity.
    + replace (pre ++ None :: replicate m None)
        with ((pre ++ [None]) ++ replicate m None) by (rewrite <- app_assoc; reflexivity).
      rewrite IH by (rewrite length_app; cbn; lia).
      cbn [map]. rewrite <- !app_assoc. reflexivity.
Qed.

Lemma scan_closed :
  foldl (scanStep c texts) (replicate (length texts) None, [], [])
        (seq 0 (length texts))
  = (map (λ i, cache_get c (text_at texts i)) (seq 0 (length texts)),
     map (text_at texts) (List.filter (is_miss c texts) (seq 0 (length texts))),
     List.filter (is_miss c texts) (seq 0 (length texts))).
Proof. apply (scan_fold (length texts) 0%nat [] [] []). reflexivity. Qed.

End VoyageLoops.

Section VoyageStore.

Variable uT : list text.
Variable uI : list nat.
Variable emb : list (list R).

Lemma storeStep_eq (c1 : gmap text embedding) (res1 : list embedding)
    (m i : nat) (t : text) :
  uT !! m = Some t → uI !! m = Some i →
  storeStep uT uI emb (c1, res1) m = (<[t := emb !! m]> c1, <[i := emb !! m]> res1).
Proof.
  intros Ht Hi. unfold storeStep. rewrite Ht. cbn [mjoin option_join].
  rewrite (nth_lookup_Some _ _ _ _ Hi). reflexivity.
Qed.

(** What the second loop has done after [m] iterations. *)
Lemma store_fold (c0 : gmap text embedding) (res0 : list embedding) (m : nat) :
  length uT = length uI →
  NoDup uI →
  Forall (λ i, (i < length res0)%nat) uI →
  (m ≤ length uI)%nat →
  ∃ (c' : gmap text embedding) (res' : list embedding),
    foldl (storeStep uT uI emb) (c0, res0) (seq 0 m) = (c', res')
    ∧ length res' = length res0
    ∧ (∀ i, (∀ j, (j < m)%nat → uI !! j ≠ Some i) → res' !! i = res0 !! i)
    ∧ (∀ j i, (j < m)%nat → uI !! j = Some i → res' !! i = Some (emb !! j))
    ∧ (∀ t e, c' !! t = Some e →
              c0 !! t = Some e
              ∨ ∃ j, (j < m)%nat ∧ uT !! j = Some t ∧ e = emb !! j).
Proof.
  intros Hlen Hnd Hrange. induction m as [|m IH]; intros Hm.
  - exists c0, res0. split; [reflexivity|]. split; [reflexivity|].
    split; [reflexivity|]. split; [intros; lia | intros; left; assumption].
  - destruct IH as (c1 & res1 & Hfold & Hl1 & Hkeep & Hwritten & Hcache); [lia|].
    destruct (lookup_lt_is_Some_2 uI m ltac:(lia)) as [i Hi].
    destruct (lookup_lt_is_Some_2 uT m ltac:(lia)) as [t Ht].
    rewrite seq_S, foldl_app, Hfold. cbn [foldl Nat.add].
    rewrite (storeStep_eq c1 res1 m i t Ht Hi).
    eexists _, _. split; [reflexivity|].
    assert (Hi_lt : (i < length res1)%nat).
    { rewrite Hl1. rewrite Forall_forall in Hrange.
      apply Hrange. eapply list_elem_of_lookup_2, Hi. }
    split; [rewrite length_insert; exact Hl1|]. split; [|split].
    + intros i' Hfree.
      rewrite list_lookup_insert_ne by (intros ->; apply (Hfree m); [lia | exact Hi]).
      apply Hkeep. intros j Hj. apply Hfree. lia.
    + intros j i' Hj Hi'. destruct (decide (j = m)) as [-> | Hne].
      * rewrite Hi in Hi'. injection Hi' as <-.
        apply list_lookup_insert_eq, Hi_lt.
      * rewrite list_lookup_insert_ne.
        { apply Hwritten; [lia | exact Hi']. }
        intros ->. apply Hne. eapply NoDup_lookup; eassumption.
    + intros t' e He. destruct (decide (t = t')) as [<- | Hne].
      * rewrite lookup_insert_eq in He. injection He as <-.
        right. exists m. split; [lia|]. split; [exact Ht | reflexivity].
      * rewrite lookup_insert_ne in He by exact Hne.
        destruct (Hcache _ _ He) as [Hold | (j & Hj & Hjt & Hje)];
          [left; exact Hold | right; exists j; split; [lia|]; split; assumption].
Qed.

End VoyageStore.

Section VoyageEmbed.

Context {B : Type} `{EmbeddingBackend B}.

Lemma map_seq_lookup {A : Type} (f : nat → A) (n : nat) :
  ∀ k i, (i < n)%nat → map f (seq k n) !! i = Some (f (k + i)%nat).
Proof.
  induction n as [|n IH]; intros k i Hi; [lia|].
  destruct i as [|i]; cbn [seq map].
  - rewrite Nat.add_0_r. reflexivity.
  - cbn [lookup list_lookup]. rewrite IH by lia. f_equal. f_equal. lia.
Qed.

Lemma map_lookup {A C : Type} (f : A → C) (l : list A) :
  ∀ (j : nat) (x : A), l !! j = Some x → map f l !! j = Some (f x).
Proof.
  induction l as [|y l IH]; intros [|j] x; cbn; try discriminate.
  - intros [= ->]. reflexivity.
  - apply IH.
Qed.

Lemma text_at_lookup (texts : list text) (i : nat) (t : text) :
  texts !! i = Some t → text_at texts i = t.
Proof. intros Hi. unfold text_at. rewrite Hi. reflexivity. Qed.

Lemma missIndices_NoDup (c : gmap text embedding) (texts : list text) :
  NoDup (List.filter (is_miss c texts) (seq 0 (length texts))).
Proof. apply NoDup_ListNoDup, List.NoDup_filter, List.seq_NoDup. Qed.

Lemma missIndices_range (c : gmap text embedding) (texts : list text) :
  Forall (λ i, (i < length texts)%nat)
         (List.filter (is_miss c texts) (seq 0 (length texts))).
Proof.
  apply Forall_forall. intros i Hi.
  apply list_elem_of_In, filter_In in Hi as [Hi _]. apply in_seq in Hi. lia.
Qed.

(** What [embed] returns and what it leaves in the cache. *)
Lemma VoyageProvider_embed_spec (texts : list text) (this this' : VoyageProvider B)
    (results : list embedding) :
  VoyageProvider_embed texts this = (inr results, this') →
  length results = length texts
  ∧ (∀ i t v, texts !! i = Some t → cache_get (cache this) t = Some v →
              results !! i = Some (Some v))
  ∧ (∀ i t, texts !! i = Some t → cache_get (cache this) t = None →
            ∃ requested embeddings b' j,
              fetchEmbeddings requested (network this) = (inr embeddings, b')
              ∧ requested !! j = Some t
              ∧ results !! i = Some (embeddings !! j))
  ∧ (∀ t v, cache_get (cache this') t = Some v →
            cache_get (cache this) t = Some v
            ∨ ∃ requested embeddings b' j,
                fetchEmbeddings requested (network this) = (inr embeddings, b')
                ∧ requested !! j = Some t
                ∧ embeddings !! j = Some v).
Proof.
  unfold VoyageProvider_embed. rewrite scan_closed.
  set (c := cache this).
  set (uI := List.filter (is_miss c texts) (seq 0 (length texts))).
  set (res0 := map (λ i, cache_get c (text_at texts i)) (seq 0 (length texts))).
  assert (Hres0 : ∀ i t, texts !! i = Some t → res0 !! i = Some (cache_get c t)).
  { intros i t Hi. unfold res0. rewrite map_seq_lookup by (eapply lookup_lt_Some, Hi).
    cbn [Nat.add]. rewrite (text_at_lookup _ _ _ Hi). reflexivity. }
  assert (HuI : ∀ i t, texts !! i = Some t →
                  (In i uI ↔ cache_get c t = None)).
  { intros i t Hi. unfold uI. rewrite filter_In, in_seq. unfold is_miss.
    rewrite (text_at_lookup _ _ _ Hi). apply lookup_lt_Some in Hi.
    destruct (cache_get c t); split; intros; try discriminate; try (split; [lia|]);
      intuition discriminate || reflexivity. }
  destruct (decide (0 < length (map (text_at texts) uI))%nat) as [Hpos | Hzero].
  - destruct (fetchEmbeddings (map (text_at texts) uI) (network this))
      as [[failure | embeddings] b'] eqn:Hfetch; [discriminate|].
    destruct (store_fold (map (text_at texts) uI) uI embeddings c res0
                (length (map (text_at texts) uI)))
      as (c' & res' & Hfold & Hlen & Hkeep & Hwritten & Hcache).
    { apply length_map. }
    { apply missIndices_NoDup. }
    { unfold res0. rewrite length_map, length_seq. apply missIndices_range. }
    { rewrite length_map. lia. }
    rewrite Hfold. intros [= <- <-]. cbn [cache].
    split; [rewrite Hlen; unfold res0; rewrite length_map, length_seq; reflexivity|].
    split; [|split].
    + intros i t v Hi Hv. rewrite Hkeep; [rewrite (Hres0 _ _ Hi), Hv; reflexivity|].
      intros j _ Hj. apply list_elem_of_lookup_2, list_elem_of_In in Hj.
      apply (HuI _ _ Hi) in Hj. congruence.
    + intros i t Hi Hmiss. apply (HuI _ _ Hi) in Hmiss.
      apply list_elem_of_In, list_elem_of_lookup_1 in Hmiss as [j Hj].
      exists (map (text_at texts) uI), embeddings, b', j.
      split; [exact Hfetch|]. split.
      * rewrite (map_lookup _ _ _ _ Hj), (text_at_lookup _ _ _ Hi). reflexivity.
      * apply Hwritten; [|exact Hj]. rewrite length_map. eapply lookup_lt_Some, Hj.
    + intros t v Hv. unfold cache_get in Hv.
      destruct (c' !! t) as [e|] eqn:He; [|discriminate]. cbn in Hv. subst e.
      destruct (Hcache _ _ He) as [Hold | (j & _ & Hjt & Hje)].
      * left. unfold cache_get. fold c. rewrite Hold. reflexivity.
      * right. exists (map (text_at texts) uI), embeddings, b', j.
        split; [exact Hfetch|]. split; [exact Hjt | symmetry; exact Hje].
  - intros [= <- <-].
    split; [unfold res0; rewrite length_map, length_seq; reflexivity|].
    split; [|split].
    + intros i t v Hi Hv. rewrite (Hres0 _ _ Hi), Hv. reflexivity.
    + intros i t Hi Hmiss. exfalso. apply (HuI _ _ Hi) in Hmiss.
      rewrite length_map in Hzero. destruct uI; [contradiction | cbn in Hzero; lia].
    + intros t v Hv. left. exact Hv.
Qed.

End VoyageEmbed.

(** ** The two caches *)

Section Caches.

Context {P : Type} `{EmbeddingProvider P}.
Context {B : Type} `{EmbeddingBackend B}.

Lemma getAnchorEmbeddings_hit (questionType : string) (i : nat)
    (cached : list embedding) (this : SsrScorer P) :
  anchorEmbeddingsCache this !! cacheKey questionType i = Some cached →
  getAnchorEmbeddings questionType i this = (inr cached, this).
Proof. intros Hhit. unfold getAnchorEmbeddings. rewrite Hhit. reflexivity. Qed.

Lemma provider_embed_cache (texts : list text) (this : SsrScorer P) :
  anchorEmbeddingsCache (provider_embed texts this).2 = anchorEmbeddingsCache this.
Proof.
  unfold provider_embed. destruct (embed texts (provider this)) as [[?|?] ?]; reflexivity.
Qed.

(** A call of [getAnchorEmbeddings] changes the cache at its own key only,
    and only by storing what the provider returned for the anchors of that
    anchor set. *)
Lemma getAnchorEmbeddings_cache (questionType : string) (i : nat) (this : SsrScorer P) :
  let outcome := getAnchorEmbeddings questionType i this in
  (∀ key, key ≠ cacheKey questionType i →
          anchorEmbeddingsCache outcome.2 !! key = anchorEmbeddingsCache this !! key)
  ∧ (∀ vs, outcome.1 = inr vs →
           anchorEmbeddingsCache outcome.2 !! cacheKey questionType i = Some vs)
  ∧ (∀ vs, anchorEmbeddingsCache this !! cacheKey questionType i = None →
           outcome.1 = inr vs →
           ∃ sets anchorSet,
             anchorSets this !! questionType = Some sets
             ∧ sets !! i = Some anchorSet
             ∧ (provider_embed (anchorsOf anchorSet) this).1 = inr vs).
Proof.
  unfold getAnchorEmbeddings.
  destruct (anchorEmbeddingsCache this !! cacheKey questionType i) as [cached|] eqn:Hhit.
  { cbn. split; [reflexivity|]. split; [intros vs [= <-]; exact Hhit | discriminate]. }
  destruct (anchorSets this !! questionType) as [sets|] eqn:Hsets; cbn [mbind option_bind].
  2:{ cbn. split; [reflexivity|]. split; discriminate. }
  destruct (sets !! i) as [anchorSet|] eqn:Hset.
  2:{ cbn. split; [reflexivity|]. split; discriminate. }
  unfold bind. pose proof (provider_embed_cache (anchorsOf anchorSet) this) as Hc.
  destruct (provider_embed (anchorsOf anchorSet) this) as [[e | vs] this1] eqn:Hpe;
    cbn [fst snd anchorEmbeddingsCache with_cache] in *.
  - split; [intros; rewrite Hc; reflexivity|]. split; discriminate.
  - split; [intros key Hne; rewrite lookup_insert_ne by congruence; rewrite Hc; reflexivity|].
    split; [intros vs' [= <-]; apply lookup_insert_eq|].
    intros vs' _ [= <-]. exists sets, anchorSet.
    split; [reflexivity|]. split; [exact Hset | rewrite Hpe; reflexivity].
Qed.

(** C9.  The embedding caches never collide.  Distinct pairs
    [(questionType, anchorSetIndex)] have distinct cache keys; a lookup for a
    pair returns what is stored under that pair's key, a call for another
    pair leaves that entry as it is, and what a call stores under a pair's
    key is the provider's answer for the anchors of that very anchor set
    (the catalog being immutable).  In the provider, a cache hit returns the
    vector stored under the requested text, and every vector in the cache
    after a call was either already stored under its text or is the
    backend's answer to that text. *)
Theorem caches_never_collide :
  (∀ (questionType questionType' : string) (i i' : nat),
     (questionType, i) ≠ (questionType', i') →
     cacheKey questionType i ≠ cacheKey questionType' i')
  ∧ (∀ (this : SsrScorer P) (questionType : string) (i : nat)
       (cached : list embedding),
       anchorEmbeddingsCache this !! cacheKey questionType i = Some cached →
       getAnchorEmbeddings questionType i this = (inr cached, this))
  ∧ (∀ (this : SsrScorer P) (questionType questionType' : string) (i i' : nat),
       (questionType, i) ≠ (questionType', i') →
       anchorEmbeddingsCache (getAnchorEmbeddings questionType' i' this).2
         !! cacheKey questionType i
       = anchorEmbeddingsCache this !! cacheKey questionType i)
  ∧ (∀ (this : SsrScorer P) (questionType : string) (i : nat) (vs : list embedding),
       anchorEmbeddingsCache this !! cacheKey questionType i = None →
       (getAnchorEmbeddings questionType i this).1 = inr vs →
       anchorEmbeddingsCache (getAnchorEmbeddings questionType i this).2
         !! cacheKey questionType i = Some vs
       ∧ ∃ sets anchorSet,
           anchorSets this !! questionType = Some sets
           ∧ sets !! i = Some anchorSet
           ∧ (provider_embed (anchorsOf anchorSet) this).1 = inr vs)
  ∧ (∀ (texts : list text) (this this' : VoyageProvider B) (results : list embedding),
       VoyageProvider_embed texts this = (inr results, this') →
       (∀ i t v, texts !! i = Some t → cache_get (cache this) t = Some v →
                 results !! i = Some (Some v))
       ∧ (∀ t v, cache_get (cache this') t = Some v →
                 cache_get (cache this) t = Some v
                 ∨ ∃ requested embeddings b' j,
                     fetchEmbeddings requested (network this) = (inr embeddings, b')
                     ∧ requested !! j = Some t
                     ∧ embeddings !! j = Some v)).
Proof.
  assert (Hkeys : ∀ (questionType questionType' : string) (i i' : nat),
            (questionType, i) ≠ (questionType', i') →
            cacheKey questionType i ≠ cacheKey questionType' i').
  { intros qt qt' i i' Hne Heq. apply Hne.
    apply cacheKey_inj in Heq as [-> ->]. reflexivity. }
  split; [exact Hkeys|]. split; [|split; [|split]].
  - intros this qt i cached. apply getAnchorEmbeddings_hit.
  - intros this qt qt' i i' Hne.
    apply (getAnchorEmbeddings_cache qt' i' this), Hkeys, Hne.
  - intros this qt i vs Hmiss Hout.
    destruct (getAnchorEmbeddings_cache qt i this) as (_ & Hstored & Hfrom).
    split; [apply Hstored, Hout | apply Hfrom; assumption].
  - intros texts this this' results Hembed.
    destruct (VoyageProvider_embed_spec texts this this' results Hembed)
      as (_ & Hhit & _ & Hcache).
    split; assumption.
Qed.

End Caches.

(** ** Scorer: the embedding requests of [scoreAnswer] *)

Section Calls.

Context {P : Type} `{EmbeddingProvider P}.

Lemma provider_embed_recorded (texts : list text) (this : SsrScorer (Recording P)) :
  let outcome := provider_embed texts this in
  calls (provider outcome.2) = calls (provider this) ++ [texts]
  ∧ anchorEmbeddingsCache outcome.2 = anchorEmbeddingsCache this
  ∧ same_config this outcome.2.
Proof.
  unfold provider_embed. cbn [embed Recording_provider].
  destruct (embed texts (inner (provider this))) as [[failure | vs] p'];
    cbn; repeat split.
Qed.

(** One call of [getAnchorEmbeddings]: nothing is requested on a hit; on a
    miss that succeeds, one batch is requested and stored. *)
Lemma getAnchorEmbeddings_recorded (questionType : string) (i : nat)
    (sets : list AnchorSet) (vs : list embedding)
    (this this' : SsrScorer (Recording P)) :
  anchorSets this !! questionType = Some sets →
  getAnchorEmbeddings questionType i this = (inr vs, this') →
  calls (provider this')
  = calls (provider this)
    ++ uncachedAnchorBatches questionType sets (anchorEmbeddingsCache this) [i]
  ∧ is_Some (anchorEmbeddingsCache this' !! cacheKey questionType i)
  ∧ (∀ key, is_Some (anchorEmbeddingsCache this !! key) →
            is_Some (anchorEmbeddingsCache this' !! key))
  ∧ (∀ key, key ≠ cacheKey questionType i →
            anchorEmbeddingsCache this' !! key = anchorEmbeddingsCache this !! key)
  ∧ same_config this this'.
Proof.
  intros Hsets. unfold getAnchorEmbeddings, uncachedAnchorBatches. cbn [flat_map].
  destruct (anchorEmbeddingsCache this !! cacheKey questionType i) as [cached|] eqn:Hhit.
  { intros [= <- <-]. rewrite !app_nil_r. rewrite Hhit.
    split; [reflexivity|]. split; [eexists; reflexivity|].
    split; [intros; assumption|]. split; [reflexivity | apply same_config_refl]. }
  rewrite Hsets. cbn [mbind option_bind].
  destruct (sets !! i) as [anchorSet|]; [|discriminate].
  unfold bind.
  destruct (provider_embed_recorded (anchorsOf anchorSet) this) as (Hcalls & Hc & Hcfg).
  destruct (provider_embed (anchorsOf anchorSet) this) as [[e | vs'] this1];
    [discriminate|].
  cbn [fst snd] in *. intros [= <- <-].
  cbn [provider anchorEmbeddingsCache with_cache]. rewrite app_nil_r.
  split; [exact Hcalls|]. split; [rewrite lookup_insert_eq; eexists; reflexivity|].
  split; [|split].
  - intros key Hkey. destruct (decide (cacheKey questionType i = key)) as [<- | Hne].
    + rewrite lookup_insert_eq. eexists; reflexivity.
    + rewrite lookup_insert_ne by exact Hne. rewrite Hc. exact Hkey.
  - intros key Hne. rewrite lookup_insert_ne by congruence. rewrite Hc. reflexivity.
  - exact Hcfg.
Qed.

Lemma uncachedAnchorBatches_ext (questionType : string) (sets : list AnchorSet)
    (c c' : gmap string (list embedding)) (indices : list nat) :
  (∀ i, In i indices → c' !! cacheKey questionType i = c !! cacheKey questionType i) →
  uncachedAnchorBatches questionType sets c' indices
  = uncachedAnchorBatches questionType sets c indices.
Proof.
  intros Hagree. unfold uncachedAnchorBatches.
  induction indices as [|i rest IH]; [reflexivity|]. cbn [flat_map].
  rewrite Hagree by (left; reflexivity).
  rewrite IH by (intros; apply Hagree; right; assumption). reflexivity.
Qed.

Lemma uncachedAnchorBatches_cons (questionType : string) (sets : list AnchorSet)
    (c : gmap string (list embedding)) (i : nat) (rest : list nat) :
  uncachedAnchorBatches questionType sets c (i :: rest)
  = uncachedAnchorBatches questionType sets c [i]
    ++ uncachedAnchorBatches questionType sets c rest.
Proof. unfold uncachedAnchorBatches. cbn [flat_map]. rewrite app_nil_r. reflexivity. Qed.

(** A pass of the loop that completes. *)
Lemma scoreLoop_recorded (questionType : string) (answerEmbedding : embedding)
    (sets : list AnchorSet) (indices : list nat) :
  NoDup indices →
  ∀ (acc dists : list (list R)) (this this' : SsrScorer (Recording P)),
    anchorSets this !! questionType = Some sets →
    scoreLoop questionType answerEmbedding indices acc this = (inr dists, this') →
    calls (provider this')
    = calls (provider this)
      ++ uncachedAnchorBatches questionType sets (anchorEmbeddingsCache this) indices
    ∧ (∀ i, In i indices →
            is_Some (anchorEmbeddingsCache this' !! cacheKey questionType i))
    ∧ (∀ key, is_Some (anchorEmbeddingsCache this !! key) →
              is_Some (anchorEmbeddingsCache this' !! key))
    ∧ same_config this this'.
Proof.
  induction 1 as [|i rest Hnotin Hnd IH]; intros acc dists this this' Hsets Hloop.
  - cbn in Hloop. injection Hloop as <- <-. cbn. rewrite app_nil_r.
    split; [reflexivity|]. split; [intros i []|].
    split; [intros; assumption | apply same_config_refl].
  - cbn [scoreLoop] in Hloop. unfold bind at 1 in Hloop.
    destruct (getAnchorEmbeddings questionType i this)
      as [[e | vs] this1] eqn:Hget; [discriminate|].
    destruct (getAnchorEmbeddings_recorded _ _ sets _ _ _ Hsets Hget)
      as (Hcalls1 & Hstored & Hmono1 & Hother & Hcfg1).
    unfold bind, lift in Hloop.
    destruct (map_throwing _ vs) as [e | sims]; [discriminate|].
    assert (Hsets1 : anchorSets this1 !! questionType = Some sets)
      by (destruct Hcfg1 as (-> & _); exact Hsets).
    destruct (IH _ _ _ _ Hsets1 Hloop) as (Hcalls & Hall & Hmono & Hcfg).
    split; [|split; [|split]].
    + rewrite Hcalls, Hcalls1, <- app_assoc. f_equal.
      rewrite (uncachedAnchorBatches_cons _ _ _ i rest). f_equal. apply uncachedAnchorBatches_ext. intros j Hj. apply Hother.
      intros Heq. apply cacheKey_inj in Heq as [_ ->].
      apply Hnotin, list_elem_of_In, Hj.
    + intros j [<- | Hj]; [apply Hmono, Hstored | apply Hall, Hj].
    + intros key Hkey. apply Hmono, Hmono1, Hkey.
    + eapply same_config_trans; eassumption.
Qed.

(** Once every anchor set is cached the loop leaves the scorer, and so the
    provider, untouched. *)
Lemma scoreLoop_all_cached (questionType : string) (answerEmbedding : embedding)
    (indices : list nat) :
  ∀ (acc : list (list R)) (this : SsrScorer (Recording P)),
    (∀ i, In i indices →
          is_Some (anchorEmbeddingsCache this !! cacheKey questionType i)) →
    (scoreLoop questionType answerEmbedding indices acc this).2 = this.
Proof.
  induction indices as [|i rest IH]; intros acc this Hall; [reflexivity|].
  cbn [scoreLoop]. destruct (Hall i (or_introl eq_refl)) as [cached Hhit].
  rewrite (bind_inr _ _ _ _ _ (getAnchorEmbeddings_hit _ _ _ _ Hhit)).
  unfold bind, lift. destruct (map_throwing _ cached) as [e | sims]; [reflexivity|].
  apply IH. intros j Hj. apply Hall. right. exact Hj.
Qed.

Lemma uncachedAnchorBatches_five (questionType : string) (sets : list AnchorSet)
    (c : gmap string (list embedding)) (indices : list nat) :
  Forall (λ batch : list text, length batch = 5%nat)
         (uncachedAnchorBatches questionType sets c indices).
Proof.
  unfold uncachedAnchorBatches. induction indices as [|i rest IH]; [constructor|].
  cbn [flat_map].
  destruct (c !! cacheKey questionType i), (sets !! i); cbn [app]; try exact IH.
  constructor; [reflexivity | exact IH].
Qed.

End Calls.

Section CallsOfScoreAnswer.

Context {P : Type} `{EmbeddingProvider P}.

Lemma bind_state {S A C : Type} (m : M S A) (k : A → M S C) (s : S) :
  (∀ a s', (k a s').2 = s') → (bind m k s).2 = (m s).2.
Proof.
  intros Hk. unfold bind. destruct (m s) as [[e | a] s']; [reflexivity | apply Hk].
Qed.

Lemma batches_fresh_from (questionType : string) (sets : list AnchorSet) :
  ∀ pre : list AnchorSet,
    uncachedAnchorBatches questionType (pre ++ sets) ∅ (seq (length pre) (length sets))
    = map anchorsOf sets.
Proof.
  unfold uncachedAnchorBatches.
  induction sets as [|anchorSet sets IH]; intros pre; [reflexivity|].
  cbn [length seq flat_map map]. rewrite lookup_empty.
  rewrite list_lookup_middle by reflexivity. cbn [app]. f_equal.
  specialize (IH (pre ++ [anchorSet])).
  rewrite <- app_assoc, length_app in IH. cbn [length app] in IH.
  rewrite Nat.add_1_r in IH. exact IH.
Qed.

(** With an empty cache every anchor set of the question type is requested. *)
Lemma batches_fresh (questionType : string) (sets : list AnchorSet) :
  uncachedAnchorBatches questionType sets ∅ (seq 0 (length sets)) = map anchorsOf sets.
Proof. apply (batches_fresh_from questionType sets []). Qed.

(** C8.  A call of [scoreAnswer] that returns a result has issued exactly
    one request for the answer text, followed by one request of five
    statements for each anchor set whose key was not in the cache (all of
    them when the cache was empty).  A second call on the same scorer and
    question type issues exactly one request, for its answer text, and none
    for anchors: the scorer caches anchor embeddings only. *)
Theorem scoreAnswer_embedding_calls
    (questionType answer1 answer2 : string) (sets : list AnchorSet)
    (this this1 : SsrScorer (Recording P)) (r1 : ScoreResult) :
  anchorSets this !! questionType = Some sets →
  scoreAnswer questionType answer1 this = (inr r1, this1) →
  calls (provider this1)
  = calls (provider this)
    ++ [Some answer1]
       :: uncachedAnchorBatches questionType sets (anchorEmbeddingsCache this)
            (seq 0 (length sets))
  ∧ Forall (λ batch : list text, length batch = 5%nat)
           (uncachedAnchorBatches questionType sets (anchorEmbeddingsCache this)
              (seq 0 (length sets)))
  ∧ (anchorEmbeddingsCache this = ∅ →
     uncachedAnchorBatches questionType sets (anchorEmbeddingsCache this)
       (seq 0 (length sets)) = map anchorsOf sets)
  ∧ calls (provider (scoreAnswer questionType answer2 this1).2)
    = calls (provider this1) ++ [[Some answer2]].
Proof.
  intros Hsets Hrun. rewrite (scoreAnswer_own _ _ _ _ Hsets) in Hrun.
  destruct sets as [|set0 sets']; [discriminate|].
  set (sets := set0 :: sets') in *.
  unfold bind at 1 in Hrun.
  destruct (provider_embed_recorded [Some answer1] this) as (Hcalls0 & Hc0 & Hcfg0).
  destruct (provider_embed [Some answer1] this) as [[e | answer] this0];
    [discriminate|]. cbn [fst snd] in *.
  unfold bind at 1 in Hrun.
  destruct (scoreLoop questionType (mjoin (head answer)) (seq 0 (length sets)) [] this0)
    as [[e | dists] this'] eqn:Hloop; [discriminate|].
  injection Hrun as _ <-.
  assert (Hsets0 : anchorSets this0 !! questionType = Some sets)
    by (destruct Hcfg0 as (-> & _); exact Hsets).
  destruct (scoreLoop_recorded questionType _ sets _
              (proj2 (NoDup_ListNoDup _) (List.seq_NoDup _ _))
              _ _ _ _ Hsets0 Hloop) as (Hcalls & Hall & _ & Hcfg).
  split; [|split; [|split]].
  - rewrite Hcalls, Hcalls0, Hc0, <- app_assoc. reflexivity.
  - apply uncachedAnchorBatches_five.
  - intros ->. apply batches_fresh.
  - assert (Hsets1 : anchorSets this' !! questionType = Some sets)
      by (destruct Hcfg as (-> & _); exact Hsets0).
    rewrite (scoreAnswer_own _ _ _ _ Hsets1). unfold sets at 1.
    destruct (provider_embed_recorded [Some answer2] this') as (Hcalls2 & Hc2 & _).
    unfold bind at 1.
    destruct (provider_embed [Some answer2] this') as [[e | answer'] this2];
      cbn [fst snd] in *; [exact Hcalls2|].
    rewrite bind_state by reflexivity.
    rewrite scoreLoop_all_cached; [exact Hcalls2|].
    intros i Hi. rewrite Hc2. apply Hall, Hi.
Qed.

End CallsOfScoreAnswer.

(** ** The configuration of a scorer is fixed at construction *)

Section Config.

Context {P : Type} `{EmbeddingProvider P}.

Lemma provider_embed_config (texts : list text) (this : SsrScorer P) :
  same_config this (provider_embed texts this).2.
Proof.
  unfold provider_embed.
  destruct (embed texts (provider this)) as [[?|?] ?]; repeat split.
Qed.

Lemma getAnchorEmbeddings_config (questionType : string) (i : nat) (this : SsrScorer P) :
  same_config this (getAnchorEmbeddings questionType i this).2.
Proof.
  unfold getAnchorEmbeddings.
  destruct (anchorEmbeddingsCache this !! _); [apply same_config_refl|].
  destruct (anchorSets this !! questionType ≫= _) as [anchorSet|];
    [|apply same_config_refl].
  unfold bind. pose proof (provider_embed_config (anchorsOf anchorSet) this) as Hcfg.
  destruct (provider_embed (anchorsOf anchorSet) this) as [[?|?] this1]; exact Hcfg.
Qed.

Lemma scoreLoop_config (questionType : string) (answerEmbedding : embedding)
    (indices : list nat) :
  ∀ (acc : list (list R)) (this : SsrScorer P),
    same_config this (scoreLoop questionType answerEmbedding indices acc this).2.
Proof.
  induction indices as [|i rest IH]; intros acc this; [apply same_config_refl|].
  cbn [scoreLoop]. unfold bind at 1.
  pose proof (getAnchorEmbeddings_config questionType i this) as Hcfg.
  destruct (getAnchorEmbeddings questionType i this) as [[e | vs] this1]; [exact Hcfg|].
  unfold bind, lift. destruct (map_throwing _ vs) as [e | sims]; [exact Hcfg|].
  eapply same_config_trans; [exact Hcfg | apply IH].
Qed.

Lemma scoreAnswer_config (questionType freeTextAnswer : string) (this : SsrScorer P) :
  same_config this (scoreAnswer questionType freeTextAnswer this).2.
Proof.
  destruct (scoreAnswer_cases questionType freeTextAnswer this) as [-> | [len ->]];
    [apply same_config_refl|].
  unfold scoreAnswer_body, bind at 1.
  pose proof (provider_embed_config [Some freeTextAnswer] this) as Hcfg.
  destruct (provider_embed [Some freeTextAnswer] this) as [[e | answer] this1];
    [exact Hcfg|].
  rewrite bind_state by reflexivity.
  eapply same_config_trans; [exact Hcfg | apply scoreLoop_config].
Qed.

End Config.

(** ** BatchScorer *)

Section Batch.

Context {P : Type} `{EmbeddingProvider P}.
Variable questionTypeMapping : option (gmap string string).

(** The loop never throws: it ends with the locals that absorbed exactly
    the successfully scored questions. *)
Lemma batchLoop_spec (entries : list (string * string)) :
  ∀ (locals : BatchLocals) (this : SsrScorer P),
    ∃ this' : SsrScorer P,
      batchLoop questionTypeMapping entries locals this
      = (inr (foldl absorb locals (scoredAnswers questionTypeMapping entries this)), this')
      ∧ same_config this this'.
Proof.
  induction entries as [|[questionId answer] rest IH]; intros locals this.
  - exists this. split; [reflexivity | apply same_config_refl].
  - cbn [batchLoop scoredAnswers].
    fold (resolveQuestionType questionTypeMapping questionId).
    pose proof (scoreAnswer_config (resolveQuestionType questionTypeMapping questionId)
                  answer this) as Hcfg.
    unfold bind at 1, try_catch, bind at 1.
    destruct (scoreAnswer (resolveQuestionType questionTypeMapping questionId) answer this)
      as [[e | result] this1]; cbn [fst snd ret] in *;
      match goal with
      | |- context [batchLoop _ rest ?l this1] =>
          destruct (IH l this1) as (this' & Hloop & Hcfg')
      end;
      exists this'; (split; [exact Hloop | eapply same_config_trans; eassumption]).
Qed.

Lemma scoredAnswers_sublist (entries : list (string * string)) :
  ∀ this : SsrScorer P,
    sublist (map fst (scoredAnswers questionTypeMapping entries this)) (map fst entries).
Proof.
  induction entries as [|[questionId answer] rest IH]; intros this; [constructor|].
  cbn [scoredAnswers map fst].
  destruct (scoreAnswer _ answer this) as [[e | r] this1]; cbn [map fst].
  - apply sublist_cons, IH.
  - apply sublist_skip, IH.
Qed.

Lemma scoredAnswers_In (entries : list (string * string)) :
  ∀ (this : SsrScorer P) (questionId : string) (sa : ScoredAnswer),
    In (questionId, sa) (scoredAnswers questionTypeMapping entries this) →
    In (questionId, answer sa) entries.
Proof.
  induction entries as [|[qid ans] rest IH]; intros this questionId sa; [intros []|].
  cbn [scoredAnswers].
  destruct (scoreAnswer _ ans this) as [[e | r] this1].
  - intros Hin. right. eapply IH, Hin.
  - intros [[= <- <-] | Hin]; [left; reflexivity | right; eapply IH, Hin].
Qed.

Lemma absorb_totals (scored : list (string * ScoredAnswer)) :
  ∀ locals : BatchLocals,
    totalExpectedScore (foldl absorb locals scored)
    = foldl num_add (totalExpectedScore locals)
            (map (λ s, expectedScore (result s.2)) scored)
    ∧ totalEntropy (foldl absorb locals scored)
      = foldl num_add (totalEntropy locals) (map (λ s, entropy (result s.2)) scored).
Proof.
  induction scored as [|s scored IH]; intros locals; [split; reflexivity|].
  cbn [foldl map]. destruct (IH (absorb locals s)) as [-> ->]. split; reflexivity.
Qed.

Lemma assign_property_other {A : Type} (key : string) (a : A) (own : gmap string A) :
  key ≠ "__proto__"%string → assign_property key a own = <[key := a]> own.
Proof.
  intros Hkey. unfold assign_property.
  destruct (decide (key = "__proto__"%string)); [contradiction | reflexivity].
Qed.

Lemma assign_property_proto {A : Type} (a : A) (own : gmap string A) :
  assign_property "__proto__" a own = own.
Proof. reflexivity. Qed.

Lemma absorb_not_in (scored : list (string * ScoredAnswer)) :
  ∀ (locals : BatchLocals) (questionId : string),
    ¬ In questionId (map fst scored) →
    l_scores (foldl absorb locals scored) !! questionId = l_scores locals !! questionId.
Proof.
  induction scored as [|[qid sa] scored IH]; intros locals questionId Hnotin;
    [reflexivity|].
  cbn [foldl]. rewrite IH by (intros Hin; apply Hnotin; right; exact Hin).
  cbn [absorb l_scores fst snd]. unfold assign_property.
  destruct (decide (qid = "__proto__"%string)); [reflexivity|].
  apply lookup_insert_ne.
  intros ->. apply Hnotin. left. reflexivity.
Qed.

Lemma absorb_proto (scored : list (string * ScoredAnswer)) :
  ∀ locals : BatchLocals,
    l_scores locals !! "__proto__"%string = None →
    l_scores (foldl absorb locals scored) !! "__proto__"%string = None.
Proof.
  induction scored as [|[qid sa] scored IH]; intros locals Hnone; [exact Hnone|].
  cbn [foldl]. apply IH. cbn [absorb l_scores fst snd]. unfold assign_property.
  destruct (decide (qid = "__proto__"%string)) as [_ | Hne]; [exact Hnone|].
  rewrite lookup_insert_ne by exact Hne. exact Hnone.
Qed.

Lemma absorb_scores (scored : list (string * ScoredAnswer)) :
  NoDup (map fst scored) →
  ∀ (locals : BatchLocals) (questionId : string) (sa : ScoredAnswer),
    questionId ≠ "__proto__"%string →
    l_scores (foldl absorb locals scored) !! questionId = Some sa
    ↔ In (questionId, sa) scored
      ∨ (¬ In questionId (map fst scored) ∧ l_scores locals !! questionId = Some sa).
Proof.
  induction scored as [|[qid sa0] scored IH]; intros Hnd locals questionId sa Hne.
  - cbn. tauto.
  - cbn [map fst] in Hnd. apply NoDup_cons in Hnd as [Hnotin Hnd].
    cbn [foldl]. rewrite (IH Hnd) by exact Hne. cbn [absorb l_scores fst snd map In].
    rewrite list_elem_of_In in Hnotin. unfold assign_property.
    destruct (decide (qid = "__proto__"%string)) as [-> | Hqid].
    { split.
      - intros [Hin | [Hno Hl]]; [left; right; exact Hin|].
        right. split; [intros [? | ?]; [congruence | contradiction] | exact Hl].
      - intros [[[= <- _] | Hin] | [Hno Hl]]; [congruence | left; exact Hin|].
        right. split; [intros ?; apply Hno; right; assumption | exact Hl]. }
    destruct (decide (qid = questionId)) as [-> | Hother].
    + rewrite lookup_insert_eq. split.
      * intros [Hin | [_ [= <-]]]; [|left; left; reflexivity].
        exfalso. apply Hnotin, in_map_iff. exists (questionId, sa). split; [reflexivity | exact Hin].
      * intros [[[= <-] | Hin] | [Hno _]].
        -- right. split; [exact Hnotin | reflexivity].
        -- left. exact Hin.
        -- exfalso. apply Hno. left. reflexivity.
    + rewrite lookup_insert_ne by exact Hother. split.
      * intros [Hin | [Hno Hl]]; [left; right; exact Hin|].
        right. split; [intros [? | ?]; [congruence | contradiction] | exact Hl].
      * intros [[[= -> _] | Hin] | [Hno Hl]]; [congruence | left; exact Hin|].
        right. split; [intros ?; apply Hno; right; assumption | exact Hl].
Qed.

Lemma absorb_size (scored : list (string * ScoredAnswer)) :
  NoDup (map fst scored) →
  ¬ In "__proto__"%string (map fst scored) →
  ∀ locals : BatchLocals,
    (∀ questionId, In questionId (map fst scored) → l_scores locals !! questionId = None) →
    size (l_scores (foldl absorb locals scored))
    = (size (l_scores locals) + length scored)%nat.
Proof.
  induction scored as [|[qid sa0] scored IH]; intros Hnd Hproto locals Hfresh.
  - cbn. lia.
  - cbn [map fst] in Hnd. apply NoDup_cons in Hnd as [Hnotin Hnd].
    cbn [map fst In] in Hproto.
    rewrite list_elem_of_In in Hnotin.
    cbn [foldl length]. rewrite (IH Hnd (λ Hin, Hproto (or_intror Hin))).
    + cbn [absorb l_scores fst snd].
      rewrite assign_property_other by (intros ->; tauto).
      rewrite map_size_insert_None by (apply Hfresh; left; reflexivity). lia.
    + intros questionId Hin. cbn [absorb l_scores fst snd].
      rewrite assign_property_other by (intros ->; tauto).
      rewrite lookup_insert_ne by (intros ->; contradiction).
      apply Hfresh. right. exact Hin.
Qed.

Lemma averageOver_mean (total : num) (xs : list num) :
  total = foldl num_add (Num 0) xs → averageOver total (length xs) = mean_num xs.
Proof.
  intros ->. unfold averageOver, mean_num.
  destruct xs as [|x xs]; [reflexivity|].
  destruct (decide (0 < length (x :: xs))%nat) as [_ | Hn]; [reflexivity|].
  cbn [length] in Hn. lia.
Qed.

End Batch.

Section BatchResults.

Context {P : Type} `{EmbeddingProvider P}.

Lemma scoreAllAnswers_eq (freeTextAnswers : list (string * string)) (provider : P)
    (questionTypeMapping : option (gmap string string)) :
  ∃ scorer' : SsrScorer P,
    let locals :=
      foldl absorb {| l_scores := ∅; totalExpectedScore := Num 0; totalEntropy := Num 0 |}
            (scoredAnswers questionTypeMapping freeTextAnswers (batchScorer provider)) in
    scoreAllAnswers freeTextAnswers provider questionTypeMapping
    = (inr {| scores := l_scores locals;
              summary :=
                {| averageExpectedScore :=
                     averageOver (totalExpectedScore locals) (size (l_scores locals));
                   averageEntropy :=
                     averageOver (totalEntropy locals) (size (l_scores locals));
                   questionCount := size (l_scores locals) |} |}, scorer')
    ∧ same_config (batchScorer provider) scorer'.
Proof.
  destruct (batchLoop_spec questionTypeMapping freeTextAnswers
              {| l_scores := ∅; totalExpectedScore := Num 0; totalEntropy := Num 0 |}
              (batchScorer provider)) as (scorer' & Hloop & Hcfg).
  exists scorer'. split; [|exact Hcfg].
  unfold scoreAllAnswers. fold (batchScorer provider).
  rewrite (bind_inr _ _ _ _ _ Hloop). reflexivity.
Qed.

(** X28.  [scoreAllAnswers] never raises.  When no question is named
    [__proto__], it returns a result whose [scores] hold exactly the
    questions for which [scoreAnswer] succeeded, each with its result and
    its answer; the two averages are the arithmetic means of
    [expectedScore] and [entropy] over those questions, [questionCount] is
    their number, and when there are none the averages are [0] and the
    count is [0]. *)
Theorem scoreAllAnswers_scores_successes
    (freeTextAnswers : list (string * string)) (provider : P)
    (questionTypeMapping : option (gmap string string)) :
  NoDup (map fst freeTextAnswers) →
  ¬ In "__proto__"%string (map fst freeTextAnswers) →
  ∃ (res : SsrScoresResult) (scorer' : SsrScorer P),
    scoreAllAnswers freeTextAnswers provider questionTypeMapping = (inr res, scorer')
    ∧ (∀ questionId sa,
         scores res !! questionId = Some sa
         ↔ In (questionId, sa)
              (scoredAnswers questionTypeMapping freeTextAnswers (batchScorer provider)))
    ∧ questionCount (summary res)
      = length (scoredAnswers questionTypeMapping freeTextAnswers (batchScorer provider))
    ∧ averageExpectedScore (summary res)
      = mean_num (map (λ s, expectedScore (result s.2))
                      (scoredAnswers questionTypeMapping freeTextAnswers
                         (batchScorer provider)))
    ∧ averageEntropy (summary res)
      = mean_num (map (λ s, entropy (result s.2))
                      (scoredAnswers questionTypeMapping freeTextAnswers
                         (batchScorer provider)))
    ∧ (scoredAnswers questionTypeMapping freeTextAnswers (batchScorer provider) = [] →
       averageExpectedScore (summary res) = Num 0
       ∧ averageEntropy (summary res) = Num 0
       ∧ questionCount (summary res) = 0%nat).
Proof.
  intros Hnd Hproto.
  destruct (scoreAllAnswers_eq freeTextAnswers provider questionTypeMapping)
    as (scorer' & Hrun & _). cbv zeta in Hrun.
  set (scored := scoredAnswers questionTypeMapping freeTextAnswers (batchScorer provider)) in *.
  set (locals0 := {| l_scores := ∅; totalExpectedScore := Num 0; totalEntropy := Num 0 |}) in *.
  assert (Hkeys : NoDup (map fst scored)).
  { apply (sublist_NoDup _ _ Hnd), scoredAnswers_sublist. }
  assert (Hproto' : ¬ In "__proto__"%string (map fst scored)).
  { intros Hin. apply Hproto. apply list_elem_of_In.
    eapply elem_of_sublist; [apply list_elem_of_In, Hin | apply scoredAnswers_sublist]. }
  assert (Hsize : size (l_scores (foldl absorb locals0 scored)) = length scored).
  { rewrite absorb_size; [reflexivity | exact Hkeys | exact Hproto'
                          | intros; apply lookup_empty]. }
  destruct (absorb_totals scored locals0) as [HtotE HtotH].
  assert (HavgE : averageOver (totalExpectedScore (foldl absorb locals0 scored))
                    (size (l_scores (foldl absorb locals0 scored)))
                  = mean_num (map (λ s, expectedScore (result s.2)) scored)).
  { rewrite Hsize, <- (length_map (λ s, expectedScore (result s.2)) scored).
    apply averageOver_mean, HtotE. }
  assert (HavgH : averageOver (totalEntropy (foldl absorb locals0 scored))
                    (size (l_scores (foldl absorb locals0 scored)))
                  = mean_num (map (λ s, entropy (result s.2)) scored)).
  { rewrite Hsize, <- (length_map (λ s, entropy (result s.2)) scored).
    apply averageOver_mean, HtotH. }
  eexists _, scorer'. split; [exact Hrun|].
  cbn [scores summary questionCount averageExpectedScore averageEntropy].
  split.
  { intros questionId sa.
    destruct (decide (questionId = "__proto__"%string)) as [-> | Hne].
    - rewrite absorb_proto by apply lookup_empty. split; [discriminate|].
      intros Hin. exfalso. apply Hproto', in_map_iff.
      exists ("__proto__"%string, sa). split; [reflexivity | exact Hin].
    - rewrite (absorb_scores scored Hkeys _ _ _ Hne). cbn [l_scores locals0].
      rewrite lookup_empty.
      split; [intros [? | [_ ?]]; [assumption | discriminate] | tauto]. }
  split; [exact Hsize|]. split; [exact HavgE|]. split; [exact HavgH|].
  intros Hnone. rewrite HavgE, HavgH, Hsize, Hnone. repeat split.
Qed.

End BatchResults.

Lemma scoreAllAnswers_scores_successes_witness :
  ∃ (res : SsrScoresResult) (scorer' : SsrScorer StubProvider),
    scoreAllAnswers [("ease", "fine"); ("unknown_q", "text")]%string Stub None
    = (inr res, scorer')
    ∧ (∀ questionId sa,
         scores res !! questionId = Some sa
         ↔ In (questionId, sa)
              (scoredAnswers None [("ease", "fine"); ("unknown_q", "text")]%string
                 (batchScorer Stub)))
    ∧ questionCount (summary res)
      = length (scoredAnswers None [("ease", "fine"); ("unknown_q", "text")]%string
                  (batchScorer Stub))
    ∧ averageExpectedScore (summary res)
      = mean_num (map (λ s, expectedScore (result s.2))
                      (scoredAnswers None [("ease", "fine"); ("unknown_q", "text")]%string
                         (batchScorer Stub)))
    ∧ averageEntropy (summary res)
      = mean_num (map (λ s, entropy (result s.2))
                      (scoredAnswers None [("ease", "fine"); ("unknown_q", "text")]%string
                         (batchScorer Stub)))
    ∧ (scoredAnswers None [("ease", "fine"); ("unknown_q", "text")]%string
         (batchScorer Stub) = [] →
       averageExpectedScore (summary res) = Num 0
       ∧ averageEntropy (summary res) = Num 0
       ∧ questionCount (summary res) = 0%nat).
Proof.
  apply (scoreAllAnswers_scores_successes
           [("ease", "fine"); ("unknown_q", "text")]%string Stub None).
  - apply NoDup_ListNoDup. cbn [map fst].
    repeat constructor; cbn [In]; intuition discriminate.
  - cbn [map fst In]. intuition discriminate.
Defined.

(** ** BatchScorer: the catalog is always the built-in one *)

Section DefaultCatalog.

Context {P : Type} `{EmbeddingProvider P}.

Lemma DEFAULT_ANCHOR_SETS_other (questionType : string) :
  questionType ≠ "ease"%string → questionType ≠ "trust"%string →
  DEFAULT_ANCHOR_SETS !! questionType = None.
Proof.
  intros Hease Htrust. unfold DEFAULT_ANCHOR_SETS.
  rewrite lookup_insert_ne by congruence.
  apply lookup_singleton_ne. congruence.
Qed.

Lemma scoreAnswer_uncatalogued (questionType freeTextAnswer : string) (this : SsrScorer P) :
  anchorSets this !! questionType = None →
  inherited_property questionType = None →
  scoreAnswer questionType freeTextAnswer this
  = (inl (UnknownQuestionType questionType), this).
Proof.
  intros Hnone Hinherited. rewrite (scoreAnswer_not_own _ _ _ Hnone), Hinherited.
  reflexivity.
Qed.

(** The only name under which [Object.prototype] holds an object. *)
Lemma inherited_PrototypeObject (key : string) :
  inherited_property key = Some PrototypeObject → key = "__proto__"%string.
Proof.
  unfold inherited_property, Object_prototype. cbn [List.find fst snd].
  repeat match goal with
         | |- context [String.eqb ?name key] =>
             destruct (String.eqb_spec name key) as [<- | _];
             [cbn [fmap option_fmap option_map]; intros [=]; reflexivity
             || (intros _; reflexivity) |]
         end.
  discriminate.
Qed.

Lemma batchScorer_of_catalog (provider : P) : cache_of_catalog (batchScorer provider).
Proof. intros questionType i [vs Hvs]. discriminate. Qed.

Lemma getAnchorEmbeddings_of_catalog (questionType : string) (i : nat)
    (this : SsrScorer P) :
  cache_of_catalog this →
  cache_of_catalog (getAnchorEmbeddings questionType i this).2.
Proof.
  intros Hinv. unfold getAnchorEmbeddings.
  destruct (anchorEmbeddingsCache this !! cacheKey questionType i); [exact Hinv|].
  destruct (anchorSets this !! questionType) as [sets|] eqn:Hsets;
    cbn [mbind option_bind]; [|exact Hinv].
  destruct (sets !! i) as [anchorSet|]; [|exact Hinv].
  unfold bind.
  pose proof (provider_embed_cache (anchorsOf anchorSet) this) as Hc.
  destruct (provider_embed_config (anchorsOf anchorSet) this) as (Hcat & _).
  destruct (provider_embed (anchorsOf anchorSet) this) as [[e | vs] this1];
    cbn [fst snd] in *; intros qt' i'.
  - rewrite Hc, Hcat. apply Hinv.
  - cbn [anchorEmbeddingsCache anchorSets with_cache]. rewrite Hcat.
    destruct (decide (cacheKey qt' i' = cacheKey questionType i)) as [Heq | Hne].
    + apply cacheKey_inj in Heq as [-> _]. intros _. rewrite Hsets. eauto.
    + rewrite lookup_insert_ne by congruence. rewrite Hc. apply Hinv.
Qed.

Lemma scoreLoop_of_catalog (questionType : string) (answerEmbedding : embedding)
    (indices : list nat) :
  ∀ (acc : list (list R)) (this : SsrScorer P),
    cache_of_catalog this →
    cache_of_catalog (scoreLoop questionType answerEmbedding indices acc this).2.
Proof.
  induction indices as [|i rest IH]; intros acc this Hinv; [exact Hinv|].
  cbn [scoreLoop]. unfold bind at 1.
  pose proof (getAnchorEmbeddings_of_catalog questionType i this Hinv) as Hinv1.
  destruct (getAnchorEmbeddings questionType i this) as [[e | vs] this1]; [exact Hinv1|].
  unfold bind, lift. destruct (map_throwing _ vs) as [e | sims]; [exact Hinv1|].
  apply IH, Hinv1.
Qed.

Lemma provider_embed_of_catalog (texts : list text) (this : SsrScorer P) :
  cache_of_catalog this → cache_of_catalog (provider_embed texts this).2.
Proof.
  intros Hinv questionType i. rewrite provider_embed_cache.
  destruct (provider_embed_config texts this) as (-> & _). apply Hinv.
Qed.

Lemma scoreAnswer_of_catalog (questionType freeTextAnswer : string) (this : SsrScorer P) :
  cache_of_catalog this →
  cache_of_catalog (scoreAnswer questionType freeTextAnswer this).2.
Proof.
  intros Hinv.
  destruct (scoreAnswer_cases questionType freeTextAnswer this) as [-> | [len ->]];
    [exact Hinv|].
  unfold scoreAnswer_body, bind at 1.
  pose proof (provider_embed_of_catalog [Some freeTextAnswer] this Hinv) as Hinv1.
  destruct (provider_embed [Some freeTextAnswer] this) as [[e | answer] this1];
    [exact Hinv1|].
  rewrite bind_state by reflexivity. apply scoreLoop_of_catalog, Hinv1.
Qed.

(** Under a name that [Object.prototype] binds to a method with parameters,
    the guard of [scoreAnswer] passes, the answer is embedded and the first
    round of the loop finds no anchor set. *)
Lemma scoreAnswer_inherited_method (questionType freeTextAnswer name : string) (n : nat)
    (this : SsrScorer P) :
  anchorSets this !! questionType = None →
  inherited_property questionType = Some (Method name (S n)) →
  cache_of_catalog this →
  scoreAnswer questionType freeTextAnswer this
  = match provider_embed [Some freeTextAnswer] this with
    | (inl e, this1) => (inl e, this1)
    | (inr _, this1) => (inl (NoAnchorSetFound questionType 0), this1)
    end.
Proof.
  intros Hnone Hinherited Hinv.
  rewrite (scoreAnswer_not_own _ _ _ Hnone), Hinherited. unfold bind at 1.
  pose proof (provider_embed_of_catalog [Some freeTextAnswer] this Hinv) as Hinv1.
  destruct (provider_embed_config [Some freeTextAnswer] this) as (Hcat & _).
  destruct (provider_embed [Some freeTextAnswer] this) as [[e | answer] this1];
    [reflexivity|].
  cbn [snd] in *.
  assert (Hget : getAnchorEmbeddings questionType 0 this1
                 = (inl (NoAnchorSetFound questionType 0), this1)).
  { unfold getAnchorEmbeddings.
    destruct (anchorEmbeddingsCache this1 !! cacheKey questionType 0) as [vs|] eqn:Hhit.
    { destruct (Hinv1 questionType 0%nat) as [sets Hsets]; [eauto|]. congruence. }
    rewrite Hcat, Hnone. reflexivity. }
  cbn [seq scoreLoop]. unfold bind. rewrite Hget. reflexivity.
Qed.

(** A question type on which [scoreAnswer] returns a result is an own entry
    of the catalog or the name [__proto__]. *)
Lemma scoreAnswer_scored_type (questionType freeTextAnswer : string)
    (this this' : SsrScorer P) (r : ScoreResult) :
  cache_of_catalog this →
  scoreAnswer questionType freeTextAnswer this = (inr r, this') →
  is_Some (anchorSets this !! questionType) ∨ questionType = "__proto__"%string.
Proof.
  intros Hinv Hrun.
  destruct (anchorSets this !! questionType) as [sets|] eqn:Hsets; [left; eauto|].
  right. destruct (inherited_property questionType) as [[name [|n] | ]|] eqn:Hinherited.
  - rewrite (scoreAnswer_not_own _ _ _ Hsets), Hinherited in Hrun. discriminate.
  - rewrite (scoreAnswer_inherited_method _ _ _ _ _ Hsets Hinherited Hinv) in Hrun.
    destruct (provider_embed [Some freeTextAnswer] this) as [[e | answer] this1];
      discriminate.
  - apply inherited_PrototypeObject, Hinherited.
  - rewrite (scoreAnswer_uncatalogued _ _ _ Hsets Hinherited) in Hrun. discriminate.
Qed.

Lemma scoredAnswers_catalogued (questionTypeMapping : option (gmap string string))
    (entries : list (string * string)) :
  ∀ (this : SsrScorer P) (questionId : string),
    cache_of_catalog this →
    In questionId (map fst (scoredAnswers questionTypeMapping entries this)) →
    is_Some (anchorSets this !! resolveQuestionType questionTypeMapping questionId)
    ∨ resolveQuestionType questionTypeMapping questionId = "__proto__"%string.
Proof.
  induction entries as [|[qid ans] rest IH]; intros this questionId Hinv; [intros []|].
  cbn [scoredAnswers].
  pose proof (scoreAnswer_config (resolveQuestionType questionTypeMapping qid) ans this)
    as (Hsame & _).
  pose proof (scoreAnswer_of_catalog (resolveQuestionType questionTypeMapping qid) ans
                this Hinv) as Hinv1.
  destruct (scoreAnswer _ ans this) as [[e | r] this1] eqn:Hrun; cbn [snd map fst In] in *.
  - intros Hin. rewrite <- Hsame. apply IH; assumption.
  - intros [<- | Hin]; [apply (scoreAnswer_scored_type _ _ _ _ _ Hinv Hrun)|].
    rewrite <- Hsame. apply IH; assumption.
Qed.

(** X29.  The scorer of a batch is built on the default catalog with the
    default epsilon and temperature, and ends the batch with them.  A
    question whose resolved question type is none of ["ease"], ["trust"] and
    ["__proto__"] is never in the result, and no question named
    ["__proto__"] is. *)
Theorem scoreAllAnswers_default_types
    (freeTextAnswers : list (string * string)) (provider : P)
    (questionTypeMapping : option (gmap string string)) :
  ∃ (res : SsrScoresResult) (scorer' : SsrScorer P),
    scoreAllAnswers freeTextAnswers provider questionTypeMapping = (inr res, scorer')
    ∧ anchorSets scorer' = DEFAULT_ANCHOR_SETS
    ∧ epsilon scorer' = 1e-8%R
    ∧ temperature scorer' = 1%R
    ∧ (∀ questionId : string,
         resolveQuestionType questionTypeMapping questionId ≠ "ease"%string →
         resolveQuestionType questionTypeMapping questionId ≠ "trust"%string →
         resolveQuestionType questionTypeMapping questionId ≠ "__proto__"%string →
         scores res !! questionId = None)
    ∧ scores res !! "__proto__"%string = None.
Proof.
  destruct (scoreAllAnswers_eq freeTextAnswers provider questionTypeMapping)
    as (scorer' & Hrun & (Hsets & Heps & Htemp)). cbv zeta in Hrun.
  eexists _, scorer'. split; [exact Hrun|].
  split; [exact Hsets|]. split; [exact Heps|]. split; [exact Htemp|].
  cbn [scores]. split; [|apply absorb_proto, lookup_empty].
  intros questionId Hease Htrust Hproto.
  rewrite absorb_not_in; [apply lookup_empty|].
  intros Hin.
  apply scoredAnswers_catalogued in Hin as [[sets Hsome] | Hin];
    [|contradiction|apply batchScorer_of_catalog].
  cbn [batchScorer new_SsrScorer anchorSets o_anchorSets default] in Hsome.
  rewrite DEFAULT_ANCHOR_SETS_other in Hsome by assumption. discriminate.
Qed.

End DefaultCatalog.

(** ** Examples on the stub provider *)

Section Examples.

Lemma Recording_conforming {P : Type} `{EmbeddingProvider P} (Inv : P → Prop) (d : nat) :
  conforming Inv d → conforming (λ rp : Recording P, Inv (inner rp)) d.
Proof.
  intros Hconf texts [p log] Hinv. cbn [inner] in Hinv.
  destruct (Hconf texts p Hinv) as (vs & p' & He & Hwf & Hinv').
  exists vs, {| inner := p'; calls := log ++ [texts] |}.
  cbn [embed Recording_provider inner calls]. rewrite He.
  split; [reflexivity|]. split; assumption.
Qed.

Lemma scoreAnswer_embedding_calls_witness :
  ∃ (r1 : ScoreResult) (this1 : SsrScorer (Recording StubProvider)),
    scoreAnswer "ease" "fine" recordingScorer = (inr r1, this1)
    ∧ (calls (provider this1)
       = calls (provider recordingScorer)
         ++ [Some "fine"%string]
            :: uncachedAnchorBatches "ease" easeSets
                 (anchorEmbeddingsCache recordingScorer) (seq 0 (length easeSets))
       ∧ Forall (λ batch : list text, length batch = 5%nat)
                (uncachedAnchorBatches "ease" easeSets
                   (anchorEmbeddingsCache recordingScorer) (seq 0 (length easeSets)))
       ∧ (anchorEmbeddingsCache recordingScorer = ∅ →
          uncachedAnchorBatches "ease" easeSets
            (anchorEmbeddingsCache recordingScorer) (seq 0 (length easeSets))
          = map anchorsOf easeSets)
       ∧ calls (provider (scoreAnswer "ease" "fine" this1).2)
         = calls (provider this1) ++ [[Some "fine"%string]]).
Proof.
  destruct (scoreAnswer_run (λ rp : Recording StubProvider, True) 2
              (Recording_conforming _ 2 Stub_conforming)
              "ease" "fine" easeSets recordingScorer)
    as (vs0 & this0 & dists & this1 & _ & _ & _ & _ & Hrun & _).
  - split; [exact I|]. intros key vs Hkey. discriminate.
  - reflexivity.
  - discriminate.
  - simpl. lra.
  - eexists _, this1. split; [exact Hrun|].
    apply (scoreAnswer_embedding_calls "ease" "fine" "fine" easeSets
             recordingScorer this1 _ eq_refl Hrun).
Defined.

(** The partial-failure scenario of the specification: of the two answers
    only ["ease"] is scored. *)
Example partial_failure_scenario :
  ∃ (res : SsrScoresResult) (scorer' : SsrScorer StubProvider) (sa : ScoredAnswer),
    scoreAllAnswers [("ease", "fine"); ("unknown_q", "text")]%string Stub None
    = (inr res, scorer')
    ∧ scores res = {[ "ease"%string := sa ]}
    ∧ answer sa = "fine"%string
    ∧ questionCount (summary res) = 1%nat.
Proof.
  destruct (scoreAnswer_run (λ _ : StubProvider, True) 2 Stub_conforming
              "ease" "fine" easeSets (batchScorer Stub))
    as (vs0 & this0 & dists & this1 & _ & _ & _ & _ & Hrun & _ & _ & (Hsets & _)).
  { exact stubScorer_ok. } { reflexivity. } { discriminate. } { simpl; lra. }
  assert (Hunknown : scoreAnswer "unknown_q" "text" this1
                     = (inl (UnknownQuestionType "unknown_q"), this1)).
  { apply scoreAnswer_uncatalogued; [rewrite Hsets; reflexivity | reflexivity]. }
  destruct (scoreAllAnswers_eq [("ease", "fine"); ("unknown_q", "text")]%string Stub None)
    as (scorer' & Hall & _). cbv zeta in Hall.
  cbn [scoredAnswers] in Hall.
  change (resolveQuestionType None "ease") with "ease"%string in Hall.
  change (resolveQuestionType None "unknown_q") with "unknown_q"%string in Hall.
  rewrite Hrun, Hunknown in Hall. cbn [foldl absorb l_scores fst snd] in Hall.
  rewrite assign_property_other in Hall by discriminate.
  eexists _, scorer', _. split; [exact Hall|]. cbn [scores summary questionCount answer].
  split; [reflexivity|]. split; [reflexivity|].
  rewrite insert_empty. apply map_size_singleton.
Qed.

(** When the backend is down no question is scored: the result is empty,
    both averages are [0] and the count is [0]. *)
Example all_failures_scenario :
  (scoreAllAnswers [("ease", "fine"); ("trust", "ok")]%string Down None).1
  = inr {| scores := ∅;
           summary := {| averageExpectedScore := Num 0;
                         averageEntropy := Num 0;
                         questionCount := 0 |} |}.
Proof. reflexivity. Qed.

End Examples.

(** * Further properties of the code *)

(** ** [SsrScorer]: errors, cache and shape of the result, for any provider *)

Section ScorerAnyProvider.

Context {P : Type} `{EmbeddingProvider P}.

Lemma provider_embed_error (texts : list text) (this this' : SsrScorer P) (e : error) :
  provider_embed texts this = (inl e, this') → ∃ failure, e = ProviderError failure.
Proof.
  unfold provider_embed.
  destruct (embed texts (provider this)) as [[failure | vs] p']; intros [= <- _].
  eexists; reflexivity.
Qed.

Lemma getAnchorEmbeddings_error (questionType : string) (i : nat)
    (sets : list AnchorSet) (this this' : SsrScorer P) (e : error) :
  anchorSets this !! questionType = Some sets →
  (i < length sets)%nat →
  getAnchorEmbeddings questionType i this = (inl e, this') →
  ∃ failure, e = ProviderError failure.
Proof.
  intros Hsets Hi. unfold getAnchorEmbeddings.
  destruct (anchorEmbeddingsCache this !! _); [discriminate|].
  rewrite Hsets. cbn [mbind option_bind].
  destruct (lookup_lt_is_Some_2 sets i Hi) as [anchorSet ->].
  unfold bind.
  destruct (provider_embed (anchorsOf anchorSet) this) as [[e' | vs] this1] eqn:Hpe;
    [|discriminate].
  intros [= <- _]. eapply provider_embed_error, Hpe.
Qed.

Lemma scoreLoop_error (questionType : string) (answerEmbedding : embedding)
    (sets : list AnchorSet) (indices : list nat) :
  Forall (λ i, (i < length sets)%nat) indices →
  ∀ (acc : list (list R)) (this this' : SsrScorer P) (e : error),
    anchorSets this !! questionType = Some sets →
    scoreLoop questionType answerEmbedding indices acc this = (inl e, this') →
    (∃ failure, e = ProviderError failure) ∨ e = DimensionMismatch ∨ e = TypeError.
Proof.
  induction 1 as [|i rest Hi _ IH]; intros acc this this' e Hsets; [discriminate|].
  cbn [scoreLoop]. unfold bind at 1.
  pose proof (getAnchorEmbeddings_config questionType i this) as (Hsame & _).
  destruct (getAnchorEmbeddings questionType i this) as [[e' | vs] this1] eqn:Hget.
  { intros [= <- _]. left. eapply getAnchorEmbeddings_error; eassumption. }
  unfold bind, lift.
  destruct (map_throwing _ vs) as [e' | sims] eqn:Hmap.
  { intros [= <- _]. right.
    apply map_throwing_error in Hmap as (x & _ & Hx).
    eapply cosineSimilarity_call_error, Hx. }
  apply IH. cbn [snd] in Hsame. rewrite Hsame. exact Hsets.
Qed.

Lemma getAnchorEmbeddings_error_any (questionType : string) (i : nat)
    (this this' : SsrScorer P) (e : error) :
  getAnchorEmbeddings questionType i this = (inl e, this') →
  (∃ failure, e = ProviderError failure) ∨ e = NoAnchorSetFound questionType i.
Proof.
  unfold getAnchorEmbeddings.
  destruct (anchorEmbeddingsCache this !! _); [discriminate|].
  destruct (anchorSets this !! questionType ≫= _) as [anchorSet|];
    [|intros [= <- _]; right; reflexivity].
  unfold bind.
  destruct (provider_embed (anchorsOf anchorSet) this) as [[e' | vs] this1] eqn:Hpe;
    [|discriminate].
  intros [= <- _]. left. eapply provider_embed_error, Hpe.
Qed.

Lemma scoreLoop_error_any (questionType : string) (answerEmbedding : embedding)
    (indices : list nat) :
  ∀ (acc : list (list R)) (this this' : SsrScorer P) (e : error),
    scoreLoop questionType answerEmbedding indices acc this = (inl e, this') →
    (∃ failure, e = ProviderError failure) ∨ e = DimensionMismatch ∨ e = TypeError
    ∨ ∃ i, e = NoAnchorSetFound questionType i.
Proof.
  induction indices as [|i rest IH]; intros acc this this' e; [discriminate|].
  cbn [scoreLoop]. unfold bind at 1.
  destruct (getAnchorEmbeddings questionType i this) as [[e' | vs] this1] eqn:Hget.
  { intros [= <- _].
    destruct (getAnchorEmbeddings_error_any _ _ _ _ _ Hget) as [? | ?]; eauto 6. }
  unfold bind, lift.
  destruct (map_throwing _ vs) as [e' | sims] eqn:Hmap.
  { intros [= <- _]. right.
    apply map_throwing_error in Hmap as (x & _ & Hx).
    destruct (cosineSimilarity_call_error _ _ _ Hx); tauto. }
  apply IH.
Qed.

(** X7.  The errors of [scoreAnswer]: the unknown-type error for the
    question type it was called with, a failure of the provider, the
    dimension mismatch of [cosineSimilarity], the [TypeError] of a missing
    vector, or the error of [getAnchorEmbeddings] for a missing anchor set
    of that question type.  The last one cannot come out of [scoreAnswer]
    when the question type is an own entry of the catalog. *)
Theorem scoreAnswer_errors (questionType freeTextAnswer : string)
    (this this' : SsrScorer P) (e : error) :
  scoreAnswer questionType freeTextAnswer this = (inl e, this') →
  (e = UnknownQuestionType questionType
   ∨ (∃ failure, e = ProviderError failure)
   ∨ e = DimensionMismatch
   ∨ e = TypeError
   ∨ ∃ i, e = NoAnchorSetFound questionType i)
  ∧ (is_Some (anchorSets this !! questionType) →
     ∀ (qt : string) (i : nat), e ≠ NoAnchorSetFound qt i).
Proof.
  intros Hrun. split.
  - revert Hrun.
    destruct (scoreAnswer_cases questionType freeTextAnswer this) as [-> | [len ->]];
      [intros [= <- _]; left; reflexivity|].
    unfold scoreAnswer_body, bind at 1.
    destruct (provider_embed [Some freeTextAnswer] this) as [[e' | answer] this1] eqn:Hpe.
    { intros [= <- _]. right. left. eapply provider_embed_error, Hpe. }
    unfold bind at 1.
    destruct (scoreLoop questionType (mjoin (head answer)) (indices_below len) [] this1)
      as [[e' | dists] this2] eqn:Hloop; [|discriminate].
    intros [= <- _]. right.
    destruct (scoreLoop_error_any _ _ _ _ _ _ _ Hloop) as [? | [? | [? | ?]]]; tauto.
  - intros [sets Hsets]. revert Hrun. rewrite (scoreAnswer_own _ _ _ _ Hsets).
    destruct sets as [|set0 sets']; [intros [= <- _]; discriminate|].
    unfold bind at 1.
    pose proof (provider_embed_config [Some freeTextAnswer] this) as (Hsame & _).
    destruct (provider_embed [Some freeTextAnswer] this) as [[e' | answer] this1] eqn:Hpe.
    { intros [= <- _] qt i ->. apply provider_embed_error in Hpe as [? ?]. discriminate. }
    unfold bind at 1.
    destruct (scoreLoop questionType (mjoin (head answer))
                (seq 0 (length (set0 :: sets'))) [] this1)
      as [[e' | dists] this2] eqn:Hloop; [|discriminate].
    intros [= <- _] qt i ->.
    assert (Hkinds : (∃ failure, NoAnchorSetFound qt i = ProviderError failure)
                     ∨ NoAnchorSetFound qt i = DimensionMismatch
                     ∨ NoAnchorSetFound qt i = TypeError).
    { eapply (scoreLoop_error _ _ (set0 :: sets')); [| |exact Hloop].
      - apply Forall_forall. intros j Hj. apply list_elem_of_In, in_seq in Hj. lia.
      - cbn [snd] in Hsame. rewrite Hsame. exact Hsets. }
    destruct Hkinds as [[? ?] | [? | ?]]; discriminate.
Qed.

End ScorerAnyProvider.

Lemma scoreAnswer_errors_witness :
  (ProviderError "503" = UnknownQuestionType "ease"
   ∨ (∃ failure, ProviderError "503" = ProviderError failure)
   ∨ ProviderError "503" = DimensionMismatch
   ∨ ProviderError "503" = TypeError
   ∨ ∃ i, ProviderError "503" = NoAnchorSetFound "ease" i)
  ∧ (is_Some (anchorSets (batchScorer Down) !! "ease"%string) →
     ∀ (qt : string) (i : nat), ProviderError "503" ≠ NoAnchorSetFound qt i).
Proof.
  apply (scoreAnswer_errors "ease" "fine" (batchScorer Down) (batchScorer Down)).
  reflexivity.
Defined.

Section ScorerCache.

Context {P : Type} `{EmbeddingProvider P}.

Lemma getAnchorEmbeddings_keeps (questionType : string) (i : nat) (this : SsrScorer P)
    (key : string) (vs : list embedding) :
  anchorEmbeddingsCache this !! key = Some vs →
  anchorEmbeddingsCache (getAnchorEmbeddings questionType i this).2 !! key = Some vs.
Proof.
  intros Hkey. destruct (decide (key = cacheKey questionType i)) as [-> | Hne].
  - rewrite (getAnchorEmbeddings_hit _ _ _ _ Hkey). exact Hkey.
  - destruct (getAnchorEmbeddings_cache questionType i this) as (Hother & _).
    rewrite (Hother key Hne). exact Hkey.
Qed.

Lemma scoreLoop_keeps (questionType : string) (answerEmbedding : embedding)
    (indices : list nat) (key : string) (vs : list embedding) :
  ∀ (acc : list (list R)) (this : SsrScorer P),
    anchorEmbeddingsCache this !! key = Some vs →
    anchorEmbeddingsCache (scoreLoop questionType answerEmbedding indices acc this).2
      !! key = Some vs.
Proof.
  induction indices as [|i rest IH]; intros acc this Hkey; [exact Hkey|].
  cbn [scoreLoop]. unfold bind at 1.
  pose proof (getAnchorEmbeddings_keeps questionType i this key vs Hkey) as Hkeep.
  destruct (getAnchorEmbeddings questionType i this) as [[e | avs] this1]; [exact Hkeep|].
  unfold bind, lift. destruct (map_throwing _ avs) as [e | sims]; [exact Hkeep|].
  apply IH, Hkeep.
Qed.

(** X8.  [scoreAnswer] only ever adds to the cache of anchor embeddings:
    whatever the provider does and however the call ends, an entry that was
    in the cache is still there, unchanged; and the catalog, epsilon and
    temperature of the scorer are what they were. *)
Theorem scoreAnswer_cache_grows (questionType freeTextAnswer : string)
    (this : SsrScorer P) (key : string) (vs : list embedding) :
  anchorEmbeddingsCache this !! key = Some vs →
  anchorEmbeddingsCache (scoreAnswer questionType freeTextAnswer this).2 !! key = Some vs
  ∧ same_config this (scoreAnswer questionType freeTextAnswer this).2.
Proof.
  intros Hkey. split; [|apply scoreAnswer_config].
  destruct (scoreAnswer_cases questionType freeTextAnswer this) as [-> | [len ->]];
    [exact Hkey|].
  unfold scoreAnswer_body, bind at 1.
  pose proof (provider_embed_cache [Some freeTextAnswer] this) as Hc.
  destruct (provider_embed [Some freeTextAnswer] this) as [[e | answer] this1];
    cbn [snd] in *; [rewrite Hc; exact Hkey|].
  rewrite bind_state by reflexivity.
  apply scoreLoop_keeps. rewrite Hc. exact Hkey.
Qed.

Lemma accumulate_length (count : nat) (avg : list num) (dist : list R) :
  length (accumulate count avg dist) = length avg.
Proof.
  unfold accumulate. generalize (seq 0 5). intros indices. revert avg.
  induction indices as [|i rest IH]; intros avg; [reflexivity|].
  cbn [foldl]. rewrite IH. apply length_insert.
Qed.

Lemma averageDistributions_length (distributions : list (list R)) :
  length (averageDistributions distributions) = 5%nat.
Proof.
  unfold averageDistributions. generalize (length distributions). intros count.
  assert (Hgen : ∀ avg, length (foldl (accumulate count) avg distributions) = length avg).
  { induction distributions as [|dist rest IH]; intros avg; [reflexivity|].
    cbn [foldl]. rewrite IH. apply accumulate_length. }
  rewrite Hgen. reflexivity.
Qed.

(** X9.  Every result of [scoreAnswer], whatever the provider returned, has
    a distribution of exactly five entries.  On a question type that is an
    own entry of the catalog it counts the anchor sets of that entry, which
    is not empty. *)
Theorem scoreAnswer_result_shape (questionType freeTextAnswer : string)
    (this this' : SsrScorer P) (r : ScoreResult) :
  scoreAnswer questionType freeTextAnswer this = (inr r, this') →
  length (distribution r) = 5%nat
  ∧ ∀ sets : list AnchorSet,
      anchorSets this !! questionType = Some sets →
      anchorSetCount r = length sets ∧ (1 ≤ length sets)%nat.
Proof.
  intros Hrun. split.
  - revert Hrun.
    destruct (scoreAnswer_cases questionType freeTextAnswer this) as [-> | [len ->]];
      [discriminate|].
    unfold scoreAnswer_body, bind at 1.
    destruct (provider_embed [Some freeTextAnswer] this) as [[e | answer] this1];
      [discriminate|].
    unfold bind at 1.
    destruct (scoreLoop _ _ _ _ this1) as [[e | dists] this2]; [discriminate|].
    intros [= <- _]. apply averageDistributions_length.
  - intros sets Hsets. revert Hrun. rewrite (scoreAnswer_own _ _ _ _ Hsets).
    destruct sets as [|set0 sets']; [discriminate|].
    unfold bind at 1.
    destruct (provider_embed [Some freeTextAnswer] this) as [[e | answer] this1];
      [discriminate|].
    unfold bind at 1.
    destruct (scoreLoop _ _ _ _ this1) as [[e | dists] this2]; [discriminate|].
    intros [= <- _]. cbn [anchorSetCount length]. split; [reflexivity | lia].
Qed.

End ScorerCache.

Lemma scoreAnswer_cache_grows_witness :
  anchorEmbeddingsCache
    (scoreAnswer "trust" "fine" (with_cache {[ "ease:0"%string := [] ]} stubScorer)).2
    !! "ease:0"%string = Some []
  ∧ same_config (with_cache {[ "ease:0"%string := [] ]} stubScorer)
      (scoreAnswer "trust" "fine" (with_cache {[ "ease:0"%string := [] ]} stubScorer)).2.
Proof.
  apply (scoreAnswer_cache_grows "trust" "fine"
           (with_cache {[ "ease:0"%string := [] ]} stubScorer) "ease:0" []).
  reflexivity.
Defined.

Lemma scoreAnswer_result_shape_witness :
  ∃ (r : ScoreResult) (this' : SsrScorer StubProvider),
    scoreAnswer "ease" "fine" stubScorer = (inr r, this')
    ∧ length (distribution r) = 5%nat
    ∧ ∀ sets : list AnchorSet,
        anchorSets stubScorer !! "ease" = Some sets →
        anchorSetCount r = length sets ∧ (1 ≤ length sets)%nat.
Proof.
  destruct (scoreAnswer_run (λ _ : StubProvider, True) 2 Stub_conforming
              "ease" "fine" easeSets stubScorer stubScorer_ok stubScorer_ease
              easeSets_nonempty stubScorer_epsilon)
    as (vs0 & this0 & dists & this1 & _ & _ & _ & _ & Hrun & _).
  eexists _, this1. split; [exact Hrun|].
  apply (scoreAnswer_result_shape "ease" "fine" stubScorer this1 _ Hrun).
Defined.

(** ** [SsrScorer]: the cache does not change results *)

Section CacheTransparency.

Context {P : Type} `{EmbeddingProvider P}.
Variable f : list text → list embedding.
Hypothesis Hdet : deterministic f.

Lemma provider_embed_det (texts : list text) (this : SsrScorer P) :
  ∃ this' : SsrScorer P,
    provider_embed texts this = (inr (f texts), this')
    ∧ anchorEmbeddingsCache this' = anchorEmbeddingsCache this
    ∧ same_config this this'.
Proof.
  destruct (Hdet texts (provider this)) as [p' He].
  exists (with_provider p' this). unfold provider_embed. rewrite He.
  repeat split.
Qed.

Lemma getAnchorEmbeddings_det (questionType : string) (i : nat)
    (sets : list AnchorSet) (anchorSet : AnchorSet) (this : SsrScorer P) :
  cache_consistent f this →
  anchorSets this !! questionType = Some sets →
  sets !! i = Some anchorSet →
  ∃ this' : SsrScorer P,
    getAnchorEmbeddings questionType i this = (inr (f (anchorsOf anchorSet)), this')
    ∧ cache_consistent f this'
    ∧ same_config this this'.
Proof.
  intros Hcons Hsets Hset. unfold getAnchorEmbeddings.
  destruct (anchorEmbeddingsCache this !! cacheKey questionType i) as [cached|] eqn:Hhit.
  - destruct (Hcons _ _ _ Hhit) as (sets' & set' & Hs' & Hset' & ->).
    rewrite Hsets in Hs'. injection Hs' as <-. rewrite Hset in Hset'. injection Hset' as <-.
    exists this. split; [reflexivity|]. split; [exact Hcons | apply same_config_refl].
  - rewrite Hsets. cbn [mbind option_bind]. rewrite Hset.
    destruct (provider_embed_det (anchorsOf anchorSet) this) as (this1 & He & Hc & Hcfg).
    rewrite (bind_inr _ _ _ _ _ He).
    eexists. split; [reflexivity|]. split; [|exact Hcfg].
    intros qt j vs. cbn [anchorEmbeddingsCache anchorSets with_cache].
    destruct Hcfg as (Hsame & _). rewrite Hsame.
    destruct (decide (cacheKey questionType i = cacheKey qt j)) as [Heq | Hne].
    + rewrite <- Heq, lookup_insert_eq. intros [= <-].
      apply cacheKey_inj in Heq as [<- <-]. eauto.
    + rewrite lookup_insert_ne by exact Hne. rewrite Hc. apply Hcons.
Qed.

(** Two scorers with the same configuration and consistent caches run the
    loop to the same outcome. *)
Lemma scoreLoop_det (questionType : string) (answerEmbedding : embedding)
    (sets : list AnchorSet) (indices : list nat) :
  Forall (λ i, (i < length sets)%nat) indices →
  ∀ (acc : list (list R)) (this1 this2 : SsrScorer P),
    same_config this1 this2 →
    cache_consistent f this1 → cache_consistent f this2 →
    anchorSets this1 !! questionType = Some sets →
    (scoreLoop questionType answerEmbedding indices acc this1).1
    = (scoreLoop questionType answerEmbedding indices acc this2).1
    ∧ cache_consistent f (scoreLoop questionType answerEmbedding indices acc this1).2.
Proof.
  induction 1 as [|i rest Hi _ IH]; intros acc this1 this2 Hcfg Hc1 Hc2 Hsets.
  - split; [reflexivity | exact Hc1].
  - destruct (lookup_lt_is_Some_2 sets i Hi) as [anchorSet Hset].
    assert (Hsets2 : anchorSets this2 !! questionType = Some sets)
      by (destruct Hcfg as (-> & _); exact Hsets).
    destruct (getAnchorEmbeddings_det _ _ _ _ _ Hc1 Hsets Hset)
      as (this1' & Hg1 & Hc1' & Hcfg1).
    destruct (getAnchorEmbeddings_det _ _ _ _ _ Hc2 Hsets2 Hset)
      as (this2' & Hg2 & Hc2' & Hcfg2).
    cbn [scoreLoop].
    rewrite (bind_inr _ _ _ _ _ Hg1), (bind_inr _ _ _ _ _ Hg2).
    unfold bind, lift.
    destruct (map_throwing _ (f (anchorsOf anchorSet))) as [e | sims];
      [split; [reflexivity | exact Hc1']|].
    assert (Hcfg' : same_config this1' this2').
    { destruct Hcfg as (Ha & Hb & Hc), Hcfg1 as (Ha1 & Hb1 & Hc1''),
               Hcfg2 as (Ha2 & Hb2 & Hc2'').
      repeat split; congruence. }
    destruct Hcfg' as (Ha & Hb & Hc).
    rewrite <- Hb, <- Hc.
    apply IH; [repeat split; congruence | exact Hc1' | exact Hc2'|].
    destruct Hcfg1 as (-> & _). exact Hsets.
Qed.

Lemma cache_consistent_of_catalog (this : SsrScorer P) :
  cache_consistent f this → cache_of_catalog this.
Proof.
  intros Hcons questionType i [vs Hvs].
  destruct (Hcons _ _ _ Hvs) as (sets & _ & Hsets & _). eauto.
Qed.

Lemma scoreAnswer_det (questionType freeTextAnswer : string)
    (this1 this2 : SsrScorer P) :
  same_config this1 this2 →
  cache_consistent f this1 → cache_consistent f this2 →
  (scoreAnswer questionType freeTextAnswer this1).1
  = (scoreAnswer questionType freeTextAnswer this2).1
  ∧ cache_consistent f (scoreAnswer questionType freeTextAnswer this1).2.
Proof.
  intros Hcfg Hc1 Hc2.
  pose proof Hcfg as (Hsame & _).
  destruct (provider_embed_det [Some freeTextAnswer] this1) as (s1 & He1 & Hca1 & Hcfg1).
  destruct (provider_embed_det [Some freeTextAnswer] this2) as (s2 & He2 & Hca2 & Hcfg2).
  assert (Hcfg' : same_config s1 s2).
  { destruct Hcfg as (Ha & Hb & Hc), Hcfg1 as (Ha1 & Hb1 & Hc1'),
             Hcfg2 as (Ha2 & Hb2 & Hc2').
    repeat split; congruence. }
  assert (Hcs1 : cache_consistent f s1).
  { intros qt j vs. rewrite Hca1. destruct Hcfg1 as (-> & _). apply Hc1. }
  assert (Hcs2 : cache_consistent f s2).
  { intros qt j vs. rewrite Hca2. destruct Hcfg2 as (-> & _). apply Hc2. }
  destruct (anchorSets this1 !! questionType) as [sets|] eqn:Hsets.
  - assert (Hsets2 : anchorSets this2 !! questionType = Some sets)
      by (rewrite Hsame; exact Hsets).
    rewrite (scoreAnswer_own _ _ _ _ Hsets), (scoreAnswer_own _ _ _ _ Hsets2).
    destruct sets as [|set0 sets']; [split; [reflexivity | exact Hc1]|].
    rewrite (bind_inr _ _ _ _ _ He1), (bind_inr _ _ _ _ _ He2).
    assert (Hs1 : anchorSets s1 !! questionType = Some (set0 :: sets'))
      by (destruct Hcfg1 as (-> & _); exact Hsets).
    destruct (scoreLoop_det questionType (mjoin (head (f [Some freeTextAnswer])))
                (set0 :: sets') (seq 0 (length (set0 :: sets')))
                ltac:(apply Forall_forall; intros i Hi;
                      apply list_elem_of_In, in_seq in Hi; lia)
                [] s1 s2 Hcfg' Hcs1 Hcs2 Hs1) as (Hout & Hcons).
    unfold bind.
    destruct (scoreLoop _ _ _ _ s1) as [[e1 | d1] t1],
             (scoreLoop _ _ _ _ s2) as [[e2 | d2] t2]; cbn [fst snd] in *;
      try discriminate; (split; [|exact Hcons]).
    + congruence.
    + injection Hout as <-. reflexivity.
  - assert (Hsets2 : anchorSets this2 !! questionType = None)
      by (rewrite Hsame; exact Hsets).
    destruct (inherited_property questionType) as [[name [|n] | ]|] eqn:Hinherited.
    + rewrite (scoreAnswer_not_own _ _ _ Hsets), (scoreAnswer_not_own _ _ _ Hsets2),
        Hinherited.
      split; [reflexivity | exact Hc1].
    + rewrite (scoreAnswer_inherited_method _ _ _ _ _ Hsets Hinherited
                 (cache_consistent_of_catalog _ Hc1)),
        (scoreAnswer_inherited_method _ _ _ _ _ Hsets2 Hinherited
           (cache_consistent_of_catalog _ Hc2)), He1, He2.
      split; [reflexivity | exact Hcs1].
    + rewrite (scoreAnswer_not_own _ _ _ Hsets), (scoreAnswer_not_own _ _ _ Hsets2),
        Hinherited.
      rewrite (bind_inr _ _ _ _ _ He1), (bind_inr _ _ _ _ _ He2).
      split; [reflexivity | exact Hcs1].
    + rewrite (scoreAnswer_not_own _ _ _ Hsets), (scoreAnswer_not_own _ _ _ Hsets2),
        Hinherited.
      split; [reflexivity | exact Hc1].
Qed.

(** X10.  With a provider whose embeddings are deterministic, the cache is
    invisible in the results: on a scorer whose cache came from that
    provider, the outcome of [scoreAnswer] is the same after any earlier
    call of [scoreAnswer], and the same after [clearCache]; and the cache
    the call leaves again came from that provider. *)
Theorem scoreAnswer_cache_transparent
    (questionType freeTextAnswer earlierType earlierAnswer : string)
    (this : SsrScorer P) :
  cache_consistent f this →
  (scoreAnswer questionType freeTextAnswer
     (scoreAnswer earlierType earlierAnswer this).2).1
  = (scoreAnswer questionType freeTextAnswer this).1
  ∧ (scoreAnswer questionType freeTextAnswer (clearCache this).2).1
    = (scoreAnswer questionType freeTextAnswer this).1
  ∧ cache_consistent f (scoreAnswer questionType freeTextAnswer this).2.
Proof.
  intros Hcons.
  destruct (scoreAnswer_det earlierType earlierAnswer this this
              (same_config_refl this) Hcons Hcons) as (_ & Hearlier).
  pose proof (scoreAnswer_config earlierType earlierAnswer this) as Hcfg.
  assert (Hempty : cache_consistent f (clearCache this).2).
  { intros qt j vs Hkey. cbn in Hkey. discriminate. }
  split; [|split].
  - symmetry. apply scoreAnswer_det; assumption.
  - symmetry. apply scoreAnswer_det; [repeat split | exact Hcons | exact Hempty].
  - apply (scoreAnswer_det _ _ this this (same_config_refl this) Hcons Hcons).
Qed.

End CacheTransparency.

Lemma Stub_deterministic : deterministic (P := StubProvider) stubAnswer.
Proof. intros texts []. exists Stub. reflexivity. Qed.

Lemma scoreAnswer_cache_transparent_witness :
  (scoreAnswer "ease" "fine" (scoreAnswer "trust" "ok" stubScorer).2).1
  = (scoreAnswer "ease" "fine" stubScorer).1
  ∧ (scoreAnswer "ease" "fine" (clearCache stubScorer).2).1
    = (scoreAnswer "ease" "fine" stubScorer).1
  ∧ cache_consistent stubAnswer (scoreAnswer "ease" "fine" stubScorer).2.
Proof.
  apply (scoreAnswer_cache_transparent stubAnswer Stub_deterministic
           "ease" "fine" "trust" "ok" stubScorer).
  intros qt j vs Hkey. discriminate.
Defined.

(** ** [clearCache] *)

Section ClearCache.

Context {P : Type} `{EmbeddingProvider P}.

(** The requests of a call that returns a result. *)
Lemma scoreAnswer_requests (questionType freeTextAnswer : string)
    (sets : list AnchorSet) (this this' : SsrScorer (Recording P)) (r : ScoreResult) :
  anchorSets this !! questionType = Some sets →
  scoreAnswer questionType freeTextAnswer this = (inr r, this') →
  calls (provider this')
  = calls (provider this)
    ++ [Some freeTextAnswer]
       :: uncachedAnchorBatches questionType sets (anchorEmbeddingsCache this)
            (seq 0 (length sets)).
Proof.
  intros Hsets Hrun. rewrite (scoreAnswer_own _ _ _ _ Hsets) in Hrun.
  destruct sets as [|set0 sets']; [discriminate|].
  unfold bind at 1 in Hrun.
  destruct (provider_embed_recorded [Some freeTextAnswer] this) as (Hcalls0 & Hc0 & Hcfg0).
  destruct (provider_embed [Some freeTextAnswer] this) as [[e | answer] this0];
    [discriminate|]. cbn [fst snd] in *.
  unfold bind at 1 in Hrun.
  destruct (scoreLoop questionType (mjoin (head answer))
              (seq 0 (length (set0 :: sets'))) [] this0)
    as [[e | dists] this1] eqn:Hloop; [discriminate|].
  injection Hrun as _ <-.
  assert (Hsets0 : anchorSets this0 !! questionType = Some (set0 :: sets'))
    by (destruct Hcfg0 as (-> & _); exact Hsets).
  destruct (scoreLoop_recorded questionType _ (set0 :: sets') _
              (proj2 (NoDup_ListNoDup _) (List.seq_NoDup _ _))
              _ _ _ _ Hsets0 Hloop) as (Hcalls & _).
  rewrite Hcalls, Hcalls0, Hc0, <- app_assoc. reflexivity.
Qed.

(** X11.  After [clearCache] the cache is empty, and the next call of
    [scoreAnswer] that returns a result has requested the answer and then
    the anchors of every anchor set of the question type again, in order. *)
Theorem clearCache_refetches (questionType freeTextAnswer : string)
    (sets : list AnchorSet) (this this' : SsrScorer (Recording P)) (r : ScoreResult) :
  anchorSets this !! questionType = Some sets →
  scoreAnswer questionType freeTextAnswer (clearCache this).2 = (inr r, this') →
  anchorEmbeddingsCache (clearCache this).2 = ∅
  ∧ calls (provider this')
    = calls (provider this) ++ [Some freeTextAnswer] :: map anchorsOf sets.
Proof.
  intros Hsets Hrun. split; [reflexivity|].
  rewrite (scoreAnswer_requests questionType freeTextAnswer sets
             (clearCache this).2 this' r Hsets Hrun).
  cbn [clearCache snd provider anchorEmbeddingsCache with_cache].
  rewrite batches_fresh. reflexivity.
Qed.

End ClearCache.

Lemma clearCache_refetches_witness :
  ∃ (r : ScoreResult) (this' : SsrScorer (Recording StubProvider)),
    scoreAnswer "ease" "fine" (clearCache recordingScorer).2 = (inr r, this')
    ∧ anchorEmbeddingsCache (clearCache recordingScorer).2 = ∅
    ∧ calls (provider this')
      = calls (provider recordingScorer)
        ++ [Some "fine"%string] :: map anchorsOf easeSets.
Proof.
  destruct (scoreAnswer_run (λ rp : Recording StubProvider, True) 2
              (Recording_conforming _ 2 Stub_conforming)
              "ease" "fine" easeSets (clearCache recordingScorer).2)
    as (vs0 & this0 & dists & this1 & _ & _ & _ & _ & Hrun & _).
  - split; [exact I|]. intros key vs Hkey. discriminate.
  - reflexivity.
  - discriminate.
  - simpl. lra.
  - eexists _, this1. split; [exact Hrun|].
    apply (clearCache_refetches "ease" "fine" easeSets recordingScorer this1 _
             eq_refl Hrun).
Defined.

(** ** [scoreAllAnswers]: what a batch contains *)

Section BatchContents.

Context {P : Type} `{EmbeddingProvider P}.
Variable questionTypeMapping : option (gmap string string).

Lemma absorb_lookup_In (scored : list (string * ScoredAnswer)) :
  ∀ (locals : BatchLocals) (questionId : string) (sa : ScoredAnswer),
    l_scores (foldl absorb locals scored) !! questionId = Some sa →
    In (questionId, sa) scored ∨ l_scores locals !! questionId = Some sa.
Proof.
  induction scored as [|[qid sa0] scored IH]; intros locals questionId sa;
    [intros; right; assumption|].
  cbn [foldl]. intros Hl. apply IH in Hl as [Hin | Hl]; [left; right; exact Hin|].
  cbn [absorb l_scores fst snd] in Hl. unfold assign_property in Hl.
  destruct (decide (qid = "__proto__"%string)) as [_ | _]; [right; exact Hl|].
  destruct (decide (qid = questionId)) as [-> | Hne].
  - rewrite lookup_insert_eq in Hl. injection Hl as ->. left. left. reflexivity.
  - rewrite lookup_insert_ne in Hl by exact Hne. right. exact Hl.
Qed.

Lemma absorb_size_le (scored : list (string * ScoredAnswer)) :
  ∀ locals : BatchLocals,
    (size (l_scores (foldl absorb locals scored))
     ≤ size (l_scores locals) + length scored)%nat.
Proof.
  induction scored as [|[qid sa0] scored IH]; intros locals; [cbn; lia|].
  cbn [foldl length]. etransitivity; [apply IH|].
  cbn [absorb l_scores fst snd]. unfold assign_property.
  destruct (decide (qid = "__proto__"%string)) as [_ | _]; [lia|].
  destruct (l_scores locals !! qid) eqn:Hq.
  - rewrite map_size_insert_Some by (eexists; exact Hq). lia.
  - rewrite map_size_insert_None by exact Hq. lia.
Qed.

Lemma scoredAnswers_length (entries : list (string * string)) :
  ∀ this : SsrScorer P,
    (length (scoredAnswers questionTypeMapping entries this) ≤ length entries)%nat.
Proof.
  induction entries as [|[qid ans] rest IH]; intros this; [reflexivity|].
  cbn [scoredAnswers length].
  destruct (scoreAnswer _ ans this) as [[e | r] this1]; cbn [length];
    specialize (IH this1); lia.
Qed.

(** X12.  Whatever the provider does, a batch result only holds questions
    that were asked, each with the answer text it was given, and it never
    counts more questions than there were answers. *)
Theorem scoreAllAnswers_only_asked
    (freeTextAnswers : list (string * string)) (provider : P) :
  ∃ (res : SsrScoresResult) (scorer' : SsrScorer P),
    scoreAllAnswers freeTextAnswers provider questionTypeMapping = (inr res, scorer')
    ∧ (∀ questionId sa,
         scores res !! questionId = Some sa →
         In (questionId, answer sa) freeTextAnswers)
    ∧ (questionCount (summary res) ≤ length freeTextAnswers)%nat.
Proof.
  destruct (scoreAllAnswers_eq freeTextAnswers provider questionTypeMapping)
    as (scorer' & Hrun & _). cbv zeta in Hrun.
  eexists _, scorer'. split; [exact Hrun|].
  cbn [scores summary questionCount]. split.
  - intros questionId sa Hl. apply absorb_lookup_In in Hl as [Hin | Hl].
    + eapply scoredAnswers_In, Hin.
    + cbn in Hl. discriminate.
  - etransitivity; [apply absorb_size_le|]. cbn [l_scores].
    rewrite map_size_empty. cbn [Nat.add]. apply scoredAnswers_length.
Qed.

Lemma scoredAnswers_failing (entries : list (string * string)) :
  always_failing →
  ∀ this : SsrScorer P, scoredAnswers questionTypeMapping entries this = [].
Proof.
  intros Hfail. induction entries as [|[qid ans] rest IH]; intros this; [reflexivity|].
  cbn [scoredAnswers].
  destruct (scoreAnswer (resolveQuestionType questionTypeMapping qid) ans this)
    as [[e | r] this1] eqn:Hrun; [apply IH|].
  exfalso. revert Hrun.
  destruct (scoreAnswer_cases (resolveQuestionType questionTypeMapping qid) ans this)
    as [-> | [len ->]]; [discriminate|].
  unfold scoreAnswer_body, bind at 1, provider_embed.
  destruct (Hfail [Some ans] (provider this)) as (failure & p' & ->). discriminate.
Qed.

(** X13.  When the provider rejects every request the batch still returns:
    the result is empty, both averages are [0] and the count is [0]. *)
Theorem scoreAllAnswers_provider_down
    (freeTextAnswers : list (string * string)) (provider : P) :
  always_failing →
  (scoreAllAnswers freeTextAnswers provider questionTypeMapping).1 = inr emptyScores.
Proof.
  intros Hfail.
  destruct (scoreAllAnswers_eq freeTextAnswers provider questionTypeMapping)
    as (scorer' & Hrun & _). cbv zeta in Hrun.
  rewrite (scoredAnswers_failing _ Hfail) in Hrun. rewrite Hrun. reflexivity.
Qed.

End BatchContents.

Lemma Down_always_failing : always_failing (P := DownProvider).
Proof. intros texts []. exists "503"%string, Down. reflexivity. Qed.

Lemma scoreAllAnswers_provider_down_witness :
  (scoreAllAnswers [("ease", "fine"); ("q7", "slow")]%string Down
     (Some {[ "q7"%string := "trust"%string ]})).1 = inr emptyScores.
Proof.
  apply (scoreAllAnswers_provider_down (Some {[ "q7"%string := "trust"%string ]})
           [("ease", "fine"); ("q7", "slow")]%string Down).
  exact Down_always_failing.
Defined.

(** ** [scoreAllAnswers] against a provider that honours its contract *)

Section HealthyBatch.

Context {P : Type} `{EmbeddingProvider P}.
Variable Inv : P → Prop.
Variable d : nat.
Hypothesis Hconf : conforming Inv d.
Variable questionTypeMapping : option (gmap string string).

Lemma DEFAULT_ANCHOR_SETS_catalogued (questionId : string) :
  catalogued questionTypeMapping questionId →
  ∃ sets : list AnchorSet,
    DEFAULT_ANCHOR_SETS !! resolveQuestionType questionTypeMapping questionId = Some sets
    ∧ sets ≠ [].
Proof.
  intros [-> | ->]; (eexists; split; [reflexivity | discriminate]).
Qed.

(** On the name [__proto__] a scorer on the default catalog returns a
    result as soon as the provider answers. *)
Lemma scoreAnswer_run_proto (freeTextAnswer : string) (this : SsrScorer P) :
  scorer_ok Inv d this →
  anchorSets this = DEFAULT_ANCHOR_SETS →
  ∃ (r : ScoreResult) (this' : SsrScorer P),
    scoreAnswer "__proto__" freeTextAnswer this = (inr r, this')
    ∧ anchorSetCount r = Undefined
    ∧ scorer_ok Inv d this'
    ∧ same_config this this'.
Proof.
  intros [Hinv Hcache] Hcat.
  assert (Hnone : anchorSets this !! "__proto__"%string = None)
    by (rewrite Hcat; reflexivity).
  rewrite (scoreAnswer_not_own _ _ _ Hnone).
  change (inherited_property "__proto__") with (Some PrototypeObject).
  destruct (provider_embed_ok Inv d Hconf [Some freeTextAnswer] this Hinv)
    as (vs & this' & He & _ & Hinv' & Hcfg & Hc).
  rewrite (bind_inr _ _ _ _ _ He).
  eexists _, this'. split; [reflexivity|]. split; [reflexivity|].
  split; [|exact Hcfg]. split; [exact Hinv' | rewrite Hc; exact Hcache].
Qed.

Lemma scoredAnswers_healthy (entries : list (string * string)) :
  ∀ this : SsrScorer P,
    scorer_ok Inv d this →
    cache_of_catalog this →
    anchorSets this = DEFAULT_ANCHOR_SETS →
    0 <= epsilon this →
    ∀ questionId,
      In questionId (map fst (scoredAnswers questionTypeMapping entries this))
      ↔ In questionId (map fst entries)
        ∧ (catalogued questionTypeMapping questionId
           ∨ resolveQuestionType questionTypeMapping questionId = "__proto__"%string).
Proof.
  induction entries as [|[qid ans] rest IH]; intros this Hok Hof Hcat Heps questionId.
  - cbn; tauto.
  - cbn [scoredAnswers].
    pose proof (scoreAnswer_of_catalog (resolveQuestionType questionTypeMapping qid) ans
                  this Hof) as Hof'.
    destruct (decide (catalogued questionTypeMapping qid)) as [Hin | Hout].
    + destruct (DEFAULT_ANCHOR_SETS_catalogued qid Hin) as (sets & Hsets & Hne).
      rewrite <- Hcat in Hsets.
      destruct (scoreAnswer_run Inv d Hconf _ ans sets this Hok Hsets Hne Heps)
        as (vs0 & this1 & dists & this' & _ & _ & _ & _ & Hrun & _ & Hok'
            & (Hsame & Hepsame & _)).
      rewrite Hrun in *. cbn [snd] in Hof'.
      cbn [map fst In].
      rewrite (IH this' Hok' Hof' ltac:(congruence)
                 ltac:(rewrite Hepsame; exact Heps)).
      split.
      * intros [<- | [? ?]]; [split; [left; reflexivity | left; exact Hin] | tauto].
      * intros [[<- | ?] ?]; [left; reflexivity | right; tauto].
    + destruct (decide (resolveQuestionType questionTypeMapping qid = "__proto__"%string))
        as [Hproto | Hnproto].
      * destruct (scoreAnswer_run_proto ans this Hok Hcat)
          as (r & this' & Hrun & _ & Hok' & (Hsame & Hepsame & _)).
        rewrite Hproto in *. rewrite Hrun in *. cbn [snd] in Hof'.
        cbn [map fst In].
        rewrite (IH this' Hok' Hof' ltac:(congruence)
                   ltac:(rewrite Hepsame; exact Heps)).
        split.
        -- intros [<- | [? ?]]; [split; [left; reflexivity | right; exact Hproto] | tauto].
        -- intros [[<- | ?] ?]; [left; reflexivity | right; tauto].
      * assert (Hnone : anchorSets this !! resolveQuestionType questionTypeMapping qid
                        = None).
        { rewrite Hcat. apply DEFAULT_ANCHOR_SETS_other; intros Heq; apply Hout;
            [left | right]; exact Heq. }
        assert (Hskip : ∃ (e : error) (this' : SsrScorer P),
                  scoreAnswer (resolveQuestionType questionTypeMapping qid) ans this
                  = (inl e, this')
                  ∧ scorer_ok Inv d this' ∧ same_config this this').
        { destruct (inherited_property (resolveQuestionType questionTypeMapping qid))
            as [[name [|n] | ]|] eqn:Hinherited.
          - rewrite (scoreAnswer_not_own _ _ _ Hnone), Hinherited.
            eexists _, this. split; [reflexivity|]. split; [exact Hok|].
            apply same_config_refl.
          - rewrite (scoreAnswer_inherited_method _ _ _ _ _ Hnone Hinherited Hof).
            destruct Hok as [Hinv Hcache].
            destruct (provider_embed_ok Inv d Hconf [Some ans] this Hinv)
              as (vs & this' & -> & _ & Hinv' & Hcfg & Hc).
            eexists _, this'. split; [reflexivity|]. split; [|exact Hcfg].
            split; [exact Hinv' | rewrite Hc; exact Hcache].
          - apply inherited_PrototypeObject in Hinherited. contradiction.
          - rewrite (scoreAnswer_not_own _ _ _ Hnone), Hinherited.
            eexists _, this. split; [reflexivity|]. split; [exact Hok|].
            apply same_config_refl. }
        destruct Hskip as (e & this' & Hrun & Hok' & (Hsame & Hepsame & _)).
        rewrite Hrun in *. cbn [snd] in Hof'.
        rewrite (IH this' Hok' Hof' ltac:(congruence)
                   ltac:(rewrite Hepsame; exact Heps)).
        cbn [map fst In]. split; [tauto|].
        intros [[<- | ?] [? | ?]]; try contradiction; tauto.
Qed.

Lemma absorb_keys (scored : list (string * ScoredAnswer)) (questionId : string) :
  questionId ≠ "__proto__"%string →
  ∀ locals : BatchLocals,
    is_Some (l_scores (foldl absorb locals scored) !! questionId)
    ↔ In questionId (map fst scored) ∨ is_Some (l_scores locals !! questionId).
Proof.
  intros Hne. induction scored as [|[qid sa] scored IH]; intros locals.
  - cbn. tauto.
  - cbn [foldl map fst In]. rewrite IH. cbn [absorb l_scores fst snd].
    unfold assign_property.
    destruct (decide (qid = "__proto__"%string)) as [-> | Hq].
    + split; [tauto | intros [[? | ?] | ?]; [congruence | tauto | tauto]].
    + destruct (decide (qid = questionId)) as [-> | Hother].
      * rewrite lookup_insert_eq. split; [tauto | intros _; right; eauto].
      * rewrite lookup_insert_ne by exact Hother. tauto.
Qed.

(** X14.  Against a provider that honours its contract, a batch scores
    exactly the questions that are not named ["__proto__"] and whose
    resolved type is ["ease"], ["trust"] or ["__proto__"]. *)
Theorem scoreAllAnswers_healthy
    (freeTextAnswers : list (string * string)) (provider : P) :
  Inv provider →
  ∃ (res : SsrScoresResult) (scorer' : SsrScorer P),
    scoreAllAnswers freeTextAnswers provider questionTypeMapping = (inr res, scorer')
    ∧ ∀ questionId,
        is_Some (scores res !! questionId)
        ↔ In questionId (map fst freeTextAnswers)
          ∧ questionId ≠ "__proto__"%string
          ∧ (catalogued questionTypeMapping questionId
             ∨ resolveQuestionType questionTypeMapping questionId = "__proto__"%string).
Proof.
  intros Hinv.
  destruct (scoreAllAnswers_eq freeTextAnswers provider questionTypeMapping)
    as (scorer' & Hrun & _). cbv zeta in Hrun.
  pose proof (scoredAnswers_healthy freeTextAnswers (batchScorer provider)) as Hkeys.
  eexists _, scorer'. split; [exact Hrun|]. cbn [scores].
  intros questionId.
  destruct (decide (questionId = "__proto__"%string)) as [-> | Hne].
  - rewrite absorb_proto by apply lookup_empty.
    split; [intros [? ?]; discriminate | tauto].
  - rewrite (absorb_keys _ _ Hne). cbn [l_scores]. rewrite lookup_empty.
    rewrite Hkeys.
    + split; [intros [? | [? ?]]; [tauto | discriminate] | tauto].
    + split; [exact Hinv|]. intros key vs Hkey. discriminate.
    + apply batchScorer_of_catalog.
    + reflexivity.
    + simpl. lra.
Qed.

End HealthyBatch.

Lemma scoreAllAnswers_healthy_witness :
  ∃ (res : SsrScoresResult) (scorer' : SsrScorer StubProvider),
    scoreAllAnswers [("ease", "fine"); ("q7", "slow"); ("speed", "ok")]%string Stub
      (Some {[ "q7"%string := "trust"%string ]}) = (inr res, scorer')
    ∧ ∀ questionId,
        is_Some (scores res !! questionId)
        ↔ In questionId (map fst [("ease", "fine"); ("q7", "slow"); ("speed", "ok")]%string)
          ∧ questionId ≠ "__proto__"%string
          ∧ (catalogued (Some {[ "q7"%string := "trust"%string ]}) questionId
             ∨ resolveQuestionType (Some {[ "q7"%string := "trust"%string ]}) questionId
               = "__proto__"%string).
Proof.
  apply (scoreAllAnswers_healthy (λ _ : StubProvider, True) 2 Stub_conforming
           (Some {[ "q7"%string := "trust"%string ]})
           [("ease", "fine"); ("q7", "slow"); ("speed", "ok")]%string Stub).
  exact I.
Defined.

(** ** [VoyageProvider.embed]: requests to the backend *)

Section VoyageRequests.

Context {B : Type} `{EmbeddingBackend B}.

Lemma missing_shift (c : gmap text embedding) (t0 : text) (texts : list text) (k n : nat) :
  map (text_at (t0 :: texts)) (List.filter (is_miss c (t0 :: texts)) (seq (S k) n))
  = map (text_at texts) (List.filter (is_miss c texts) (seq k n)).
Proof.
  revert k. induction n as [|n IH]; intros k; [reflexivity|].
  cbn [seq List.filter].
  change (is_miss c (t0 :: texts) (S k)) with (is_miss c texts k).
  destruct (is_miss c texts k); cbn [map]; rewrite IH; reflexivity.
Qed.

(** The texts the first loop collects are the missing texts of the request. *)
Lemma uncachedTexts_missing (c : gmap text embedding) (texts : list text) :
  map (text_at texts) (List.filter (is_miss c texts) (seq 0 (length texts)))
  = missingTexts c texts.
Proof.
  induction texts as [|t0 texts IH]; [reflexivity|].
  cbn [length seq List.filter missingTexts].
  change (is_miss c (t0 :: texts) 0)
    with (match cache_get c t0 with Some _ => false | None => true end).
  destruct (cache_get c t0); cbn [map]; rewrite missing_shift, IH; reflexivity.
Qed.

Lemma results0_map (c : gmap text embedding) (texts : list text) :
  map (λ i, cache_get c (text_at texts i)) (seq 0 (length texts))
  = map (cache_get c) texts.
Proof.
  apply list_eq. intros i.
  destruct (texts !! i) as [t|] eqn:Hi.
  - rewrite map_seq_lookup by (eapply lookup_lt_Some, Hi). cbn [Nat.add].
    rewrite (text_at_lookup _ _ _ Hi), (map_lookup _ _ _ _ Hi). reflexivity.
  - apply lookup_ge_None in Hi.
    rewrite !(proj2 (lookup_ge_None _ _)); [reflexivity | |];
      rewrite length_map, ?length_seq; lia.
Qed.

(** X15.  [embed] asks the backend only for what the cache misses.  When
    every text of the request is cached it returns the cached vectors and
    makes no request: provider and backend stay as they were.  Otherwise it
    makes one request, for the missing texts in the order of the request;
    when that request fails, [embed] fails with the same failure and the
    cache is as it was. *)
Theorem VoyageProvider_embed_requests (texts : list text) (this : VoyageProvider B) :
  (missingTexts (cache this) texts = [] →
   VoyageProvider_embed texts this = (inr (map (cache_get (cache this)) texts), this))
  ∧ (missingTexts (cache this) texts ≠ [] →
     ∀ (failure : ProviderFailure) (b' : B),
       fetchEmbeddings (missingTexts (cache this) texts) (network this) = (inl failure, b') →
       VoyageProvider_embed texts this
       = (inl failure, {| cache := cache this; network := b' |}))
  ∧ (missingTexts (cache this) texts ≠ [] →
     ∀ (embeddings : list (list R)) (b' : B),
       fetchEmbeddings (missingTexts (cache this) texts) (network this)
       = (inr embeddings, b') →
       ∃ results c',
         VoyageProvider_embed texts this
         = (inr results, {| cache := c'; network := b' |})).
Proof.
  unfold VoyageProvider_embed. rewrite scan_closed, uncachedTexts_missing, results0_map.
  split; [|split].
  - intros ->. reflexivity.
  - intros Hne failure b' Hfetch.
    destruct (decide (0 < length (missingTexts (cache this) texts))%nat) as [_ | Hz].
    + rewrite Hfetch. reflexivity.
    + destruct (missingTexts (cache this) texts); [congruence | cbn in Hz; lia].
  - intros Hne embeddings b' Hfetch.
    destruct (decide (0 < length (missingTexts (cache this) texts))%nat) as [_ | Hz].
    + rewrite Hfetch. destruct (foldl _ _ _) as [c' results']. eauto.
    + destruct (missingTexts (cache this) texts); [congruence | cbn in Hz; lia].
Qed.

End VoyageRequests.

Lemma VoyageProvider_embed_requests_witness :
  VoyageProvider_embed [Some "a"%string; Some "b"%string]
    {| cache := {[ Some "a"%string := Some [1; 0] ]}; network := Offline |}
  = (inl "ECONNREFUSED"%string,
     {| cache := {[ Some "a"%string := Some [1; 0] ]}; network := Offline |}).
Proof.
  refine (proj1 (proj2 (VoyageProvider_embed_requests
                          [Some "a"%string; Some "b"%string]
                          {| cache := {[ Some "a"%string := Some [1; 0] ]};
                             network := Offline |}))
            _ "ECONNREFUSED"%string Offline _).
  - vm_compute. discriminate.
  - reflexivity.
Defined.

(** ** [VoyageProvider]: what the cache holds after [embed] *)

Section VoyageCache.

Variable uT : list text.
Variable uI : list nat.
Variable emb : list (list R).

(** The cache after [m] iterations of the second loop. *)
Lemma store_fold_cache (c0 : gmap text embedding) (res0 : list embedding) (m : nat) :
  length uT = length uI →
  (m ≤ length uT)%nat →
  ∃ (c' : gmap text embedding) (res' : list embedding),
    foldl (storeStep uT uI emb) (c0, res0) (seq 0 m) = (c', res')
    ∧ (∀ t, (∀ j, (j < m)%nat → uT !! j ≠ Some t) → c' !! t = c0 !! t)
    ∧ (∀ j t, (j < m)%nat → uT !! j = Some t →
              ∃ j', (j' < m)%nat ∧ uT !! j' = Some t ∧ c' !! t = Some (emb !! j'))
    ∧ (size c0 ≤ size c' ≤ size c0 + m)%nat.
Proof.
  intros Hlen. induction m as [|m IH]; intros Hm.
  - exists c0, res0. split; [reflexivity|]. split; [reflexivity|].
    split; [intros; lia | lia].
  - destruct IH as (c1 & res1 & Hfold & Hkeep & Hwritten & Hsize); [lia|].
    destruct (lookup_lt_is_Some_2 uI m ltac:(lia)) as [i Hi].
    destruct (lookup_lt_is_Some_2 uT m ltac:(lia)) as [t Ht].
    rewrite seq_S, foldl_app, Hfold. cbn [foldl Nat.add].
    rewrite (storeStep_eq uT uI emb c1 res1 m i t Ht Hi).
    eexists _, _. split; [reflexivity|]. split; [|split].
    + intros t' Hfree.
      rewrite lookup_insert_ne by (intros ->; apply (Hfree m); [lia | exact Ht]).
      apply Hkeep. intros j Hj. apply Hfree. lia.
    + intros j t' Hj Hjt. destruct (decide (t = t')) as [<- | Hne].
      * exists m. split; [lia|]. split; [exact Ht | apply lookup_insert_eq].
      * assert (Hjm : (j < m)%nat).
        { destruct (decide (j = m)) as [-> | ?]; [congruence | lia]. }
        destruct (Hwritten j t' Hjm Hjt) as (j' & Hj' & Hjt' & Hc).
        exists j'. split; [lia|]. split; [exact Hjt'|].
        rewrite lookup_insert_ne by exact Hne. exact Hc.
    + destruct (c1 !! t) eqn:Hc1.
      * rewrite map_size_insert_Some by (eexists; exact Hc1). lia.
      * rewrite map_size_insert_None by exact Hc1. lia.
Qed.

End VoyageCache.

Section VoyageAfterEmbed.

Context {B : Type} `{EmbeddingBackend B}.

Lemma missingTexts_miss (c : gmap text embedding) (texts : list text) (t : text) :
  In t (missingTexts c texts) ↔ In t texts ∧ cache_get c t = None.
Proof.
  unfold missingTexts. rewrite filter_In.
  destruct (cache_get c t); split; intros [? ?]; split; congruence.
Qed.

Lemma VoyageProvider_embed_hit (texts : list text) (this : VoyageProvider B) :
  missingTexts (cache this) texts = [] →
  VoyageProvider_embed texts this = (inr (map (cache_get (cache this)) texts), this).
Proof.
  intros Hnone. unfold VoyageProvider_embed.
  rewrite scan_closed, uncachedTexts_missing, results0_map, Hnone. reflexivity.
Qed.

(** The cache after a call of [embed], whatever its outcome. *)
Lemma VoyageProvider_embed_cache (texts : list text) (this : VoyageProvider B) :
  let this' := (VoyageProvider_embed texts this).2 in
  (∀ t, ¬ In t (missingTexts (cache this) texts) → cache this' !! t = cache this !! t)
  ∧ (size (cache this) ≤ size (cache this')
     ≤ size (cache this) + length (missingTexts (cache this) texts))%nat
  ∧ (∀ results, (VoyageProvider_embed texts this).1 = inr results →
       ∀ t, In t (missingTexts (cache this) texts) →
            ∃ embeddings b' j,
              fetchEmbeddings (missingTexts (cache this) texts) (network this)
              = (inr embeddings, b')
              ∧ (j < length (missingTexts (cache this) texts))%nat
              ∧ cache this' !! t = Some (embeddings !! j)).
Proof.
  unfold VoyageProvider_embed. rewrite scan_closed, uncachedTexts_missing.
  set (uT := missingTexts (cache this) texts).
  set (uI := List.filter (is_miss (cache this) texts) (seq 0 (length texts))).
  assert (Hlen : length uT = length uI).
  { unfold uT. rewrite <- uncachedTexts_missing. apply length_map. }
  destruct (decide (0 < length uT)%nat) as [Hpos | Hzero].
  - destruct (fetchEmbeddings uT (network this)) as [[failure | embeddings] b'] eqn:Hfetch.
    + cbn. split; [reflexivity|]. split; [lia | discriminate].
    + destruct (store_fold_cache uT uI embeddings (cache this)
                  (map (λ i, cache_get (cache this) (text_at texts i))
                       (seq 0 (length texts)))
                  (length uT) Hlen (Nat.le_refl _))
        as (c' & res' & Hfold & Hkeep & Hwritten & Hsize).
      rewrite Hfold. cbn [fst snd cache]. split; [|split; [exact Hsize|]].
      * intros t Hnotin. apply Hkeep. intros j _ Hj. apply Hnotin.
        apply list_elem_of_In. eapply list_elem_of_lookup_2, Hj.
      * intros results _ t Hin.
        apply list_elem_of_In, list_elem_of_lookup_1 in Hin as [j Hj].
        destruct (Hwritten j t (lookup_lt_Some _ _ _ Hj) Hj) as (j' & Hj' & _ & Hc).
        exists embeddings, b', j'. split; [reflexivity|]. split; assumption.
  - cbn. split; [reflexivity|]. split; [lia|].
    intros results _ t Hin. exfalso. destruct uT; [contradiction | cbn in Hzero; lia].
Qed.

(** X16.  After a call of [embed] that succeeded against a backend that
    returned a vector for every text it was asked, every text of the request
    is cached: embedding the same texts again makes no request, returns a
    vector in every position and leaves provider and backend as they are. *)
Theorem VoyageProvider_embed_again (texts : list text) (this this' : VoyageProvider B)
    (results : list embedding) :
  VoyageProvider_embed texts this = (inr results, this') →
  (∀ requested embeddings b',
     fetchEmbeddings requested (network this) = (inr embeddings, b') →
     (length requested ≤ length embeddings)%nat) →
  VoyageProvider_embed texts this'
  = (inr (map (cache_get (cache this')) texts), this')
  ∧ Forall (λ r : embedding, is_Some r) (map (cache_get (cache this')) texts).
Proof.
  intros Hrun Hfull.
  destruct (VoyageProvider_embed_cache texts this) as (Hkeep & _ & Hwritten).
  rewrite Hrun in Hkeep, Hwritten. cbn [fst snd] in Hkeep, Hwritten.
  assert (Hall : ∀ t, In t texts → is_Some (cache_get (cache this') t)).
  { intros t Hin. destruct (cache_get (cache this) t) as [v|] eqn:Hget.
    - unfold cache_get. rewrite Hkeep; [fold (cache_get (cache this) t); rewrite Hget; eauto|].
      rewrite missingTexts_miss. intros [_ Hnone]. congruence.
    - destruct (Hwritten results eq_refl t) as (embeddings & b' & j & Hfetch & Hj & Hc).
      { apply missingTexts_miss. split; assumption. }
      pose proof (Hfull _ _ _ Hfetch) as Hlen.
      destruct (lookup_lt_is_Some_2 embeddings j ltac:(lia)) as [v Hv].
      unfold cache_get. rewrite Hc, Hv. eauto. }
  split.
  - apply VoyageProvider_embed_hit.
    destruct (missingTexts (cache this') texts) as [|t rest] eqn:Hmiss; [reflexivity|].
    assert (Hin : In t (missingTexts (cache this') texts)) by (rewrite Hmiss; left; reflexivity).
    apply missingTexts_miss in Hin as [Hin Hnone].
    destruct (Hall t Hin) as [v Hv]. congruence.
  - apply Forall_forall. intros r Hr.
    apply list_elem_of_In, in_map_iff in Hr as (t & <- & Hin). apply Hall, Hin.
Qed.

(** X17.  The provider's cache only grows and is emptied by [clearCache]:
    a call of [embed], whatever its outcome, keeps every cached vector and
    adds at most one entry per missing text; after [clearCache] the size is
    [0]. *)
Theorem VoyageProvider_cache_size (texts : list text) (this : VoyageProvider B) :
  (∀ (t : text) (v : list R),
     cache_get (cache this) t = Some v →
     cache_get (cache (VoyageProvider_embed texts this).2) t = Some v)
  ∧ (VoyageProvider_getCacheSize this
     ≤ VoyageProvider_getCacheSize (VoyageProvider_embed texts this).2
     ≤ VoyageProvider_getCacheSize this + length (missingTexts (cache this) texts))%nat
  ∧ VoyageProvider_getCacheSize
      (VoyageProvider_clearCache (VoyageProvider_embed texts this).2) = 0%nat.
Proof.
  destruct (VoyageProvider_embed_cache texts this) as (Hkeep & Hsize & _).
  split; [|split; [exact Hsize | apply map_size_empty]].
  intros t v Hget. unfold cache_get. rewrite Hkeep; [exact Hget|].
  rewrite missingTexts_miss. intros [_ Hnone]. congruence.
Qed.

End VoyageAfterEmbed.

Lemma VoyageProvider_embed_again_witness :
  ∃ (results : list embedding) (this' : VoyageProvider EchoBackend),
    VoyageProvider_embed [Some "a"%string; Some "b"%string]
      {| cache := ∅; network := Echo |} = (inr results, this')
    ∧ VoyageProvider_embed [Some "a"%string; Some "b"%string] this'
      = (inr (map (cache_get (cache this')) [Some "a"%string; Some "b"%string]), this')
    ∧ Forall (λ r : embedding, is_Some r)
             (map (cache_get (cache this')) [Some "a"%string; Some "b"%string]).
Proof.
  destruct (VoyageProvider_embed [Some "a"%string; Some "b"%string]
              {| cache := ∅; network := Echo |})
    as [[failure | results] this'] eqn:Hrun; [discriminate|].
  exists results, this'. split; [reflexivity|].
  apply (VoyageProvider_embed_again [Some "a"%string; Some "b"%string]
           {| cache := ∅; network := Echo |} this' results Hrun).
  intros requested embeddings b' [= <- _]. rewrite length_map. reflexivity.
Defined.

Section VoyageTransparency.

Context {B : Type} `{EmbeddingBackend B}.
Variable g : text → list R.
Hypothesis Hanswers : backend_answers g.

Lemma VoyageProvider_embed_failure (texts : list text) (this this' : VoyageProvider B)
    (failure : ProviderFailure) :
  VoyageProvider_embed texts this = (inl failure, this') →
  ∃ requested b', fetchEmbeddings requested (network this) = (inl failure, b').
Proof.
  unfold VoyageProvider_embed.
  destruct (foldl _ _ _) as [[results uT] uI].
  destruct (decide (0 < length uT)%nat); [|discriminate].
  destruct (fetchEmbeddings uT (network this)) as [[failure' | embeddings] b'] eqn:Hfetch.
  - intros [= <- _]. eauto.
  - destruct (foldl _ _ _). discriminate.
Qed.

Lemma VoyageProvider_embed_answered (texts : list text) (this : VoyageProvider B) :
  ∃ (results : list embedding) (this' : VoyageProvider B),
    VoyageProvider_embed texts this = (inr results, this').
Proof.
  destruct (VoyageProvider_embed texts this) as [[failure | results] this'] eqn:Hrun;
    [|eauto].
  exfalso. apply VoyageProvider_embed_failure in Hrun as (requested & b' & Hfetch).
  destruct (Hanswers requested (network this)) as [b'' Hok]. congruence.
Qed.

Lemma VoyageProvider_embed_values (texts : list text) (this this' : VoyageProvider B)
    (results : list embedding) :
  voyage_cache_consistent g (cache this) →
  VoyageProvider_embed texts this = (inr results, this') →
  results = map (λ t, Some (g t)) texts.
Proof.
  intros Hcons Hrun.
  destruct (VoyageProvider_embed_spec texts this this' results Hrun)
    as (Hlen & Hhit & Hmiss & _).
  apply list_eq. intros i.
  destruct (texts !! i) as [t|] eqn:Hi.
  - rewrite (map_lookup _ _ _ _ Hi).
    destruct (cache_get (cache this) t) as [v|] eqn:Hget.
    + rewrite (Hhit _ _ _ Hi Hget), (Hcons _ _ Hget). reflexivity.
    + destruct (Hmiss _ _ Hi Hget) as (requested & embeddings & b' & j & Hfetch & Hj & ->).
      destruct (Hanswers requested (network this)) as [b'' Hok].
      rewrite Hok in Hfetch. injection Hfetch as <- _.
      rewrite (map_lookup _ _ _ _ Hj). reflexivity.
  - apply lookup_ge_None in Hi.
    rewrite !(proj2 (lookup_ge_None _ _)); [reflexivity | |];
      rewrite ?length_map; lia.
Qed.

Lemma VoyageProvider_embed_consistent (texts : list text) (this this' : VoyageProvider B)
    (results : list embedding) :
  voyage_cache_consistent g (cache this) →
  VoyageProvider_embed texts this = (inr results, this') →
  voyage_cache_consistent g (cache this').
Proof.
  intros Hcons Hrun t v Hget.
  destruct (VoyageProvider_embed_spec texts this this' results Hrun)
    as (_ & _ & _ & Hcache).
  destruct (Hcache _ _ Hget) as [Hold | (requested & embeddings & b' & j & Hfetch & Hj & Hv)].
  - apply Hcons, Hold.
  - destruct (Hanswers requested (network this)) as [b'' Hok].
    rewrite Hok in Hfetch. injection Hfetch as <- _.
    rewrite (map_lookup _ _ _ _ Hj) in Hv. congruence.
Qed.

(** X18.  With a backend that answers every text [t] with the same vector
    [g t], and a cache that came from it, the cache is invisible: [embed]
    succeeds and returns [g t] for every text [t] of the request, cached or
    not, and the cache it leaves again came from that backend. *)
Theorem VoyageProvider_embed_transparent (texts : list text) (this : VoyageProvider B) :
  voyage_cache_consistent g (cache this) →
  ∃ this' : VoyageProvider B,
    VoyageProvider_embed texts this = (inr (map (λ t, Some (g t)) texts), this')
    ∧ voyage_cache_consistent g (cache this').
Proof.
  intros Hcons.
  destruct (VoyageProvider_embed_answered texts this) as (results & this' & Hrun).
  exists this'. split.
  - rewrite Hrun. f_equal. f_equal.
    apply (VoyageProvider_embed_values texts this this' results Hcons Hrun).
  - apply (VoyageProvider_embed_consistent texts this this' results Hcons Hrun).
Qed.

(** With vectors of one dimension, the provider honours the contract the
    scorer relies on, on the states whose cache came from the backend. *)
Lemma VoyageProvider_conforming (d : nat) :
  (∀ t : text, length (g t) = d) →
  conforming (λ this : VoyageProvider B, voyage_cache_consistent g (cache this)) d.
Proof.
  intros Hdim texts this Hcons.
  destruct (VoyageProvider_embed_answered texts this) as (results & this' & Hrun).
  exists results, this'. split; [exact Hrun|].
  split; [|apply (VoyageProvider_embed_consistent texts this this' results Hcons Hrun)].
  rewrite (VoyageProvider_embed_values texts this this' results Hcons Hrun).
  split; [apply length_map|].
  apply Forall_forall. intros v Hv.
  apply list_elem_of_In, in_map_iff in Hv as (t & <- & _). eauto.
Qed.

End VoyageTransparency.

Lemma Echo_answers : backend_answers (B := EchoBackend) (λ _, [1; 0]).
Proof. intros requested []. exists Echo. reflexivity. Qed.

Lemma VoyageProvider_embed_transparent_witness :
  ∃ this' : VoyageProvider EchoBackend,
    VoyageProvider_embed [Some "a"%string; Some "b"%string; Some "a"%string]
      {| cache := {[ Some "b"%string := Some [1; 0] ]}; network := Echo |}
    = (inr (map (λ t, Some [1; 0])
                [Some "a"%string; Some "b"%string; Some "a"%string]), this')
    ∧ voyage_cache_consistent (λ _, [1; 0]) (cache this').
Proof.
  apply (VoyageProvider_embed_transparent (λ _, [1; 0]) Echo_answers
           [Some "a"%string; Some "b"%string; Some "a"%string]
           {| cache := {[ Some "b"%string := Some [1; 0] ]}; network := Echo |}).
  intros t v Hget. unfold cache_get in Hget. cbn [cache] in Hget.
  destruct (decide (t = Some "b"%string)) as [-> | Hne].
  - rewrite lookup_singleton_eq in Hget. cbn in Hget. congruence.
  - rewrite lookup_singleton_ne in Hget by congruence. discriminate.
Defined.

(** ** [VoyageProvider]: [fetchEmbeddings] over the HTTP transport *)

Lemma insert_by_index_perm (x : EmbeddingDatum) (sorted : list EmbeddingDatum) :
  insert_by_index x sorted ≡ₚ x :: sorted.
Proof.
  induction sorted as [|y rest IH]; cbn; [reflexivity|].
  destruct (Rle_dec (datum_index x) (datum_index y)); [reflexivity|].
  rewrite IH. apply Permutation_swap.
Qed.

Lemma sort_by_index_perm (data : list EmbeddingDatum) :
  sort_by_index data ≡ₚ data.
Proof.
  induction data as [|x data IH]; cbn; [reflexivity|].
  rewrite insert_by_index_perm. fold (sort_by_index data). rewrite IH. reflexivity.
Qed.

Lemma insert_by_index_sorted (x : EmbeddingDatum) (sorted : list EmbeddingDatum) :
  Sorted Rle (map datum_index sorted) →
  Sorted Rle (map datum_index (insert_by_index x sorted)).
Proof.
  induction sorted as [|y rest IH]; intros Hs; cbn.
  - repeat constructor.
  - destruct (Rle_dec (datum_index x) (datum_index y)) as [Hle | Hgt]; cbn.
    + constructor; [exact Hs | constructor; exact Hle].
    + cbn in Hs. apply Sorted_inv in Hs as [Hrest Hhd].
      constructor; [apply IH, Hrest|].
      destruct rest as [|z rest]; cbn.
      * constructor. lra.
      * destruct (Rle_dec (datum_index x) (datum_index z)); cbn; constructor.
        -- lra.
        -- cbn in Hhd. inversion Hhd; assumption.
Qed.

Lemma sort_by_index_sorted (data : list EmbeddingDatum) :
  Sorted Rle (map datum_index (sort_by_index data)).
Proof.
  induction data as [|x data IH]; cbn; [constructor|].
  apply insert_by_index_sorted, IH.
Qed.

Lemma INR_seq_sorted (n k : nat) : Sorted Rle (map INR (seq k n)).
Proof.
  revert k. induction n as [|n IH]; intros k; cbn [seq map]; [constructor|].
  constructor; [apply IH|].
  destruct n; cbn [seq map]; constructor. apply le_INR. lia.
Qed.

(** A response whose indices are [0 .. n-1] in some order is put in the
    order of its indices. *)
Lemma sort_by_index_positions (data : list EmbeddingDatum) :
  map datum_index data ≡ₚ map INR (seq 0 (length data)) →
  map datum_index (sort_by_index data) = map INR (seq 0 (length data)).
Proof.
  intros Hperm. apply (@Sorted_unique _ Rle Rle_trans Rle_antisym).
  - apply sort_by_index_sorted.
  - apply INR_seq_sorted.
  - rewrite <- Hperm. apply fmap_Permutation, sort_by_index_perm.
Qed.

(** X19.  [fetchEmbeddings] returns the embeddings in the order of their
    [index] field, not in the order of the response: when the reply is
    [ok] and its indices are [0 .. n-1] in any order, the call succeeds with
    [n] vectors and the vector tagged [j] is at position [j]. *)
Theorem fetchEmbeddings_by_index {T : Type} `{HttpTransport T}
    (settings : VoyageSettings) (texts : list text) (net net' : T)
    (response : HttpResponse) :
  http_post {| req_url := baseUrl settings +:+ "/embeddings";
               req_authorization := "Bearer " +:+ apiKey settings;
               req_model := model settings;
               req_input := texts;
               req_input_type := "document" |} net = (inr response, net') →
  resp_ok response = true →
  map datum_index (resp_data response)
    ≡ₚ map INR (seq 0 (length (resp_data response))) →
  ∃ embeddings : list (list R),
    fetchEmbeddings_http settings texts net = (inr embeddings, net')
    ∧ length embeddings = length (resp_data response)
    ∧ ∀ d : EmbeddingDatum, In d (resp_data response) →
        ∃ j : nat, datum_index d = INR j
                   ∧ embeddings !! j = Some (datum_embedding d).
Proof.
  intros Hpost Hok Hperm.
  exists (map datum_embedding (sort_by_index (resp_data response))).
  unfold fetchEmbeddings_http. rewrite Hpost, Hok.
  split; [reflexivity|]. split.
  - rewrite length_map. apply Permutation_length, sort_by_index_perm.
  - intros d Hin. apply list_elem_of_In in Hin.
    rewrite <- (sort_by_index_perm (resp_data response)) in Hin.
    apply list_elem_of_lookup_1 in Hin as [j Hj]. exists j. split.
    + pose proof (sort_by_index_positions _ Hperm) as Hpos.
      apply (f_equal (λ l, l !! j)) in Hpos.
      rewrite (map_lookup _ _ _ _ Hj) in Hpos.
      rewrite map_seq_lookup in Hpos.
      * cbn [Nat.add] in Hpos. congruence.
      * apply lookup_lt_Some in Hj.
        rewrite <- (Permutation_length (sort_by_index_perm (resp_data response))).
        exact Hj.
    + apply (map_lookup _ _ _ _ Hj).
Qed.

Lemma fetchEmbeddings_by_index_witness :
  ∃ embeddings : list (list R),
    fetchEmbeddings_http
      {| apiKey := "key"; model := "voyage-3-lite";
         baseUrl := "https://api.voyageai.com/v1" |}
      [Some "a"%string; Some "b"%string] Reversing
    = (inr embeddings, Reversing)
    ∧ length embeddings = 2%nat
    ∧ ∀ d : EmbeddingDatum,
        In d [ {| datum_embedding := [0; 1]; datum_index := 1 |};
               {| datum_embedding := [1; 0]; datum_index := 0 |} ] →
        ∃ j : nat, datum_index d = INR j
                   ∧ embeddings !! j = Some (datum_embedding d).
Proof.
  apply (fetchEmbeddings_by_index
           {| apiKey := "key"; model := "voyage-3-lite";
              baseUrl := "https://api.voyageai.com/v1" |}
           [Some "a"%string; Some "b"%string] Reversing Reversing
           {| resp_ok := true; resp_status := 200; resp_text := "";
              resp_data := [ {| datum_embedding := [0; 1]; datum_index := 1 |};
                             {| datum_embedding := [1; 0]; datum_index := 0 |} ] |}).
  - reflexivity.
  - reflexivity.
  - cbn. apply Permutation_swap.
Defined.

(** ** [VoyageProvider]: a reply shorter than the request *)

Section VoyageShortReply.

Context {B : Type} `{EmbeddingBackend B}.

(** X20.  [embed] does not compare the number of vectors it receives with
    the number of texts it asked for.  When the backend answers the missing
    texts with fewer vectors, the call still succeeds, with one entry per
    text, and the entry of some text of the request is [undefined]. *)
Theorem VoyageProvider_embed_short_reply (texts : list text) (this : VoyageProvider B)
    (embeddings : list (list R)) (b' : B) :
  fetchEmbeddings (missingTexts (cache this) texts) (network this)
  = (inr embeddings, b') →
  (length embeddings < length (missingTexts (cache this) texts))%nat →
  ∃ (results : list embedding) (c' : gmap text embedding),
    VoyageProvider_embed texts this = (inr results, {| cache := c'; network := b' |})
    ∧ length results = length texts
    ∧ ∃ (i : nat) (t : text),
        texts !! i = Some t ∧ cache_get (cache this) t = None
        ∧ results !! i = Some None.
Proof.
  intros Hfetch Hshort.
  unfold VoyageProvider_embed. rewrite scan_closed.
  set (c := cache this) in *.
  set (uI := List.filter (is_miss c texts) (seq 0 (length texts))).
  set (res0 := map (λ i, cache_get c (text_at texts i)) (seq 0 (length texts))).
  assert (HuT : map (text_at texts) uI = missingTexts c texts)
    by apply uncachedTexts_missing.
  rewrite HuT.
  destruct (decide (0 < length (missingTexts c texts))%nat) as [_ | Hz]; [|lia].
  rewrite Hfetch.
  assert (HlenI : length (missingTexts c texts) = length uI)
    by (rewrite <- HuT; apply length_map).
  destruct (store_fold (missingTexts c texts) uI embeddings c res0
              (length (missingTexts c texts)))
    as (c' & res' & Hfold & Hlen & _ & Hwritten & _).
  { exact HlenI. }
  { apply missIndices_NoDup. }
  { unfold res0. rewrite length_map, length_seq. apply missIndices_range. }
  { lia. }
  rewrite Hfold. exists res', c'. split; [reflexivity|]. split.
  { rewrite Hlen. unfold res0. rewrite length_map, length_seq. reflexivity. }
  destruct (lookup_lt_is_Some_2 uI (length embeddings) ltac:(lia)) as [i Hi].
  assert (Hin : In i uI) by (eapply list_elem_of_In, list_elem_of_lookup_2, Hi).
  apply filter_In in Hin as [Hrange Hmiss]. apply in_seq in Hrange.
  destruct (lookup_lt_is_Some_2 texts i ltac:(lia)) as [t Ht].
  exists i, t. split; [exact Ht|]. split.
  - unfold is_miss in Hmiss. rewrite (text_at_lookup _ _ _ Ht) in Hmiss.
    destruct (cache_get c t); [discriminate | reflexivity].
  - rewrite (Hwritten (length embeddings) i ltac:(lia) Hi).
    rewrite (proj2 (lookup_ge_None embeddings (length embeddings))) by lia.
    reflexivity.
Qed.

End VoyageShortReply.

Lemma VoyageProvider_embed_short_reply_witness :
  ∃ (results : list embedding) (c' : gmap text embedding),
    VoyageProvider_embed [Some "a"%string; Some "b"%string; Some "c"%string]
      {| cache := ∅;
         network := ({| apiKey := "key"; model := "voyage-3-lite";
                        baseUrl := "https://api.voyageai.com/v1" |}, Reversing) |}
    = (inr results,
       {| cache := c';
          network := ({| apiKey := "key"; model := "voyage-3-lite";
                         baseUrl := "https://api.voyageai.com/v1" |}, Reversing) |})
    ∧ length results = 3%nat
    ∧ ∃ (i : nat) (t : text),
        [Some "a"%string; Some "b"%string; Some "c"%string] !! i = Some t
        ∧ cache_get (∅ : gmap text embedding) t = None
        ∧ results !! i = Some None.
Proof.
  apply (VoyageProvider_embed_short_reply
           [Some "a"%string; Some "b"%string; Some "c"%string]
           {| cache := ∅;
              network := ({| apiKey := "key"; model := "voyage-3-lite";
                             baseUrl := "https://api.voyageai.com/v1" |}, Reversing) |}
           [[1; 0]; [0; 1]]).
  - vm_compute. destruct (Rle_dec R1 R0) as [Hle | _]; [exfalso; lra | reflexivity].
  - vm_compute. lia.
Defined.

(** ** [VoyageProvider]: from the constructor to the first request *)

Lemma missingTexts_empty (texts : list text) : missingTexts ∅ texts = texts.
Proof.
  induction texts as [|t texts IH]; [reflexivity|].
  unfold missingTexts in *. cbn [List.filter].
  unfold cache_get at 1. rewrite lookup_empty. cbn. rewrite IH. reflexivity.
Qed.

(** X21.  A provider is built only with a non-empty API key, the explicit
    option winning over the environment (an explicit empty key is not
    replaced by the environment's).  Its cache is empty, so its first
    [embed] of a non-empty request posts every text of the request, in
    order, to [https://api.voyageai.com/v1/embeddings] with that key and the
    chosen model.  When the transport fails, [embed] fails with the same
    failure; when the reply is not [ok], it fails with the status and body
    of the reply; in both cases the cache stays empty. *)
Theorem VoyageProvider_first_embed {T : Type} `{HttpTransport T}
    (options : option VoyageOptions) (VOYAGE_API_KEY : option string)
    (net net' : T) (this : VoyageProvider (VoyageSettings * T))
    (texts : list text) (outcome : ProviderFailure + HttpResponse) :
  VoyageProvider_new options VOYAGE_API_KEY net = inr this →
  texts ≠ [] →
  http_post {| req_url := "https://api.voyageai.com/v1/embeddings";
               req_authorization := "Bearer " +:+ apiKey (network this).1;
               req_model := default "voyage-3-lite"%string (options ≫= opt_model);
               req_input := texts;
               req_input_type := "document" |} net = (outcome, net') →
  apiKey (network this).1 ≠ ""%string
  ∧ Some (apiKey (network this).1)
    = match options ≫= opt_apiKey with
      | Some key => Some key
      | None => VOYAGE_API_KEY
      end
  ∧ VoyageProvider_getCacheSize this = 0%nat
  ∧ match outcome with
    | inl failure =>
        VoyageProvider_embed texts this
        = (inl failure, {| cache := ∅; network := ((network this).1, net') |})
    | inr response =>
        resp_ok response = false →
        VoyageProvider_embed texts this
        = (inl ("Voyage API error (" +:+ pretty (resp_status response) +:+ "): "
                +:+ resp_text response),
           {| cache := ∅; network := ((network this).1, net') |})
    end.
Proof.
  intros Hnew Hne Hpost. unfold VoyageProvider_new in Hnew.
  destruct (match options ≫= opt_apiKey with
            | Some key => Some key
            | None => VOYAGE_API_KEY
            end) as [[|a key]|] eqn:Hkey; try discriminate.
  injection Hnew as <-. cbn [network cache fst] in *.
  split; [discriminate|]. split; [reflexivity|].
  split; [apply map_size_empty|].
  unfold VoyageProvider_embed. cbn [cache network].
  rewrite scan_closed, uncachedTexts_missing, results0_map, missingTexts_empty.
  destruct (decide (0 < length texts)%nat) as [_ | Hz];
    [|destruct texts; [congruence | cbn in Hz; lia]].
  cbn [fetchEmbeddings Http_backend]. unfold fetchEmbeddings_http.
  cbn [baseUrl apiKey model].
  change ("https://api.voyageai.com/v1" +:+ "/embeddings")%string
    with "https://api.voyageai.com/v1/embeddings"%string.
  cbn [apiKey] in Hpost. rewrite Hpost.
  destruct outcome as [failure | response]; [reflexivity|].
  intros ->. reflexivity.
Qed.

Lemma VoyageProvider_first_embed_witness :
  "key"%string ≠ ""%string
  ∧ Some "key"%string = Some "key"%string
  ∧ VoyageProvider_getCacheSize
      {| cache := ∅;
         network := ({| apiKey := "key"; model := "voyage-3-lite";
                        baseUrl := "https://api.voyageai.com/v1" |}, Refusing) |} = 0%nat
  ∧ (false = false →
     VoyageProvider_embed [Some "a"%string; Some "b"%string]
       {| cache := ∅;
          network := ({| apiKey := "key"; model := "voyage-3-lite";
                         baseUrl := "https://api.voyageai.com/v1" |}, Refusing) |}
     = (inl ("Voyage API error (" +:+ pretty 401%nat +:+ "): " +:+ "Unauthorized")%string,
        {| cache := ∅;
           network := ({| apiKey := "key"; model := "voyage-3-lite";
                          baseUrl := "https://api.voyageai.com/v1" |}, Refusing) |})).
Proof.
  apply (VoyageProvider_first_embed
           (Some {| opt_apiKey := Some "key"%string; opt_model := None |}) None
           Refusing Refusing
           {| cache := ∅;
              network := ({| apiKey := "key"; model := "voyage-3-lite";
                             baseUrl := "https://api.voyageai.com/v1" |}, Refusing) |}
           [Some "a"%string; Some "b"%string]
           (inr {| resp_ok := false; resp_status := 401; resp_text := "Unauthorized";
                   resp_data := [] |})).
  - reflexivity.
  - discriminate.
  - reflexivity.
Defined.

(** ** The distribution bar of the report *)








Section BarLoop.

Variable distribution : list num.




End BarLoop.








(** ** From a score to its bar *)

Section ReportBar.

Context {P : Type} `{EmbeddingProvider P}.
Variable Inv : P → Prop.
Variable d : nat.
Hypothesis Hconf : conforming Inv d.


End ReportBar.


(** ** [scoreAllAnswers]: the embedding calls of a batch *)

Section AnchorCacheGrowth.

Context {P : Type} `{EmbeddingProvider P}.

(** A successful [getAnchorEmbeddings] adds one cache entry per batch it
    requested, under its own key. *)
Lemma getAnchorEmbeddings_growth (questionType : string) (i : nat)
    (sets : list AnchorSet) (vs : list embedding) (this this' : SsrScorer P) :
  anchorSets this !! questionType = Some sets →
  getAnchorEmbeddings questionType i this = (inr vs, this') →
  size (anchorEmbeddingsCache this')
  = (size (anchorEmbeddingsCache this)
     + length (uncachedAnchorBatches questionType sets (anchorEmbeddingsCache this) [i]))%nat
  ∧ (∀ key, is_Some (anchorEmbeddingsCache this' !! key) →
            is_Some (anchorEmbeddingsCache this !! key) ∨ key = cacheKey questionType i)
  ∧ (∀ key, key ≠ cacheKey questionType i →
            anchorEmbeddingsCache this' !! key = anchorEmbeddingsCache this !! key).
Proof.
  intros Hsets. unfold getAnchorEmbeddings, uncachedAnchorBatches. cbn [flat_map].
  destruct (anchorEmbeddingsCache this !! cacheKey questionType i) as [cached|] eqn:Hhit.
  { intros [= <- <-]. cbn [length app]. split; [lia|]. split; [auto | reflexivity]. }
  rewrite Hsets. cbn [mbind option_bind].
  destruct (sets !! i) as [anchorSet|]; [|discriminate].
  unfold bind. pose proof (provider_embed_cache (anchorsOf anchorSet) this) as Hc.
  destruct (provider_embed (anchorsOf anchorSet) this) as [[e | vs'] this1];
    [discriminate|].
  cbn [fst snd] in *. intros [= <- <-].
  cbn [anchorEmbeddingsCache with_cache length app]. rewrite Hc.
  split; [rewrite map_size_insert_None by exact Hhit; lia|]. split.
  - intros key Hkey. destruct (decide (cacheKey questionType i = key)) as [<- | Hne];
      [right; reflexivity | left].
    rewrite lookup_insert_ne in Hkey by exact Hne. exact Hkey.
  - intros key Hne. apply lookup_insert_ne. congruence.
Qed.

Lemma scoreLoop_growth (questionType : string) (answerEmbedding : embedding)
    (sets : list AnchorSet) (indices : list nat) :
  NoDup indices →
  ∀ (acc dists : list (list R)) (this this' : SsrScorer P),
    anchorSets this !! questionType = Some sets →
    scoreLoop questionType answerEmbedding indices acc this = (inr dists, this') →
    size (anchorEmbeddingsCache this')
    = (size (anchorEmbeddingsCache this)
       + length (uncachedAnchorBatches questionType sets
                   (anchorEmbeddingsCache this) indices))%nat
    ∧ (∀ key, is_Some (anchorEmbeddingsCache this' !! key) →
              is_Some (anchorEmbeddingsCache this !! key)
              ∨ ∃ i, In i indices ∧ key = cacheKey questionType i).
Proof.
  induction 1 as [|i rest Hnotin Hnd IH]; intros acc dists this this' Hsets Hloop.
  - cbn in Hloop. injection Hloop as <- <-. cbn. split; [lia | auto].
  - cbn [scoreLoop] in Hloop. unfold bind at 1 in Hloop.
    pose proof (getAnchorEmbeddings_config questionType i this) as Hcfg1.
    destruct (getAnchorEmbeddings questionType i this)
      as [[e | vs] this1] eqn:Hget; [discriminate|].
    destruct (getAnchorEmbeddings_growth _ _ sets _ _ _ Hsets Hget)
      as (Hsize1 & Hkeys1 & Hother).
    unfold bind, lift in Hloop.
    destruct (map_throwing _ vs) as [e | sims]; [discriminate|].
    cbn [snd] in Hcfg1.
    assert (Hsets1 : anchorSets this1 !! questionType = Some sets)
      by (destruct Hcfg1 as (-> & _); exact Hsets).
    destruct (IH _ _ _ _ Hsets1 Hloop) as (Hsize & Hkeys).
    split.
    + rewrite Hsize, Hsize1, (uncachedAnchorBatches_cons _ _ _ i rest), length_app.
      rewrite (uncachedAnchorBatches_ext questionType sets (anchorEmbeddingsCache this)
                 (anchorEmbeddingsCache this1) rest); [lia|].
      intros j Hj. apply Hother. intros Heq. apply cacheKey_inj in Heq as [_ ->].
      apply Hnotin, list_elem_of_In, Hj.
    + intros key Hkey. destruct (Hkeys key Hkey) as [Hold | (j & Hj & ->)].
      * destruct (Hkeys1 key Hold) as [? | ->]; [left; assumption|].
        right. exists i. split; [left; reflexivity | reflexivity].
      * right. exists j. split; [right; exact Hj | reflexivity].
Qed.

(** A successful [scoreAnswer] adds one cache entry per anchor batch it
    requested, all of them under keys of its question type. *)
Lemma scoreAnswer_growth (questionType freeTextAnswer : string)
    (sets : list AnchorSet) (this this' : SsrScorer P) (r : ScoreResult) :
  anchorSets this !! questionType = Some sets →
  scoreAnswer questionType freeTextAnswer this = (inr r, this') →
  size (anchorEmbeddingsCache this')
  = (size (anchorEmbeddingsCache this)
     + length (uncachedAnchorBatches questionType sets
                 (anchorEmbeddingsCache this) (seq 0 (length sets))))%nat
  ∧ (∀ key, is_Some (anchorEmbeddingsCache this' !! key) →
            is_Some (anchorEmbeddingsCache this !! key)
            ∨ ∃ i, (i < length sets)%nat ∧ key = cacheKey questionType i).
Proof.
  intros Hsets Hrun. rewrite (scoreAnswer_own _ _ _ _ Hsets) in Hrun.
  destruct sets as [|set0 sets']; [discriminate|].
  set (sets := set0 :: sets') in *.
  unfold bind at 1 in Hrun.
  pose proof (provider_embed_cache [Some freeTextAnswer] this) as Hc0.
  pose proof (provider_embed_config [Some freeTextAnswer] this) as Hcfg0.
  destruct (provider_embed [Some freeTextAnswer] this) as [[e | answer] this0];
    [discriminate|]. cbn [fst snd] in *.
  unfold bind at 1 in Hrun.
  destruct (scoreLoop questionType (mjoin (head answer)) (seq 0 (length sets)) [] this0)
    as [[e | dists] this1] eqn:Hloop; [discriminate|].
  injection Hrun as _ <-.
  assert (Hsets0 : anchorSets this0 !! questionType = Some sets)
    by (destruct Hcfg0 as (-> & _); exact Hsets).
  destruct (scoreLoop_growth questionType _ sets _
              (proj2 (NoDup_ListNoDup _) (List.seq_NoDup _ _))
              _ _ _ _ Hsets0 Hloop) as (Hsize & Hkeys).
  rewrite Hc0 in Hsize, Hkeys. split; [exact Hsize|].
  intros key Hkey. destruct (Hkeys key Hkey) as [? | (i & Hi & ->)]; [left; assumption|].
  right. exists i. apply in_seq in Hi. split; [lia | reflexivity].
Qed.

End AnchorCacheGrowth.

Lemma defaultCacheKeys_length : length defaultCacheKeys = 12%nat.
Proof. reflexivity. Qed.

Lemma cache_within_keys (c : gmap string (list embedding)) (keys : list string) :
  (∀ key, is_Some (c !! key) → In key keys) → (size c ≤ length keys)%nat.
Proof.
  intros Hkeys. rewrite <- size_dom.
  transitivity (size (list_to_set keys : gset string)).
  - apply subseteq_size. intros key Hkey. apply elem_of_dom in Hkey.
    apply elem_of_list_to_set, list_elem_of_In, Hkeys, Hkey.
  - clear Hkeys. induction keys as [|key keys IH]; cbn [list_to_set length].
    + rewrite size_empty. lia.
    + rewrite size_union_alt, size_singleton.
      assert (Hle : (size (list_to_set keys ∖ {[key]} : gset string)
                     ≤ size (list_to_set keys : gset string))%nat).
      { apply subseteq_size. apply subseteq_difference_l. reflexivity. }
      lia.
Qed.

Section BatchCalls.

Context {P : Type} `{EmbeddingProvider P}.
Variable Inv : P → Prop.
Variable d : nat.
Hypothesis Hconf : conforming Inv d.
Variable questionTypeMapping : option (gmap string string).

Lemma catalogued_keys (questionId : string) (sets : list AnchorSet) (i : nat) :
  catalogued questionTypeMapping questionId →
  DEFAULT_ANCHOR_SETS !! resolveQuestionType questionTypeMapping questionId = Some sets →
  (i < length sets)%nat →
  In (cacheKey (resolveQuestionType questionTypeMapping questionId) i) defaultCacheKeys.
Proof.
  unfold defaultCacheKeys. intros Hin Hsets Hi.
  assert (Hlen : length sets = 6%nat).
  { change (length (default [] (Some sets)) = 6%nat). rewrite <- Hsets.
    destruct Hin as [-> | ->]; reflexivity. }
  apply in_or_app.
  destruct Hin as [-> | ->]; [left | right]; apply in_map, in_seq; lia.
Qed.

Lemma pastGuard_catalogued (questionId : string) :
  catalogued questionTypeMapping questionId →
  pastGuard (resolveQuestionType questionTypeMapping questionId) = true.
Proof. intros [-> | ->]; reflexivity. Qed.

Lemma pastGuard_not_own (questionType : string) :
  DEFAULT_ANCHOR_SETS !! questionType = None →
  pastGuard questionType
  = match inherited_property questionType with
    | None | Some (Method _ 0) => false
    | Some (Method _ (S _)) | Some PrototypeObject => true
    end.
Proof.
  intros Hnone. unfold pastGuard. rewrite (get_property_not_own _ _ Hnone).
  destruct (inherited_property questionType) as [[name [|n] | ]|]; reflexivity.
Qed.

Lemma defaultCacheKeys_of_catalog (this : SsrScorer (Recording P)) :
  anchorSets this = DEFAULT_ANCHOR_SETS →
  (∀ key, is_Some (anchorEmbeddingsCache this !! key) → In key defaultCacheKeys) →
  cache_of_catalog this.
Proof.
  intros Hcat Hkeys questionType i Hsome. apply Hkeys in Hsome.
  unfold defaultCacheKeys in Hsome. rewrite Hcat.
  apply in_app_or in Hsome as [Hin | Hin]; apply in_map_iff in Hin as (j & Heq & _);
    apply cacheKey_inj in Heq as [<- _]; eexists; reflexivity.
Qed.

(** What the loop of [scoreAllAnswers] adds to the call log and to the
    cache of anchor embeddings. *)
Lemma batchLoop_calls (entries : list (string * string)) :
  ∀ (locals : BatchLocals) (this this' : SsrScorer (Recording P))
    (outcome : error + BatchLocals),
    scorer_ok (λ rp : Recording P, Inv (inner rp)) d this →
    anchorSets this = DEFAULT_ANCHOR_SETS →
    0 <= epsilon this →
    (∀ key, is_Some (anchorEmbeddingsCache this !! key) → In key defaultCacheKeys) →
    batchLoop questionTypeMapping entries locals this = (outcome, this') →
    (length (calls (provider this')) + size (anchorEmbeddingsCache this)
     = length (calls (provider this)) + size (anchorEmbeddingsCache this')
       + length (embeddedEntries questionTypeMapping entries))%nat
    ∧ (∀ key, is_Some (anchorEmbeddingsCache this' !! key) → In key defaultCacheKeys).
Proof.
  induction entries as [|[qid ans] rest IH];
    intros locals this this' outcome Hok Hcat Heps Hkeys Hloop.
  - cbn in Hloop. injection Hloop as _ <-. cbn. split; [lia | exact Hkeys].
  - cbn [batchLoop] in Hloop. cbn [embeddedEntries List.filter fst].
    fold (embeddedEntries questionTypeMapping rest).
    unfold bind at 1, try_catch, bind at 1 in Hloop.
    destruct (decide (catalogued questionTypeMapping qid)) as [Hin | Hout].
    + rewrite (pastGuard_catalogued _ Hin). cbn [length].
      destruct (DEFAULT_ANCHOR_SETS_catalogued questionTypeMapping qid Hin)
        as (sets & Hsets0 & Hne).
      assert (Hsets : anchorSets this !! resolveQuestionType questionTypeMapping qid
                      = Some sets) by (rewrite Hcat; exact Hsets0).
      destruct (scoreAnswer_run _ d (Recording_conforming Inv d Hconf)
                  (resolveQuestionType questionTypeMapping qid) ans sets this
                  Hok Hsets Hne Heps)
        as (vs0 & this0 & dists & this1 & _ & _ & _ & _ & Hrun & _ & Hok1
            & (Hsame & Hepsame & _)).
      pose proof (scoreAnswer_requests _ _ _ _ _ _ Hsets Hrun) as Hcalls.
      destruct (scoreAnswer_growth _ _ _ _ _ _ Hsets Hrun) as (Hsize & Hnew).
      rewrite Hrun in Hloop. cbn [fst snd ret] in Hloop.
      assert (Hkeys1 : ∀ key, is_Some (anchorEmbeddingsCache this1 !! key) →
                              In key defaultCacheKeys).
      { intros key Hkey. destruct (Hnew key Hkey) as [Hold | (i & Hi & ->)];
          [apply Hkeys, Hold | eapply catalogued_keys; eassumption]. }
      destruct (IH _ this1 this' outcome Hok1 ltac:(congruence)
                  ltac:(rewrite Hepsame; exact Heps) Hkeys1 Hloop) as (Hcount & Hkeys').
      split; [|exact Hkeys'].
      rewrite Hcalls, length_app in Hcount. cbn [length] in Hcount. lia.
    + assert (Hnone0 : DEFAULT_ANCHOR_SETS !! resolveQuestionType questionTypeMapping qid
                       = None).
      { apply DEFAULT_ANCHOR_SETS_other; intros Heq; apply Hout;
          [left | right]; exact Heq. }
      assert (Hnone : anchorSets this !! resolveQuestionType questionTypeMapping qid = None)
        by (rewrite Hcat; exact Hnone0).
      rewrite (pastGuard_not_own _ Hnone0).
      destruct Hok as [Hinv Hcache].
      destruct (provider_embed_recorded [Some ans] this) as (Hcalls0 & Hc0 & Hcfg0).
      destruct (provider_embed_ok _ d (Recording_conforming Inv d Hconf)
                  [Some ans] this Hinv) as (vs & this1 & He & _ & Hinv1 & _ & _).
      rewrite He in Hcalls0, Hc0, Hcfg0. cbn [snd] in Hcalls0, Hc0, Hcfg0.
      destruct Hcfg0 as (Hsame & Hepsame & _).
      assert (Hstep : (length (calls (provider this')) + size (anchorEmbeddingsCache this1)
                       = length (calls (provider this1))
                         + size (anchorEmbeddingsCache this')
                         + length (embeddedEntries questionTypeMapping rest))%nat
                      ∧ (∀ key, is_Some (anchorEmbeddingsCache this' !! key) →
                                In key defaultCacheKeys) →
                      (length (calls (provider this')) + size (anchorEmbeddingsCache this)
                       = length (calls (provider this))
                         + size (anchorEmbeddingsCache this')
                         + S (length (embeddedEntries questionTypeMapping rest)))%nat
                      ∧ (∀ key, is_Some (anchorEmbeddingsCache this' !! key) →
                                In key defaultCacheKeys)).
      { intros [Hcount Hkeys']. split; [|exact Hkeys'].
        rewrite Hcalls0, length_app, Hc0 in Hcount. cbn [length] in Hcount. lia. }
      assert (Hok1 : scorer_ok (λ rp : Recording P, Inv (inner rp)) d this1).
      { split; [exact Hinv1 | rewrite Hc0; exact Hcache]. }
      assert (Hkeys1 : ∀ key, is_Some (anchorEmbeddingsCache this1 !! key) →
                              In key defaultCacheKeys)
        by (rewrite Hc0; exact Hkeys).
      destruct (inherited_property (resolveQuestionType questionTypeMapping qid))
        as [[name [|n] | ]|] eqn:Hinherited.
      * rewrite (scoreAnswer_not_own _ _ _ Hnone), Hinherited in Hloop.
        cbn [throw fst snd ret] in Hloop.
        apply (IH locals this this' outcome (conj Hinv Hcache) Hcat Heps Hkeys Hloop).
      * rewrite (scoreAnswer_inherited_method _ _ _ _ _ Hnone Hinherited
                   (defaultCacheKeys_of_catalog _ Hcat Hkeys)), He in Hloop.
        cbn [fst snd ret] in Hloop. cbn [length]. apply Hstep.
        apply (IH locals this1 this' outcome Hok1 ltac:(congruence)
                 ltac:(rewrite Hepsame; exact Heps) Hkeys1 Hloop).
      * rewrite (scoreAnswer_not_own _ _ _ Hnone), Hinherited in Hloop.
        rewrite (bind_inr _ _ _ _ _ He) in Hloop.
        cbn [fst snd ret] in Hloop. cbn [length]. apply Hstep.
        apply (IH _ this1 this' outcome Hok1 ltac:(congruence)
                 ltac:(rewrite Hepsame; exact Heps) Hkeys1 Hloop).
      * rewrite (scoreAnswer_not_own _ _ _ Hnone), Hinherited in Hloop.
        cbn [throw fst snd ret] in Hloop.
        apply (IH locals this this' outcome (conj Hinv Hcache) Hcat Heps Hkeys Hloop).
Qed.

(** X24.  The embedding calls of a batch against a provider that honours
    its contract.  [scoreAllAnswers] makes one call for the answer of every
    entry whose question type passes the guard of [scoreAnswer] and one
    call for every anchor set it caches, and it caches no anchor set twice:
    the number of calls is the number of such entries plus the size of the
    cache it ends with, which is at most twelve.  A batch of [n] answers so
    costs at most [n + 12] calls. *)
Theorem scoreAllAnswers_call_budget
    (freeTextAnswers : list (string * string)) (embeddingProvider : P) :
  Inv embeddingProvider →
  let scorer' :=
    (scoreAllAnswers freeTextAnswers {| inner := embeddingProvider; calls := [] |}
       questionTypeMapping).2 in
  length (calls (provider scorer'))
  = (length (embeddedEntries questionTypeMapping freeTextAnswers)
     + size (anchorEmbeddingsCache scorer'))%nat
  ∧ (size (anchorEmbeddingsCache scorer') ≤ 12)%nat
  ∧ (length (calls (provider scorer')) ≤ length freeTextAnswers + 12)%nat.
Proof.
  intros Hinv scorer'.
  destruct (batchLoop questionTypeMapping freeTextAnswers
              {| l_scores := ∅; totalExpectedScore := Num 0; totalEntropy := Num 0 |}
              (batchScorer {| inner := embeddingProvider; calls := [] |}))
    as [outcome this'] eqn:Hloop.
  assert (Hstate : scorer' = this').
  { unfold scorer', scoreAllAnswers. rewrite bind_state by reflexivity.
    fold (batchScorer {| inner := embeddingProvider; calls := [] |}). rewrite Hloop. reflexivity. }
  clearbody scorer'. subst scorer'.
  destruct (batchLoop_calls freeTextAnswers
              {| l_scores := ∅; totalExpectedScore := Num 0; totalEntropy := Num 0 |}
              (batchScorer {| inner := embeddingProvider; calls := [] |}) this' outcome)
    as (Hcount & Hkeys).
  { split; [exact Hinv|]. intros key vs Hkey. discriminate. }
  { reflexivity. }
  { simpl. lra. }
  { intros key [vs Hkey]. discriminate. }
  { exact Hloop. }
  pose proof (cache_within_keys _ _ Hkeys) as Hsize.
  rewrite defaultCacheKeys_length in Hsize.
  assert (Hcat : (length (embeddedEntries questionTypeMapping freeTextAnswers)
                  ≤ length freeTextAnswers)%nat).
  { unfold embeddedEntries. clear. induction freeTextAnswers as [|e l IH]; cbn; [lia|].
    destruct (pastGuard _); cbn; lia. }
  cbn [batchScorer new_SsrScorer provider anchorEmbeddingsCache calls o_provider]
    in Hcount.
  rewrite map_size_empty in Hcount. cbn [length] in Hcount.
  split; [lia|]. split; [exact Hsize | lia].
Qed.

End BatchCalls.

Lemma scoreAllAnswers_call_budget_witness :
  let scorer' :=
    (scoreAllAnswers [("ease", "fine"); ("q7", "slow"); ("speed", "ok")]%string
       {| inner := Stub; calls := [] |} (Some {[ "q7"%string := "ease"%string ]})).2 in
  length (calls (provider scorer'))
  = (length (embeddedEntries (Some {[ "q7"%string := "ease"%string ]})
               [("ease", "fine"); ("q7", "slow"); ("speed", "ok")]%string)
     + size (anchorEmbeddingsCache scorer'))%nat
  ∧ (size (anchorEmbeddingsCache scorer') ≤ 12)%nat
  ∧ (length (calls (provider scorer')) ≤ 3 + 12)%nat.
Proof.
  apply (scoreAllAnswers_call_budget (λ _ : StubProvider, True) 2 Stub_conforming
           (Some {[ "q7"%string := "ease"%string ]})
           [("ease", "fine"); ("q7", "slow"); ("speed", "ok")]%string Stub).
  exact I.
Defined.

(** ** Scoring the same answer again through a [VoyageProvider] *)

Section LoopAgain.

Context {P : Type} `{EmbeddingProvider P}.

(** On a scorer that holds what a run of the loop cached, the loop reads
    every anchor set from the cache: it returns the same distributions and
    leaves the scorer as it is. *)
Lemma scoreLoop_again (questionType : string) (answerEmbedding : embedding)
    (indices : list nat) :
  ∀ (acc dists : list (list R)) (this this' : SsrScorer P),
    scoreLoop questionType answerEmbedding indices acc this = (inr dists, this') →
    ∀ s : SsrScorer P,
      epsilon s = epsilon this →
      temperature s = temperature this →
      (∀ i, In i indices →
            anchorEmbeddingsCache s !! cacheKey questionType i
            = anchorEmbeddingsCache this' !! cacheKey questionType i) →
      scoreLoop questionType answerEmbedding indices acc s = (inr dists, s).
Proof.
  induction indices as [|i rest IH]; intros acc dists this this' Hloop s Heps Htemp Hagree.
  - cbn in Hloop |- *. injection Hloop as <- _. reflexivity.
  - cbn [scoreLoop] in Hloop |- *. unfold bind at 1 in Hloop.
    destruct (getAnchorEmbeddings_cache questionType i this) as (_ & Hstored & _).
    pose proof (getAnchorEmbeddings_config questionType i this) as Hcfg1.
    destruct (getAnchorEmbeddings questionType i this)
      as [[e | vs] this1] eqn:Hget; [discriminate|].
    cbn [fst snd] in Hstored, Hcfg1. specialize (Hstored vs eq_refl).
    unfold bind, lift in Hloop.
    destruct (map_throwing _ vs) as [e | sims] eqn:Hsims; [discriminate|].
    assert (Hkept : anchorEmbeddingsCache this' !! cacheKey questionType i = Some vs).
    { pose proof (scoreLoop_keeps questionType answerEmbedding rest _ vs
                    (acc ++ [similarityToPmf sims
                               (Some {| opt_epsilon := Some (epsilon this1);
                                        opt_temperature := Some (temperature this1) |})])
                    this1 Hstored) as Hk.
      rewrite Hloop in Hk. exact Hk. }
    rewrite (bind_inr _ _ _ _ _
               (getAnchorEmbeddings_hit questionType i vs s
                  (eq_trans (Hagree i (or_introl eq_refl)) Hkept))).
    unfold bind, lift. rewrite Hsims.
    destruct Hcfg1 as (_ & Heps1 & Htemp1).
    replace (epsilon s) with (epsilon this1) by congruence.
    replace (temperature s) with (temperature this1) by congruence.
    apply (IH _ _ this1 this' Hloop s); try congruence.
    intros j Hj. apply Hagree. right. exact Hj.
Qed.

Lemma with_provider_same (this : SsrScorer P) : with_provider (provider this) this = this.
Proof. destruct this. reflexivity. Qed.

End LoopAgain.

Section VoyageScoring.

Context {B : Type} `{EmbeddingBackend B}.
Variable g : text → list R.
Hypothesis Hanswers : backend_answers g.
Variable d : nat.
Hypothesis Hdim : ∀ t : text, length (g t) = d.

Lemma VoyageProvider_embed_keeps (texts : list text) (this : VoyageProvider B)
    (t : text) (v : list R) :
  cache_get (cache this) t = Some v →
  cache_get (cache (VoyageProvider_embed texts this).2) t = Some v.
Proof.
  intros Hget. destruct (VoyageProvider_embed_cache texts this) as (Hkeep & _).
  unfold cache_get. rewrite Hkeep; [exact Hget|].
  rewrite missingTexts_miss. intros [_ Hnone]. congruence.
Qed.

(** After a call that succeeded, every text of the request is cached with
    the vector of the backend. *)
Lemma VoyageProvider_embed_stores (texts : list text) (this this' : VoyageProvider B)
    (results : list embedding) (t : text) :
  voyage_cache_consistent g (cache this) →
  VoyageProvider_embed texts this = (inr results, this') →
  In t texts →
  cache_get (cache this') t = Some (g t).
Proof.
  intros Hcons Hrun Hin.
  pose proof (VoyageProvider_embed_consistent g Hanswers texts this this' results
                Hcons Hrun) as Hcons'.
  assert (Hsome : ∃ v, cache_get (cache this') t = Some v).
  { destruct (cache_get (cache this) t) as [v|] eqn:Hget.
    - exists v. pose proof (VoyageProvider_embed_keeps texts this t v Hget) as Hk.
      rewrite Hrun in Hk. exact Hk.
    - destruct (VoyageProvider_embed_cache texts this) as (_ & _ & Hwritten).
      rewrite Hrun in Hwritten. cbn [fst snd] in Hwritten.
      destruct (Hwritten results eq_refl t) as (embeddings & b' & j & Hfetch & Hj & Hc).
      { apply missingTexts_miss. split; assumption. }
      destruct (Hanswers (missingTexts (cache this) texts) (network this)) as [b'' Hok].
      rewrite Hok in Hfetch. injection Hfetch as <- _.
      destruct (lookup_lt_is_Some_2 (map g (missingTexts (cache this) texts)) j
                  ltac:(rewrite length_map; exact Hj)) as [v Hv].
      exists v. unfold cache_get. rewrite Hc, Hv. reflexivity. }
  destruct Hsome as [v Hv]. rewrite Hv. f_equal. apply (Hcons' _ _ Hv).
Qed.

(** The contract holds as well on the states that have a given text cached. *)
Lemma VoyageProvider_conforming_cached (a : text) :
  conforming (λ p : VoyageProvider B,
                voyage_cache_consistent g (cache p)
                ∧ cache_get (cache p) a = Some (g a)) d.
Proof.
  intros texts p [Hcons Ha].
  destruct (VoyageProvider_conforming g Hanswers d Hdim texts p Hcons)
    as (vs & p' & He & Hwf & Hcons').
  exists vs, p'. split; [exact He|]. split; [exact Hwf|]. split; [exact Hcons'|].
  pose proof (VoyageProvider_embed_keeps texts p a _ Ha) as Hk.
  cbn [embed VoyageProvider_provider] in He. rewrite He in Hk. exact Hk.
Qed.

(** X25.  Scoring the same answer twice through a [VoyageProvider] whose
    backend answers every text with a vector of one dimension.  The scorer
    caches the anchors and the provider caches the answer, so the second
    call makes no request at all: it returns the same result and leaves the
    scorer, the provider's cache and the backend exactly as the first call
    left them. *)
Theorem scoreAnswer_again_is_free (questionType freeTextAnswer : string)
    (sets : list AnchorSet) (this : SsrScorer (VoyageProvider B)) :
  scorer_ok (λ p : VoyageProvider B, voyage_cache_consistent g (cache p)) d this →
  anchorSets this !! questionType = Some sets →
  sets ≠ [] →
  ∃ (r : ScoreResult) (this1 : SsrScorer (VoyageProvider B)),
    scoreAnswer questionType freeTextAnswer this = (inr r, this1)
    ∧ scoreAnswer questionType freeTextAnswer this1 = (inr r, this1).
Proof.
  intros [Hcons Hcache] Hsets Hne.
  set (a := Some freeTextAnswer : text).
  destruct (VoyageProvider_embed_answered g Hanswers [a] (provider this))
    as (vs & p0 & Hemb).
  pose proof (VoyageProvider_embed_values g Hanswers [a] _ _ _ Hcons Hemb) as Hvs.
  cbn [map] in Hvs. subst vs.
  assert (He : provider_embed [a] this = (inr [Some (g a)], with_provider p0 this)).
  { unfold provider_embed. cbn [embed VoyageProvider_provider]. rewrite Hemb. reflexivity. }
  assert (Hok0 : scorer_ok (λ p : VoyageProvider B,
                              voyage_cache_consistent g (cache p)
                              ∧ cache_get (cache p) a = Some (g a)) d
                           (with_provider p0 this)).
  { split; [|exact Hcache]. cbn [provider with_provider]. split.
    - apply (VoyageProvider_embed_consistent g Hanswers [a] _ _ _ Hcons Hemb).
    - apply (VoyageProvider_embed_stores [a] _ _ _ a Hcons Hemb). left. reflexivity. }
  assert (Hidx : Forall (λ i, (i < length sets)%nat) (seq 0 (length sets))).
  { apply Forall_forall. intros i Hi. apply list_elem_of_In, in_seq in Hi. lia. }
  destruct (scoreLoop_ok _ d (VoyageProvider_conforming_cached a) questionType (g a) sets
              _ (Hdim a) Hidx [] (with_provider p0 this) Hok0 Hsets)
    as (dists & this1 & Hloop & _ & _ & [[Hcons1 Ha1] _] & (Hsets1 & Heps1 & Htemp1)).
  cbn [app] in Hloop.
  destruct sets as [|set0 sets']; [congruence|].
  eexists _, this1. split.
  - rewrite (scoreAnswer_own _ _ _ _ Hsets).
    rewrite (bind_inr _ _ _ _ _ He). cbn [head mjoin option_join].
    rewrite (bind_inr _ _ _ _ _ Hloop). reflexivity.
  - assert (He1 : provider_embed [a] this1 = (inr [Some (g a)], this1)).
    { unfold provider_embed. cbn [embed VoyageProvider_provider].
      rewrite VoyageProvider_embed_hit.
      - cbn [map]. rewrite Ha1, with_provider_same. reflexivity.
      - unfold missingTexts. cbn [List.filter]. rewrite Ha1. reflexivity. }
    assert (Hsets' : anchorSets this1 !! questionType = Some (set0 :: sets')).
    { rewrite Hsets1. cbn [anchorSets with_provider]. exact Hsets. }
    rewrite (scoreAnswer_own _ _ _ _ Hsets').
    rewrite (bind_inr _ _ _ _ _ He1). cbn [head mjoin option_join].
    rewrite (bind_inr _ _ _ _ _
               (scoreLoop_again questionType (Some (g a)) _ [] dists _ this1 Hloop this1
                  Heps1 Htemp1 (λ _ _, eq_refl))).
    reflexivity.
Qed.

End VoyageScoring.

Lemma scoreAnswer_again_is_free_witness :
  ∃ (r : ScoreResult) (this1 : SsrScorer (VoyageProvider EchoBackend)),
    scoreAnswer "ease" "fine" (batchScorer {| cache := ∅; network := Echo |})
    = (inr r, this1)
    ∧ scoreAnswer "ease" "fine" this1 = (inr r, this1).
Proof.
  apply (scoreAnswer_again_is_free (λ _, [1; 0]) Echo_answers 2 (λ _, eq_refl)
           "ease" "fine" easeSets (batchScorer {| cache := ∅; network := Echo |})).
  - split; [|intros key vs Hkey; discriminate].
    intros t v Hget. discriminate.
  - reflexivity.
  - discriminate.
Defined.

(** ** [scoreAllAnswers]: a batch scores every question on its own *)

Section BatchPointwise.

Context {P : Type} `{EmbeddingProvider P}.
Variable f : list text → list embedding.
Hypothesis Hdet : deterministic f.
Variable questionTypeMapping : option (gmap string string).

Lemma scoredAnswers_alone (provider0 : P) (entries : list (string * string)) :
  ∀ this : SsrScorer P,
    same_config (batchScorer provider0) this →
    cache_consistent f this →
    scoredAnswers questionTypeMapping entries this
    = flat_map (scoredAlone questionTypeMapping provider0) entries.
Proof.
  induction entries as [|[qid ans] rest IH]; intros this Hcfg Hcons; [reflexivity|].
  cbn [scoredAnswers flat_map]. unfold scoredAlone at 1. cbn [fst snd].
  assert (Hfresh : cache_consistent f (batchScorer provider0)).
  { intros qt j vs Hkey. cbn in Hkey. discriminate. }
  assert (Hcfg' : same_config this (batchScorer provider0)).
  { destruct Hcfg as (? & ? & ?). repeat split; congruence. }
  destruct (scoreAnswer_det f Hdet (resolveQuestionType questionTypeMapping qid) ans
              this (batchScorer provider0) Hcfg' Hcons Hfresh) as (Hsame & Hcons1).
  pose proof (scoreAnswer_config (resolveQuestionType questionTypeMapping qid) ans this)
    as Hcfg1.
  rewrite <- Hsame.
  destruct (scoreAnswer (resolveQuestionType questionTypeMapping qid) ans this)
    as [[e | r] this1]; cbn [fst snd app] in *;
    [|f_equal]; apply IH; try exact Hcons1;
    eapply same_config_trans; eassumption.
Qed.

(** X26.  With a provider whose embeddings are a function of the requested
    texts, a batch scores every question that is not named ["__proto__"] as
    if it were alone: the entry of the question in [scores] is the result
    [scoreAnswer] gives for its type and answer on a fresh scorer, with the
    answer text beside it, and a question whose scoring fails alone has no
    entry.  So neither the other questions of the batch nor their order
    change a score.  Under the name ["__proto__"] the result has no entry. *)
Theorem scoreAllAnswers_pointwise
    (freeTextAnswers : list (string * string)) (embeddingProvider : P) :
  NoDup (map fst freeTextAnswers) →
  ∃ (res : SsrScoresResult) (scorer' : SsrScorer P),
    scoreAllAnswers freeTextAnswers embeddingProvider questionTypeMapping
    = (inr res, scorer')
    ∧ (∀ questionId freeTextAnswer,
         In (questionId, freeTextAnswer) freeTextAnswers →
         questionId ≠ "__proto__"%string →
         scores res !! questionId
         = match (scoreAnswer (resolveQuestionType questionTypeMapping questionId)
                    freeTextAnswer (batchScorer embeddingProvider)).1 with
           | inr r => Some {| result := r; answer := freeTextAnswer |}
           | inl _ => None
           end)
    ∧ scores res !! "__proto__"%string = None.
Proof.
  intros Hnd.
  destruct (scoreAllAnswers_eq freeTextAnswers embeddingProvider questionTypeMapping)
    as (scorer' & Hrun & _). cbv zeta in Hrun.
  eexists _, scorer'. split; [exact Hrun|]. cbn [scores].
  rewrite (scoredAnswers_alone embeddingProvider freeTextAnswers
             (batchScorer embeddingProvider) (same_config_refl _))
    by (intros qt j vs Hkey; cbn in Hkey; discriminate).
  set (scored := flat_map (scoredAlone questionTypeMapping embeddingProvider)
                          freeTextAnswers).
  assert (Hin_scored : ∀ questionId sa,
            In (questionId, sa) scored →
            ∃ a, In (questionId, a) freeTextAnswers
                 ∧ scoredAlone questionTypeMapping embeddingProvider (questionId, a)
                   = [(questionId, sa)]).
  { intros questionId sa Hin. apply in_flat_map in Hin as ([qid a] & Hentry & Hin).
    unfold scoredAlone in Hin. cbn [fst snd] in Hin.
    destruct (scoreAnswer (resolveQuestionType questionTypeMapping qid) a
                (batchScorer embeddingProvider)).1 as [e | r] eqn:Halone;
      [contradiction|].
    destruct Hin as [[= -> <-] | []]. exists a. split; [exact Hentry|].
    unfold scoredAlone. cbn [fst snd]. rewrite Halone. reflexivity. }
  assert (Hunique : ∀ questionId a a',
            In (questionId, a) freeTextAnswers → In (questionId, a') freeTextAnswers →
            a = a').
  { clear -Hnd. induction freeTextAnswers as [|[q b] rest IH]; intros questionId a a';
      [intros []|].
    cbn [map fst] in Hnd. apply NoDup_cons in Hnd as [Hnotin Hnd].
    rewrite list_elem_of_In in Hnotin.
    intros [Heq | Hin] [Heq' | Hin'].
    - congruence.
    - exfalso. injection Heq as -> _. apply Hnotin, in_map_iff.
      exists (questionId, a'). split; [reflexivity | exact Hin'].
    - exfalso. injection Heq' as -> _. apply Hnotin, in_map_iff.
      exists (questionId, a). split; [reflexivity | exact Hin].
    - apply (IH Hnd questionId); assumption. }
  assert (Hscoredkeys : NoDup (map fst scored)).
  { apply (sublist_NoDup _ _ Hnd). unfold scored. clear.
    induction freeTextAnswers as [|[q b] rest IH]; [constructor|].
    cbn [flat_map map fst]. unfold scoredAlone at 1. cbn [fst snd].
    destruct (scoreAnswer _ b _).1 as [e | r]; cbn [app map fst].
    - apply sublist_cons, IH.
    - apply sublist_skip, IH. }
  split; [|apply absorb_proto, lookup_empty].
  intros questionId freeTextAnswer Hentry Hname.
  destruct (scoreAnswer (resolveQuestionType questionTypeMapping questionId)
              freeTextAnswer (batchScorer embeddingProvider)).1 as [e | r] eqn:Halone.
  - rewrite absorb_not_in; [apply lookup_empty|].
    intros Hin. apply in_map_iff in Hin as ([q sa] & Hq & Hin). cbn [fst] in Hq. subst q.
    destruct (Hin_scored _ _ Hin) as (a & Ha & Hone).
    rewrite (Hunique _ _ _ Ha Hentry) in Hone.
    unfold scoredAlone in Hone. cbn [fst snd] in Hone. rewrite Halone in Hone.
    discriminate.
  - apply (absorb_scores scored Hscoredkeys _ _ _ Hname). left.
    apply in_flat_map. exists (questionId, freeTextAnswer). split; [exact Hentry|].
    unfold scoredAlone. cbn [fst snd]. rewrite Halone. left. reflexivity.
Qed.

End BatchPointwise.

Lemma scoreAllAnswers_pointwise_witness :
  ∃ (res : SsrScoresResult) (scorer' : SsrScorer StubProvider),
    scoreAllAnswers [("ease", "fine"); ("speed", "ok")]%string Stub None
    = (inr res, scorer')
    ∧ (∀ questionId freeTextAnswer,
         In (questionId, freeTextAnswer) [("ease", "fine"); ("speed", "ok")]%string →
         questionId ≠ "__proto__"%string →
         scores res !! questionId
         = match (scoreAnswer (resolveQuestionType None questionId)
                    freeTextAnswer (batchScorer Stub)).1 with
           | inr r => Some {| result := r; answer := freeTextAnswer |}
           | inl _ => None
           end)
    ∧ scores res !! "__proto__"%string = None.
Proof.
  apply (scoreAllAnswers_pointwise stubAnswer Stub_deterministic None
           [("ease", "fine"); ("speed", "ok")]%string Stub).
  apply NoDup_ListNoDup. cbn [map fst].
  repeat constructor; cbn [In]; intuition discriminate.
Defined.

(** ** [cosineSimilarity] on doubles *)

Section CosineDouble.

Lemma float_mul_comm (x y : float) : (x * y)%float = (y * x)%float.
Proof.
  apply Prim2SF_inj. rewrite !mul_spec. unfold SF64mul, SFmul.
  destruct (Prim2SF x) as [sx | sx | | sx mx ex], (Prim2SF y) as [sy | sy | | sy my ey];
    try reflexivity; try (rewrite (xorb_comm sx sy); reflexivity).
  rewrite (xorb_comm sx sy), (Pos.mul_comm mx my), (Z.add_comm ex ey). reflexivity.
Qed.

Lemma cosineStep_double_shift (x y : float) (a b : list float)
    (acc : float * float * float) (i : nat) :
  Double.cosineStep (x :: a) (y :: b) acc (S i) = Double.cosineStep a b acc i.
Proof. destruct acc as [[? ?] ?]. reflexivity. Qed.

Lemma cosine_double_fold_shift (x y : float) (a b : list float) (n : nat) :
  ∀ (k : nat) (acc : float * float * float),
    foldl (Double.cosineStep (x :: a) (y :: b)) acc (seq (S k) n)
    = foldl (Double.cosineStep a b) acc (seq k n).
Proof.
  induction n as [|n IH]; intros k acc; [reflexivity|].
  cbn [seq foldl]. rewrite cosineStep_double_shift. apply IH.
Qed.

(** The loop computes the three sums of products. *)
Lemma cosine_double_fold (a : list float) :
  ∀ (b : list float) (d na nb : float),
    length a = length b →
    foldl (Double.cosineStep a b) (d, na, nb) (seq 0 (length a))
    = (Double.sumProducts d a b, Double.sumProducts na a a, Double.sumProducts nb b b).
Proof.
  induction a as [|x a IH]; intros [|y b] d na nb Hlen; try discriminate; [reflexivity|].
  cbn [length seq foldl]. rewrite cosine_double_fold_shift.
  cbn [Double.cosineStep nth Double.sumProducts]. apply IH. cbn in Hlen. lia.
Qed.

Lemma sumProducts_comm (a : list float) :
  ∀ (b : list float) (acc : float),
    Double.sumProducts acc a b = Double.sumProducts acc b a.
Proof.
  induction a as [|x a IH]; intros [|y b] acc; cbn [Double.sumProducts]; try reflexivity.
  rewrite (float_mul_comm x y). apply IH.
Qed.

Lemma cosineSimilarity_double_eq (vecA vecB : list float) :
  length vecA = length vecB →
  Double.cosineSimilarity vecA vecB
  = inr (if (Double.denominator vecA vecB =? 0)%float then 0%float
         else (Double.sumProducts 0 vecA vecB / Double.denominator vecA vecB)%float).
Proof.
  intros Heq. unfold Double.cosineSimilarity.
  destruct (decide (length vecA ≠ length vecB)) as [Hne | _]; [contradiction|].
  rewrite (cosine_double_fold _ _ _ _ _ Heq). fold (Double.denominator vecA vecB).
  destruct (_ =? _)%float; reflexivity.
Qed.


(** X3.  On doubles, [cosineSimilarity] is symmetric in its two
    arguments, error included: rounded multiplication commutes. *)
Theorem cosineSimilarity_symmetric (vecA vecB : list float) :
  Double.cosineSimilarity vecA vecB = Double.cosineSimilarity vecB vecA.
Proof.
  destruct (decide (length vecA = length vecB)) as [Heq | Hne].
  - rewrite (cosineSimilarity_double_eq _ _ Heq),
      (cosineSimilarity_double_eq _ _ (eq_sym Heq)).
    unfold Double.denominator.
    rewrite (float_mul_comm (PrimFloat.sqrt (Double.sumProducts 0 vecA vecA))),
      (sumProducts_comm vecA vecB). reflexivity.
  - unfold Double.cosineSimilarity.
    destruct (decide (length vecA ≠ length vecB)); [|contradiction].
    destruct (decide (length vecB ≠ length vecA)) as [_ | Heq]; [reflexivity|].
    apply dec_stable in Heq. congruence.
Qed.

End CosineDouble.



(** ** Names inherited from [Object.prototype] *)

Section InheritedNames.

Lemma recordingScorer_of_catalog : cache_of_catalog recordingScorer.
Proof. intros questionType i [vs Hvs]. discriminate. Qed.

Lemma expectedScoreOf_zeros :
  expectedScoreOf [Num 0; Num 0; Num 0; Num 0; Num 0] = Num 0.
Proof.
  rewrite expectedScoreOf_five. f_equal. unfold expectation. cbn. lra.
Qed.

Lemma entropyOf_zeros : entropyOf [Num 0; Num 0; Num 0; Num 0; Num 0] = Num 0.
Proof.
  unfold entropyOf. cbn [foldl].
  destruct (Rlt_dec 0 0) as [Hlt | _]; [lra | reflexivity].
Qed.

(** What [scoreAnswer] returns on the name [__proto__] when the catalog
    has no own entry of that name and the provider answers. *)
Lemma scoreAnswer_proto {P : Type} `{EmbeddingProvider P} (freeTextAnswer : string)
    (this this1 : SsrScorer P) (answer : list embedding) :
  anchorSets this !! "__proto__"%string = None →
  provider_embed [Some freeTextAnswer] this = (inr answer, this1) →
  scoreAnswer "__proto__" freeTextAnswer this
  = (inr {| distribution := [Num 0; Num 0; Num 0; Num 0; Num 0];
            expectedScore := Num 0;
            entropy := Num 0;
            anchorSetCount := Undefined |}, this1).
Proof.
  intros Hnone He. rewrite (scoreAnswer_not_own _ _ _ Hnone).
  change (inherited_property "__proto__") with (Some PrototypeObject).
  rewrite (bind_inr _ _ _ _ _ He).
  change (averageDistributions []) with [Num 0; Num 0; Num 0; Num 0; Num 0].
  rewrite expectedScoreOf_zeros, entropyOf_zeros. reflexivity.
Qed.

(** C4.  The default catalog has no entry ["constructor"], yet
    [scoreAnswer] does not raise the unknown-question-type error for it:
    the guard reads the function inherited from [Object.prototype], whose
    [length] is [1], the answer is embedded, and the call fails with the
    error of [getAnchorEmbeddings] for the anchor set [0]. *)
Theorem scoreAnswer_constructor :
  anchorSets recordingScorer !! "constructor"%string = None
  ∧ (∃ this' : SsrScorer (Recording StubProvider),
       scoreAnswer "constructor" "x" recordingScorer
       = (inl (NoAnchorSetFound "constructor" 0), this')
       ∧ calls (provider this') = [[Some "x"%string]])
  ∧ ¬ raises_UnknownQuestionType (scoreAnswer "constructor" "x" recordingScorer).
Proof.
  assert (Hnone : anchorSets recordingScorer !! "constructor"%string = None)
    by reflexivity.
  assert (Hrun : scoreAnswer "constructor" "x" recordingScorer
                 = (inl (NoAnchorSetFound "constructor" 0),
                    with_provider {| inner := Stub; calls := [[Some "x"%string]] |}
                                  recordingScorer)).
  { rewrite (scoreAnswer_inherited_method "constructor" "x" "Object" 0 recordingScorer
               Hnone eq_refl recordingScorer_of_catalog).
    reflexivity. }
  split; [exact Hnone|]. split.
  - eexists. split; [exact Hrun | reflexivity].
  - rewrite Hrun. intros [questionType Heq]. discriminate.
Qed.

(** C7.  [scoreAnswer] on the name ["__proto__"], which the default
    catalog does not list, returns a result: the loop over the anchor sets
    runs zero times, the distribution is five zeros, and the expected score
    is [0], below the scale. *)
Theorem scoreAnswer_proto_score :
  ∃ (r : ScoreResult) (this' : SsrScorer StubProvider),
    scoreAnswer "__proto__" "x" stubScorer = (inr r, this')
    ∧ distribution r = [Num 0; Num 0; Num 0; Num 0; Num 0]
    ∧ expectedScore r = Num 0
    ∧ entropy r = Num 0
    ∧ anchorSetCount r = Undefined
    ∧ ¬ 1 <= 0.
Proof.
  eexists _, _. split.
  - eapply (scoreAnswer_proto "x" stubScorer); reflexivity.
  - cbn [distribution expectedScore entropy anchorSetCount].
    repeat split. lra.
Qed.

(** C10.  A batch with the mapping [{q1: "__proto__"}]: the resolved
    question type of [q1] is neither ["ease"] nor ["trust"], and [q1] is in
    the result, scored from zero anchor sets. *)
Theorem scoreAllAnswers_proto_type :
  ∃ (res : SsrScoresResult) (scorer' : SsrScorer StubProvider),
    scoreAllAnswers [("q1", "x")]%string Stub
      (Some {[ "q1"%string := "__proto__"%string ]}) = (inr res, scorer')
    ∧ resolveQuestionType (Some {[ "q1"%string := "__proto__"%string ]}) "q1"
      = "__proto__"%string
    ∧ scores res
      = {[ "q1"%string :=
             {| result := {| distribution := [Num 0; Num 0; Num 0; Num 0; Num 0];
                             expectedScore := Num 0;
                             entropy := Num 0;
                             anchorSetCount := Undefined |};
                answer := "x" |} ]}
    ∧ questionCount (summary res) = 1%nat.
Proof.
  destruct (scoreAllAnswers_eq [("q1", "x")]%string Stub
              (Some {[ "q1"%string := "__proto__"%string ]}))
    as (scorer' & Hall & _). cbv zeta in Hall.
  cbn [scoredAnswers] in Hall.
  change (resolveQuestionType (Some {[ "q1"%string := "__proto__"%string ]}) "q1")
    with "__proto__"%string in Hall.
  erewrite (scoreAnswer_proto "x" (batchScorer Stub)) in Hall; [|reflexivity..].
  cbn [foldl absorb l_scores fst snd] in Hall.
  rewrite assign_property_other in Hall by discriminate.
  eexists _, scorer'. split; [exact Hall|]. cbn [scores summary questionCount].
  split; [reflexivity|]. split; [apply insert_empty|].
  rewrite insert_empty. apply map_size_singleton.
Qed.

(** C3.  A batch with the answers [{ease: "fine", __proto__: "ok"}] and
    the mapping [{__proto__: "ease"}] against the stub: [scoreAnswer]
    succeeds for both questions, but the assignment
    [scores["__proto__"] = ...] adds no key, so [scores] holds ["ease"]
    only and [questionCount] is [1], while both scores were added to the
    totals: the average expected score is the sum of the two scores, not
    their mean. *)
Theorem scoreAllAnswers_proto_key :
  ∃ (res : SsrScoresResult) (scorer' : SsrScorer StubProvider) (r1 r2 : ScoreResult),
    scoredAnswers (Some {[ "__proto__"%string := "ease"%string ]})
      [("ease", "fine"); ("__proto__", "ok")]%string (batchScorer Stub)
    = [("ease"%string, {| result := r1; answer := "fine" |});
       ("__proto__"%string, {| result := r2; answer := "ok" |})]
    ∧ scoreAllAnswers [("ease", "fine"); ("__proto__", "ok")]%string Stub
        (Some {[ "__proto__"%string := "ease"%string ]}) = (inr res, scorer')
    ∧ scores res = {[ "ease"%string := {| result := r1; answer := "fine" |} ]}
    ∧ questionCount (summary res) = 1%nat
    ∧ averageExpectedScore (summary res)
      = num_div_count (num_add (num_add (Num 0) (expectedScore r1)) (expectedScore r2)) 1.
Proof.
  destruct (scoreAnswer_run (λ _ : StubProvider, True) 2 Stub_conforming
              "ease" "fine" easeSets (batchScorer Stub))
    as (vs1 & this0 & dists1 & this1 & _ & _ & _ & _ & Hrun1 & _ & Hok1
        & (Hsets1 & Heps1 & _)).
  { exact stubScorer_ok. } { reflexivity. } { discriminate. } { simpl; lra. }
  destruct (scoreAnswer_run (λ _ : StubProvider, True) 2 Stub_conforming
              "ease" "ok" easeSets this1)
    as (vs2 & this2 & dists2 & this3 & _ & _ & _ & _ & Hrun2 & _).
  { exact Hok1. } { rewrite Hsets1. reflexivity. } { discriminate. }
  { rewrite Heps1. simpl. lra. }
  destruct (scoreAllAnswers_eq [("ease", "fine"); ("__proto__", "ok")]%string Stub
              (Some {[ "__proto__"%string := "ease"%string ]}))
    as (scorer' & Hall & _). cbv zeta in Hall.
  match type of Hrun1 with _ = (inr ?r, _) => set (r1 := r) in Hrun1 end.
  match type of Hrun2 with _ = (inr ?r, _) => set (r2 := r) in Hrun2 end.
  assert (Hscored :
            scoredAnswers (Some {[ "__proto__"%string := "ease"%string ]})
              [("ease", "fine"); ("__proto__", "ok")]%string (batchScorer Stub)
            = [("ease"%string, {| result := r1; answer := "fine" |});
               ("__proto__"%string, {| result := r2; answer := "ok" |})]).
  { cbn [scoredAnswers].
    change (resolveQuestionType (Some {[ "__proto__"%string := "ease"%string ]}) "ease")
      with "ease"%string.
    change (resolveQuestionType (Some {[ "__proto__"%string := "ease"%string ]})
              "__proto__")
      with "ease"%string.
    rewrite Hrun1, Hrun2. reflexivity. }
  rewrite Hscored in Hall. cbn [foldl absorb l_scores fst snd result] in Hall.
  rewrite assign_property_proto in Hall.
  rewrite assign_property_other in Hall by discriminate.
  eexists _, scorer', r1, r2. split; [exact Hscored|]. split; [exact Hall|].
  cbn [scores summary questionCount averageExpectedScore totalExpectedScore].
  rewrite insert_empty, map_size_singleton. repeat split.
Qed.

End InheritedNames.
